(** * XPlan retrieval engine and tool-dispatch loop

    A shallow embedding of [FileSystemTools] (src/tools.ts) and of
    [CodeSearchAgent] (codeAgent.js), with the properties of the chunker,
    the hash embedding, the cosine ranker, grep and the dispatch loop. *)

From Stdlib Require Import String Ascii.
From Stdlib Require Import List Arith ZArith NArith Lia Bool.
From Stdlib Require Import Reals Lra.
From Stdlib Require Import DecimalString DecimalNat.
From Stdlib Require Import Permutation Sorted.
From Stdlib Require Import SpecFloat.
Import ListNotations.

(* ================================================================= *)
(** * Part I: the program *)
(* ================================================================= *)

(** ** JavaScript strings

    A JavaScript string is a sequence of UTF-16 code units; [charCodeAt]
    reads one of them.  [str] injects a literal, one code unit per byte. *)

Definition char16 := N.
Definition jsstring := list char16.

Definition str (s : string) : jsstring :=
  map N_of_ascii (list_ascii_of_string s).

Definition LF : char16 := 10%N.
Definition COLON : char16 := 58%N.

Definition jsstring_eqb (a b : jsstring) : bool :=
  if list_eq_dec N.eq_dec a b then true else false.

(** [s.split(sep)] for a one-character separator: never the empty array,
    ["".split('\n')] is [[""]]. *)
Fixpoint split (sep : char16) (s : jsstring) : list jsstring :=
  match s with
  | [] => [[]]
  | c :: rest =>
      if N.eqb c sep then [] :: split sep rest
      else match split sep rest with
           | [] => [[c]]
           | w :: ws => (c :: w) :: ws
           end
  end.

(** [parts.join(sep)]. *)
Fixpoint join (sep : jsstring) (parts : list jsstring) : jsstring :=
  match parts with
  | [] => []
  | p :: ps =>
      match ps with
      | [] => p
      | _ :: _ => p ++ sep ++ join sep ps
      end
  end.

(** [arr.slice(i, j)] for [0 <= i] and [0 <= j]. *)
Definition slice {A} (i j : nat) (l : list A) : list A :=
  firstn (j - i) (skipn i l).

(** ** The chunker *)

(** [CodeChunk]; its optional [embedding] field is never written by the
    program and is left out. *)
Record CodeChunk := mkChunk {
  filePath : jsstring;
  startLine : nat;
  endLine : nat;
  content : jsstring
}.

Definition maxChunkSize : nat := 1000.
Definition overlap : nat := 50.

(** The [for] loop of [splitCodeIntoChunks], from index [i] on.  Every round
    moves [i] forward by [maxChunkSize - overlap]; [fuel] bounds the number
    of rounds. *)
Fixpoint chunk_loop (fuel : nat) (path : jsstring) (lines : list jsstring)
    (i : nat) : list CodeChunk :=
  match fuel with
  | O => []
  | S fuel' =>
      if i <? length lines then
        let endLine := Nat.min (i + maxChunkSize) (length lines) in
        let chunkContent := join [LF] (slice i endLine lines) in
        mkChunk path (i + 1) endLine chunkContent
          :: chunk_loop fuel' path lines (i + (maxChunkSize - overlap))
      else []
  end.

(** [splitCodeIntoChunks]: the loop needs at most one round per line. *)
Definition splitCodeIntoChunks (path content : jsstring) : list CodeChunk :=
  let lines := split LF content in
  chunk_loop (length lines) path lines 0.

Definition lineCount (content : jsstring) : nat := length (split LF content).

Definition range (c : CodeChunk) : nat * nat := (startLine c, endLine c).

(** The chunk the loop pushes in the round that starts at index [i]. *)
Definition chunkAt (path : jsstring) (lines : list jsstring) (i : nat)
    : CodeChunk :=
  let endLine := Nat.min (i + maxChunkSize) (length lines) in
  mkChunk path (i + 1) endLine (join [LF] (slice i endLine lines)).

(** Line [n] is in the range of a chunk. *)
Definition inChunk (c : CodeChunk) (n : nat) : bool :=
  (startLine c <=? n) && (n <=? endLine c).

(** Number of line numbers two chunks have in common. *)
Definition sharedLines (c1 c2 : CodeChunk) : nat :=
  Nat.min (endLine c1) (endLine c2) + 1 - Nat.max (startLine c1) (startLine c2).

(** ** JavaScript numbers, read in exact arithmetic

    For what does not depend on rounding, the numeric code (normalisation,
    cosine) is read in exact arithmetic: a number is a real or one of the
    IEEE special values, so that [0 / 0] is [NaN] as in the program.
    Rounding to double precision, overflow, underflow and the sign of zero
    are not in this reading: zero stands for [+0].  The doubles of the
    program are [Binary64.double], further down; what depends on rounding,
    overflow or underflow is stated over them. *)

Inductive num : Type :=
| Fin (r : R)
| PosInf
| NegInf
| NaN.

Definition num_zero : num := Fin 0.
Definition num_one : num := Fin 1.

Definition Rpos (r : R) : bool := if Rlt_dec 0 r then true else false.
Definition Rneg (r : R) : bool := if Rlt_dec r 0 then true else false.

Definition num_add (x y : num) : num :=
  match x, y with
  | NaN, _ | _, NaN => NaN
  | Fin a, Fin b => Fin (a + b)
  | PosInf, NegInf | NegInf, PosInf => NaN
  | PosInf, _ | _, PosInf => PosInf
  | NegInf, _ | _, NegInf => NegInf
  end.

Definition num_neg (x : num) : num :=
  match x with
  | Fin a => Fin (- a)
  | PosInf => NegInf
  | NegInf => PosInf
  | NaN => NaN
  end.

Definition num_sub (x y : num) : num := num_add x (num_neg y).

(** An infinity with the sign of [r]; [NaN] when [r] is zero. *)
Definition signed_inf (r : R) : num :=
  if Rpos r then PosInf else if Rneg r then NegInf else NaN.

Definition num_mul (x y : num) : num :=
  match x, y with
  | NaN, _ | _, NaN => NaN
  | Fin a, Fin b => Fin (a * b)
  | PosInf, Fin b | Fin b, PosInf => signed_inf b
  | NegInf, Fin b | Fin b, NegInf => signed_inf (- b)
  | PosInf, PosInf | NegInf, NegInf => PosInf
  | PosInf, NegInf | NegInf, PosInf => NegInf
  end.

Definition num_div (x y : num) : num :=
  match x, y with
  | NaN, _ | _, NaN => NaN
  | Fin a, Fin b =>
      if Req_dec_T b 0 then signed_inf a else Fin (a / b)
  | Fin _, (PosInf | NegInf) => Fin 0
  | PosInf, Fin b => if Rneg b then NegInf else PosInf
  | NegInf, Fin b => if Rneg b then PosInf else NegInf
  | (PosInf | NegInf), (PosInf | NegInf) => NaN
  end.

(** [Math.sqrt]. *)
Definition num_sqrt (x : num) : num :=
  match x with
  | Fin a => if Rneg a then NaN else Fin (sqrt a)
  | PosInf => PosInf
  | NegInf | NaN => NaN
  end.

(** [x > y]. *)
Definition num_gt (x y : num) : bool :=
  match x, y with
  | NaN, _ | _, NaN => false
  | Fin a, Fin b => Rpos (a - b)
  | PosInf, (Fin _ | NegInf) => true
  | Fin _, NegInf => true
  | _, _ => false
  end.

(** Truthiness of a number: [0] and [NaN] are falsy. *)
Definition num_truthy (x : num) : bool :=
  match x with
  | Fin a => if Req_dec_T a 0 then false else true
  | PosInf | NegInf => true
  | NaN => false
  end.

(** ** The vectorizer *)

(** [ToInt32] on an integer. *)
Definition toInt32 (z : Z) : Z := ((z + 2 ^ 31) mod 2 ^ 32 - 2 ^ 31)%Z.

(** One round of the loop of [simpleHash]: [(hash << 5) - hash + char],
    then [hash & hash]. *)
Definition hashStep (hash : Z) (char : char16) : Z :=
  let hash := (toInt32 (Z.shiftl (toInt32 hash) 5) - hash + Z.of_N char)%Z in
  toInt32 (Z.land (toInt32 hash) (toInt32 hash)).

Definition simpleHash (s : jsstring) : Z :=
  Z.abs (fold_left hashStep s 0%Z).

(** The code units that the regular expression class [\s] and [trim]
    treat as white space. *)
Definition isWhiteSpace (c : char16) : bool :=
  ((9 <=? c) && (c <=? 13) || (c =? 32) || (c =? 160) || (c =? 5760)
   || (8192 <=? c) && (c <=? 8202) || (c =? 8232) || (c =? 8233)
   || (c =? 8239) || (c =? 8287) || (c =? 12288) || (c =? 65279))%N.

(** [s.split(/\s+/)]: [inRun] tells that the previous code unit was white
    space, so that a run of white space separates only once. *)
Fixpoint splitWs (inRun : bool) (s : jsstring) : list jsstring :=
  match s with
  | [] => [[]]
  | c :: rest =>
      if isWhiteSpace c then
        if inRun then splitWs true rest else [] :: splitWs true rest
      else match splitWs false rest with
           | [] => [[c]]
           | w :: ws => (c :: w) :: ws
           end
  end.

Definition splitWhitespace (s : jsstring) : list jsstring := splitWs false s.

(** [s.trim()]. *)
Fixpoint trimStart (s : jsstring) : jsstring :=
  match s with
  | [] => []
  | c :: rest => if isWhiteSpace c then trimStart rest else s
  end.

Definition trim (s : jsstring) : jsstring :=
  rev (trimStart (rev (trimStart s))).

Definition DIM : nat := 1536.

(** [embedding[index] += 1]; the index is always inside the array. *)
Fixpoint bump (index : nat) (embedding : list num) : list num :=
  match embedding, index with
  | [], _ => []
  | v :: rest, O => num_add v num_one :: rest
  | v :: rest, S index' => v :: bump index' rest
  end.

Definition sumSquares (embedding : list num) : num :=
  fold_left (fun sum val => num_add sum (num_mul val val)) embedding num_zero.

Section Vectorizer.

(** [String.prototype.toLowerCase], of the JavaScript runtime. *)
Variable toLowerCase : jsstring -> jsstring.

(** The accumulator of [createSimpleEmbedding] after its [forEach]. *)
Definition buckets (text : jsstring) : list num :=
  let words := splitWhitespace (toLowerCase text) in
  fold_left
    (fun embedding word =>
       let hash := simpleHash word in
       let index := Z.rem hash (Z.of_nat (length embedding)) in
       bump (Z.to_nat index) embedding)
    words (repeat num_zero DIM).

Definition createSimpleEmbedding (text : jsstring) : list num :=
  let embedding := buckets text in
  let norm := num_sqrt (sumSquares embedding) in
  map (fun val => if num_gt norm num_zero then num_div val norm else num_zero)
      embedding.

Definition createEmbedding (text : jsstring) : list num :=
  createSimpleEmbedding text.

End Vectorizer.

(** The L2 norm of a vector. *)
Definition l2norm (v : list num) : num := num_sqrt (sumSquares v).

(** Lower-casing of the letters A to Z, enough for ASCII text. *)
Definition lowerUnit (c : char16) : char16 :=
  if ((65 <=? c) && (c <=? 90))%N then (c + 32)%N else c.

Definition asciiLower (s : jsstring) : jsstring := map lowerUnit s.

(** ** Exceptions and state

    A computation reads and writes a state of type [S] and either returns
    or throws; a [catch] sees the state as the throwing code left it. *)

Inductive exn : Type :=
| JsError (message : jsstring)
| Thrown.

Inductive outcome (A : Type) : Type :=
| Ok (a : A)
| Throw (e : exn).

Arguments Ok {A} a.
Arguments Throw {A} e.

Definition M (S A : Type) : Type := S -> outcome A * S.

Definition ret {S A} (a : A) : M S A := fun s => (Ok a, s).

Definition throw {S A} (e : exn) : M S A := fun s => (Throw e, s).

Definition bind {S A B} (m : M S A) (k : A -> M S B) : M S B :=
  fun s =>
    match m s with
    | (Ok a, s') => k a s'
    | (Throw e, s') => (Throw e, s')
    end.

Definition gets {S A} (f : S -> A) : M S A := fun s => (Ok (f s), s).

Definition modify {S} (f : S -> S) : M S unit := fun s => (Ok tt, f s).

Definition lift {S A} (o : outcome A) : M S A := fun s => (o, s).

Definition tryCatch {S A} (m : M S A) (handler : exn -> M S A) : M S A :=
  fun s =>
    match m s with
    | (Ok a, s') => (Ok a, s')
    | (Throw e, s') => handler e s'
    end.

Declare Scope js_scope.
Delimit Scope js_scope with js.
Notation "x <- m ;; k" := (bind m (fun x => k))
  (at level 61, m at next level, right associativity) : js_scope.

(** ** The ranker *)

(** [cosineSimilarity]: the loop runs over the common indices, which are
    all of them once the lengths are equal. *)
Definition cosineSimilarity (a b : list num) : num :=
  if negb (length a =? length b) then num_zero
  else
    let '(dotProduct, normA, normB) :=
      fold_left
        (fun '(dotProduct, normA, normB) '(ai, bi) =>
           (num_add dotProduct (num_mul ai bi),
            num_add normA (num_mul ai ai),
            num_add normB (num_mul bi bi)))
        (combine a b) (num_zero, num_zero, num_zero) in
    num_div dotProduct (num_mul (num_sqrt normA) (num_sqrt normB)).

(** [SearchResult]; [snippet] is its field [content]. *)
Record SearchResult := mkResult {
  file : jsstring;
  line : nat;
  snippet : jsstring;
  score : option num
}.

(** The state of a [FileSystemTools] object.  [embeddings] is a [Map]: it
    keeps its keys in the order of their first insertion. *)
Record FileSystemTools := mkTools {
  codeChunks : list CodeChunk;
  embeddings : list (jsstring * list num)
}.

Definition newTools : FileSystemTools := mkTools [] [].

(** [map.set(key, value)]. *)
Fixpoint mapSet {V} (key : jsstring) (value : V) (m : list (jsstring * V))
    : list (jsstring * V) :=
  match m with
  | [] => [(key, value)]
  | (k, v) :: rest =>
      if jsstring_eqb k key then (k, value) :: rest
      else (k, v) :: mapSet key value rest
  end.

(** The decimal digits of a line number, as in a template literal. *)
Definition numberToString (n : nat) : jsstring :=
  str (NilEmpty.string_of_uint (Nat.to_uint n)).

(** The key of a chunk in [embeddings]: [`${filePath}:${startLine}`]. *)
Definition chunkKey (c : CodeChunk) : jsstring :=
  filePath c ++ [COLON] ++ numberToString (startLine c).

Definition digitValue (radix : Z) (c : char16) : option Z :=
  let d :=
    if ((48 <=? c) && (c <=? 57))%N then Some (Z.of_N c - 48)%Z
    else if ((97 <=? c) && (c <=? 122))%N then Some (Z.of_N c - 87)%Z
    else if ((65 <=? c) && (c <=? 90))%N then Some (Z.of_N c - 55)%Z
    else None in
  match d with
  | Some v => if (v <? radix)%Z then Some v else None
  | None => None
  end.

(** The longest prefix of digits of [s] in the given radix, read as a
    number after [acc]; [seen] tells that a digit was read. *)
Fixpoint parseDigits (radix : Z) (s : jsstring) (acc : Z) (seen : bool)
    : option Z :=
  match s with
  | [] => if seen then Some acc else None
  | c :: rest =>
      match digitValue radix c with
      | Some v => parseDigits radix rest (acc * radix + v)%Z true
      | None => if seen then Some acc else None
      end
  end.

Definition parseUnsigned (s : jsstring) : option Z :=
  match s with
  | 48%N :: (120%N | 88%N) :: rest => parseDigits 16 rest 0 false
  | _ => parseDigits 10 s 0 false
  end.

(** [parseInt(s)] with no radix; [None] stands for [NaN], which is also
    the result on [undefined]. *)
Definition parseInt (s : option jsstring) : option Z :=
  match s with
  | None => None
  | Some s =>
      match trimStart s with
      | 45%N :: rest => option_map Z.opp (parseUnsigned rest)
      | 43%N :: rest => parseUnsigned rest
      | rest => parseUnsigned rest
      end
  end.

(** [arr.slice(0, limit)] for an integer [limit]: a negative one counts
    from the end. *)
Definition sliceTo {A} (limit : Z) (l : list A) : list A :=
  if (limit <? 0)%Z
  then firstn (Z.to_nat (Z.max (Z.of_nat (length l) + limit) 0)) l
  else firstn (Z.to_nat limit) l.

(** [arr.sort(compare)].  The sort is stable and takes a [NaN] from the
    comparator as 0.  For a comparator that orders the elements
    consistently every stable sort gives the same array, the one of the
    insertion sort below.  For an inconsistent one (a [NaN] similarity
    among finite ones) the language leaves the order to the
    implementation, and the insertion sort gives one of the possible
    orders: nothing is stated about that case. *)
Fixpoint sortInsert {A} (compare : A -> A -> num) (x : A) (l : list A)
    : list A :=
  match l with
  | [] => [x]
  | y :: rest =>
      if num_gt (compare x y) num_zero then y :: sortInsert compare x rest
      else x :: l
  end.

Definition sortBy {A} (compare : A -> A -> num) (l : list A) : list A :=
  fold_right (sortInsert compare) [] l.

(** The first line of a chunk, trimmed: [content.split('\n')[0].trim()]. *)
Definition firstLine (text : jsstring) : jsstring :=
  trim (hd [] (split LF text)).

(** One entry of the result of [Fuse.search] with [includeScore]. *)
Record FuseResult := mkFuse {
  item : CodeChunk;
  fuseScore : num
}.

Section Ranker.

Variable toLowerCase : jsstring -> jsstring.

(** [new Fuse(chunks, {keys: ['content'], threshold: 0.6,
    includeScore: true}).search(query)], of the fuse.js library. *)
Variable fuseSearch : list CodeChunk -> jsstring -> outcome (list FuseResult).

Definition fallbackSearch (query : jsstring) (limit : Z)
    : M FileSystemTools (list SearchResult) :=
  (chunks <- gets codeChunks ;;
   results <- lift (fuseSearch chunks query) ;;
   ret (map (fun result =>
               mkResult (filePath (item result)) (startLine (item result))
                 (firstLine (content (item result)))
                 (if num_truthy (fuseScore result)
                  then Some (num_sub num_one (fuseScore result))
                  else None))
            (sliceTo limit results)))%js.

(** The body of the [for ... of this.embeddings] loop, for one entry. *)
Definition similarityOf (chunks : list CodeChunk) (queryEmbedding : list num)
    (entry : jsstring * list num) : option (CodeChunk * num) :=
  let '(key, embedding) := entry in
  let similarity := cosineSimilarity queryEmbedding embedding in
  let parts := split COLON key in
  let filePath' := hd [] parts in
  let startLine' := parseInt (nth_error parts 1) in
  let chunk :=
    find (fun c =>
            jsstring_eqb (filePath c) filePath'
            && match startLine' with
               | Some n => (Z.of_nat (startLine c) =? n)%Z
               | None => false
               end) chunks in
  option_map (fun c => (c, similarity)) chunk.

(** The vector path of [searchCodebase], after the query is embedded. *)
Definition vectorSearch (queryEmbedding : list num) (limit : Z)
    : M FileSystemTools (list SearchResult) :=
  (entries <- gets embeddings ;;
   chunks <- gets codeChunks ;;
   let similarities :=
     flat_map (fun entry =>
                 match similarityOf chunks queryEmbedding entry with
                 | Some cs => [cs]
                 | None => []
                 end) entries in
   let sorted :=
     sortBy (fun a b => num_sub (snd b) (snd a)) similarities in
   ret (map (fun '(chunk, similarity) =>
               mkResult (filePath chunk) (startLine chunk)
                 (firstLine (content chunk)) (Some similarity))
            (sliceTo limit sorted)))%js.

Definition searchCodebase (query : jsstring) (limit : Z)
    : M FileSystemTools (list SearchResult) :=
  (chunks <- gets codeChunks ;;
   if length chunks =? 0 then ret []
   else
     tryCatch
       (entries <- gets embeddings ;;
        if 0 <? length entries then
          let queryEmbedding := createEmbedding toLowerCase query in
          if length queryEmbedding =? 0 then fallbackSearch query limit
          else vectorSearch queryEmbedding limit
        else fallbackSearch query limit)
       (fun error => fallbackSearch query limit))%js.

(** The body of the loop of [indexCodebase] over one file of the glob
    result, whose read gave [read]. *)
Definition indexFile (relativePath : jsstring) (read : outcome jsstring)
    : M FileSystemTools unit :=
  tryCatch
    (text <- lift read ;;
     let chunks := splitCodeIntoChunks relativePath text in
     fold_left
       (fun acc chunk =>
          (_ <- acc ;;
           _ <- modify (fun t => mkTools (codeChunks t ++ [chunk])
                                         (embeddings t)) ;;
           let embedding := createEmbedding toLowerCase (content chunk) in
           if 0 <? length embedding
           then modify (fun t => mkTools (codeChunks t)
                                   (mapSet (chunkKey chunk) embedding
                                           (embeddings t)))
           else ret tt)%js)
       chunks (ret tt))%js
    (fun error => ret tt).

(** [indexCodebase], given what the glob found and what each read gave. *)
Definition indexCodebase (codeFiles : list (jsstring * outcome jsstring))
    : M FileSystemTools unit :=
  (_ <- modify (fun _ => mkTools [] []) ;;
   fold_left
     (fun acc f => (_ <- acc ;; indexFile (fst f) (snd f))%js)
     codeFiles (ret tt))%js.

End Ranker.

(** ** grep *)

Section Grep.

(** The regular expression engine of the runtime: [newRegExp source] is
    [new RegExp(source, 'gi')], which throws on a malformed pattern, and
    [matchFrom re s from] is the end of the leftmost match of [re] in [s]
    that starts at index [from] or later, if there is one. *)
Variable regex : Type.
Variable newRegExp : jsstring -> outcome regex.
Variable matchFrom : regex -> jsstring -> nat -> option nat.

(** [regex.test(line)] for a regexp with the [g] flag: the search starts
    at [lastIndex], which the call updates. *)
Definition test (re : regex) (line : jsstring) (lastIndex : nat)
    : bool * nat :=
  if length line <? lastIndex then (false, 0)
  else match matchFrom re line lastIndex with
       | Some e => (true, e)
       | None => (false, 0)
       end.

(** The [forEach] over the lines of one file; the state is the results
    so far and the [lastIndex] of the shared regexp. *)
Definition grepLines (re : regex) (relativePath : jsstring)
    (lines : list jsstring) (acc : list SearchResult * nat)
    : list SearchResult * nat :=
  fst (fold_left
         (fun '(results, lastIndex, index) line =>
            let '(found, lastIndex') := test re line lastIndex in
            (if found
             then results ++ [mkResult relativePath (index + 1)
                                       (trim line) None]
             else results,
             lastIndex', index + 1))
         lines (acc, 0)).

(** [grep], given what the glob found (relative paths) and what reading
    each file gave. *)
Definition grep (searchTerm : jsstring)
    (files : outcome (list (jsstring * outcome jsstring)))
    : outcome (list SearchResult) :=
  match files with
  | Throw e => Throw e
  | Ok files =>
      match newRegExp searchTerm with
      | Throw e => Throw e
      | Ok re =>
          Ok (fst (fold_left
                     (fun acc f =>
                        match snd f with
                        | Ok text => grepLines re (fst f) (split LF text) acc
                        | Throw _ => acc
                        end)
                     files ([], 0)))
      end
  end.

(** A line matches when a search from its start finds a match. *)
Definition lineMatches (re : regex) (line : jsstring) : bool :=
  match matchFrom re line 0 with Some _ => true | None => false end.

End Grep.

Arguments test {regex} matchFrom re line lastIndex.
Arguments grepLines {regex} matchFrom re relativePath lines acc.
Arguments grep {regex} newRegExp matchFrom searchTerm files.
Arguments lineMatches {regex} matchFrom re line.

(** The engine on patterns without metacharacters: such a pattern matches
    its own text, letters compared without case. *)
Fixpoint prefixNoCase (pattern s : jsstring) : bool :=
  match pattern, s with
  | [], _ => true
  | _ :: _, [] => false
  | p :: pattern', c :: s' =>
      N.eqb (lowerUnit p) (lowerUnit c) && prefixNoCase pattern' s'
  end.

Fixpoint literalFind (pattern s : jsstring) (pos from : nat) : option nat :=
  if (from <=? pos) && prefixNoCase pattern s then Some (pos + length pattern)
  else match s with
       | [] => None
       | _ :: s' => literalFind pattern s' (S pos) from
       end.

Definition literalRegExp (source : jsstring) : outcome jsstring := Ok source.

Definition literalMatchFrom (re s : jsstring) (from : nat) : option nat :=
  literalFind re s 0 from.

(** ** The dispatch loop *)

Section Agent.

(** The argument object of a tool call and the value a tool returns. *)
Variable args : Type.
Variable value : Type.

Record FunctionCall := mkCall {
  callName : jsstring;
  callArgs : args
}.

(** The [response] of a function response: [{ result }] or [{ error }]. *)
Inductive Payload : Type :=
| ResultOf (result : value)
| ErrorOf (error : jsstring).

Record FunctionResponse := mkResponse {
  responseName : jsstring;
  response : Payload
}.

Inductive Part : Type :=
| TextPart (text : jsstring)
| FunctionCallPart (functionCall : FunctionCall)
| FunctionResponsePart (functionResponse : FunctionResponse).

Record Content := mkContent {
  role : jsstring;
  parts : list Part
}.

(** The agent: its history, and the requests sent to the model so far
    (each one is the history at the time of the call). *)
Record Agent := mkAgent {
  history : list Content;
  requests : list (list Content)
}.

(** [model.generateContent]: it throws, or answers with the content of
    its first candidate, if any. *)
Variable generateContent : list Content -> outcome (option Content).

(** The methods of [FileSystemTools] behind the six tool names. *)
Variable invoke : jsstring -> args -> outcome value.

Definition toolNames : list jsstring :=
  [str "readFile"; str "listDirectory"; str "searchFile"; str "grep";
   str "searchCodebase"; str "getFileInfo"].

Definition executeToolCall (name : jsstring) (parameters : args)
    : outcome value :=
  if existsb (jsstring_eqb name) toolNames then invoke name parameters
  else Throw (JsError (str "Unknown tool: " ++ name)).

(** The callback of [functionCalls.map] in step 4. *)
Definition respond (fc : FunctionCall) : Part :=
  FunctionResponsePart
    (mkResponse (callName fc)
       match executeToolCall (callName fc) (callArgs fc) with
       | Ok result => ResultOf result
       | Throw (JsError message) => ErrorOf message
       | Throw Thrown => ErrorOf (str "An unknown error occurred.")
       end).

Definition functionCallsOf (c : Content) : list FunctionCall :=
  flat_map (fun part => match part with
                        | FunctionCallPart fc => [fc]
                        | _ => []
                        end) (parts c).

(** The text parts, joined; an empty text is falsy and filtered out. *)
Definition textOf (c : Content) : jsstring :=
  concat (flat_map (fun part => match part with
                                | TextPart ((_ :: _) as t) => [t]
                                | _ => []
                                end) (parts c)).

Definition orElse (text fallback : jsstring) : jsstring :=
  match text with [] => fallback | _ :: _ => text end.

Definition push (c : Content) : M Agent unit :=
  modify (fun a => mkAgent (history a ++ [c]) (requests a)).

(** A call of the model with the current history. *)
Definition query : M Agent (option Content) :=
  fun a =>
    (generateContent (history a),
     mkAgent (history a) (requests a ++ [history a])).

Definition generateResponseWithTools : M Agent jsstring :=
  tryCatch
    (reply <- query ;;
     match reply with
     | None => ret (str "I am sorry, but I could not process your request.")
     | Some modelResponseContent =>
         _ <- push modelResponseContent ;;
         let functionCalls := functionCallsOf modelResponseContent in
         if length functionCalls =? 0 then
           ret (orElse (textOf modelResponseContent)
                  (str "I don't have a specific response for that."))
         else
           let functionResponseParts := map respond functionCalls in
           _ <- push (mkContent (str "user") functionResponseParts) ;;
           final <- query ;;
           match final with
           | Some finalContent =>
               _ <- push finalContent ;;
               ret (orElse (textOf finalContent)
                      (str "No final text response."))
           | None => ret (str "I was unable to generate a final response.")
           end
     end)%js
    (fun error =>
       ret (str "I encountered an error: "
            ++ match error with
               | JsError message => message
               | Thrown => str "Unknown error"
               end)).

End Agent.

Arguments mkCall {args} callName callArgs.
Arguments ResultOf {value} result.
Arguments ErrorOf {value} error.
Arguments mkResponse {value} responseName response.
Arguments TextPart {args value} text.
Arguments FunctionCallPart {args value} functionCall.
Arguments FunctionResponsePart {args value} functionResponse.
Arguments mkContent {args value} role parts.
Arguments mkAgent {args value} history requests.
Arguments callName {args} f.
Arguments callArgs {args} f.
Arguments responseName {value} f.
Arguments response {value} f.
Arguments role {args value} c.
Arguments parts {args value} c.
Arguments history {args value} a.
Arguments requests {args value} a.
Arguments functionCallsOf {args value} c.
Arguments textOf {args value} c.
Arguments respond {args value} invoke fc.
Arguments executeToolCall {args value} invoke name parameters.
Arguments generateResponseWithTools {args value} generateContent invoke.

(** Examples for the dispatch loop: the argument objects are not looked
    at, and every tool returns an empty list. *)
Definition systemTurn : Content unit (list jsstring) :=
  mkContent (str "user") [TextPart (str "ROLE: Semantic Code Assistant")].

Definition textReply : Content unit (list jsstring) :=
  mkContent (str "model") [TextPart (str "hi")].

Definition callsReply : Content unit (list jsstring) :=
  mkContent (str "model")
    [FunctionCallPart (mkCall (str "grep") tt);
     FunctionCallPart (mkCall (str "frobnicate") tt)].

Definition emptyTool (name : jsstring) (parameters : unit)
    : outcome (list jsstring) := Ok [].

(** A model that answers with plain text. *)
Definition textModel (contents : list (Content unit (list jsstring)))
    : outcome (option (Content unit (list jsstring))) :=
  Ok (Some textReply).

(** A model that first asks for two tools, then answers with text. *)
Definition callingModel (contents : list (Content unit (list jsstring)))
    : outcome (option (Content unit (list jsstring))) :=
  if length contents =? 1 then Ok (Some callsReply) else Ok (Some textReply).

Definition freshAgent : Agent unit (list jsstring) := mkAgent [systemTurn] [].

(** ** Auxiliary notions used in the statements and proofs *)

(** Sum of the squares of a list of reals. *)
Definition sumSq (cs : list R) : R :=
  fold_right (fun c acc => (c * c + acc)%R) 0%R cs.

(** Dot product of two lists of reals, over their common prefix. *)
Fixpoint dotR (xs ys : list R) : R :=
  match xs, ys with
  | x :: xs', y :: ys' => (x * y + dotR xs' ys')%R
  | _, _ => 0%R
  end.

(** The accumulator of [createSimpleEmbedding] holds counts; [bumpR] and
    [bucketsR] are [bump] and [buckets] on the underlying reals. *)
Fixpoint bumpR (index : nat) (cs : list R) : list R :=
  match cs, index with
  | [], _ => []
  | c :: rest, O => (c + 1)%R :: rest
  | c :: rest, S index' => c :: bumpR index' rest
  end.

Definition bucketsR (toLowerCase : jsstring -> jsstring) (text : jsstring)
    : list R :=
  fold_left
    (fun cs word =>
       bumpR (Z.to_nat (Z.rem (simpleHash word) (Z.of_nat (length cs)))) cs)
    (splitWhitespace (toLowerCase text)) (repeat 0%R DIM).

(** The normalised accumulator, on the reals. *)
Definition embeddingR (toLowerCase : jsstring -> jsstring) (text : jsstring)
    : list R :=
  let cs := bucketsR toLowerCase text in
  map (fun c => c / sqrt (sumSq cs))%R cs.

(** A vector has a bucket that counts at least one word. *)
Definition hasOne (cs : list R) : Prop := exists c, In c cs /\ (1 <= c)%R.

Definition nonNegative (cs : list R) : Prop := Forall (fun c => 0 <= c)%R cs.

(** A fuzzy matcher for which every chunk matches every query, with
    score 1/2: a stand-in for fuse.js in the examples. *)
Definition fuseHalf (chunks : list CodeChunk) (query : jsstring)
    : outcome (list FuseResult) :=
  Ok (map (fun c => mkFuse c (Fin (1 / 2))) chunks).

Definition helloChunk : CodeChunk :=
  mkChunk (str "a.ts") 1 1 (str "hello").

(** An index of one chunk whose stored vector is the zero vector. *)
Definition zeroIndex : FileSystemTools :=
  mkTools [helloChunk] [(chunkKey helloChunk, repeat num_zero DIM)].

(** The vector with [1] in bucket 0 and [0] elsewhere. *)
Definition unitVector0 : list num := num_one :: repeat num_zero (DIM - 1).

Definition zeroVector : list num := repeat num_zero DIM.

(** ** Further notions for the properties of the code *)

(** The polynomial hash [c0 * 31^(n-1) + ... + c(n-1)], continued from
    [acc], over the integers. *)
Fixpoint polyHash (acc : Z) (s : jsstring) : Z :=
  match s with
  | [] => acc
  | c :: rest => polyHash (31 * acc + Z.of_N c) rest
  end.

(** No line holds the separator. *)
Definition sepFree (sep : char16) (parts : list jsstring) : Prop :=
  Forall (fun p => ~ In sep p) parts.

(** The chunks of the files that could be read, in the order of the
    files. *)
Definition readableChunks (codeFiles : list (jsstring * outcome jsstring))
    : list CodeChunk :=
  flat_map (fun f => match snd f with
                     | Ok text => splitCodeIntoChunks (fst f) text
                     | Throw _ => []
                     end) codeFiles.

(** The effect on the index of one round of the inner loop of
    [indexCodebase]: the chunk is appended and its embedding stored under
    its key. *)
Definition addChunk (toLowerCase : jsstring -> jsstring)
    (t : FileSystemTools) (chunk : CodeChunk) : FileSystemTools :=
  mkTools (codeChunks t ++ [chunk])
          (mapSet (chunkKey chunk)
                  (createEmbedding toLowerCase (content chunk))
                  (embeddings t)).

(** The index invariant: every chunk has a vector stored under its key,
    every stored entry is the embedding of a chunk under that chunk's key,
    and no key is stored twice. *)
Definition indexConsistent (toLowerCase : jsstring -> jsstring)
    (t : FileSystemTools) : Prop :=
  (forall c, In c (codeChunks t) ->
     exists v, In (chunkKey c, v) (embeddings t))
  /\ (forall key v, In (key, v) (embeddings t) ->
        exists c, In c (codeChunks t) /\ key = chunkKey c
                  /\ v = createEmbedding toLowerCase (content c))
  /\ NoDup (map fst (embeddings t)).

(** [a] ranks at least as high as [b]: both similarities are finite and
    that of [b] is not larger. *)
Definition simGe (a b : CodeChunk * num) : Prop :=
  exists x y, snd a = Fin x /\ snd b = Fin y /\ (y <= x)%R.

Definition scoreGe (r1 r2 : SearchResult) : Prop :=
  exists x y, score r1 = Some (Fin x) /\ score r2 = Some (Fin y)
              /\ (y <= x)%R.

(** The result reports a chunk: its file, its start line and its first
    line, trimmed. *)
Definition reports (r : SearchResult) (c : CodeChunk) : Prop :=
  file r = filePath c /\ line r = startLine c
  /\ snippet r = firstLine (content c).

(** The index after [helloChunk] was added to the empty one. *)
Definition helloIndex : FileSystemTools :=
  addChunk asciiLower (mkTools [] []) helloChunk.

(** The lines that [grep] scans: those of the readable files, in the order
    of the files, each with the path of its file and its 1-based number. *)
Definition numberLines (path : jsstring) (first : nat) (lines : list jsstring)
    : list (jsstring * nat * jsstring) :=
  map (fun '(i, l) => (path, i + 1, l))
      (combine (seq first (length lines)) lines).

Definition scannedLines (files : list (jsstring * outcome jsstring))
    : list (jsstring * nat * jsstring) :=
  flat_map (fun f => match snd f with
                     | Ok text => numberLines (fst f) 0 (split LF text)
                     | Throw _ => []
                     end) files.

(** The result [grep] pushes for a line. *)
Definition lineResult (item : jsstring * nat * jsstring) : SearchResult :=
  let '(path, number, l) := item in mkResult path number (trim l) None.

Definition isReadable (f : jsstring * outcome jsstring) : bool :=
  match snd f with Ok _ => true | Throw _ => false end.

Section GrepNotions.

Variable regex : Type.
Variable matchFrom : regex -> jsstring -> nat -> option nat.

(** One call of the callback of [lines.forEach], on the results so far and
    the [lastIndex] of the regexp. *)
Definition scanLine (re : regex) (acc : list SearchResult * nat)
    (item : jsstring * nat * jsstring) : list SearchResult * nat :=
  let '(found, lastIndex') := test matchFrom re (snd item) (snd acc) in
  (if found then fst acc ++ [lineResult item] else fst acc, lastIndex').

(** No line that matches comes right after a line that matches;
    [previous] tells whether the line before the first one matched. *)
Fixpoint isolatedMatches (re : regex) (previous : bool)
    (lines : list jsstring) : Prop :=
  match lines with
  | [] => True
  | l :: rest =>
      (lineMatches matchFrom re l = true -> previous = false)
      /\ isolatedMatches re (lineMatches matchFrom re l) rest
  end.

End GrepNotions.

Arguments scanLine {regex} matchFrom re acc item.
Arguments isolatedMatches {regex} matchFrom re previous lines.

(** A model service that is down, and one that goes down after it asked
    for tools. *)
Definition failingModel (contents : list (Content unit (list jsstring)))
    : outcome (option (Content unit (list jsstring))) :=
  Throw (JsError (str "quota")).

Definition failingLaterModel (contents : list (Content unit (list jsstring)))
    : outcome (option (Content unit (list jsstring))) :=
  if length contents =? 1 then Ok (Some callsReply)
  else Throw (JsError (str "quota")).

(** ** The context expander *)

Definition AT : char16 := 64%N.

(** The class of the regular expression of [resolveContextFiles]: every
    character but white space, the double quote, the single quote and the
    backtick. *)
Definition isMentionChar (c : char16) : bool :=
  negb (isWhiteSpace c || (c =? 34) || (c =? 39) || (c =? 96))%N.

(** The scan of [input.matchAll] for an [@] followed by one or more
    characters of the class: looking for an [@], just after one, or inside
    the run that follows one. *)
Inductive scanState : Type :=
| Searching
| AfterAt
| InMention (capture : jsstring).

(** The captures of the matches, in the order of the input.  A match
    starts at the first [@] that is followed by a character of the class
    and takes the longest run of such characters ([@] is one of them); the
    search resumes behind the match. *)
Fixpoint scanMentions (state : scanState) (s : jsstring) : list jsstring :=
  match s with
  | [] =>
      match state with
      | InMention capture => [capture]
      | _ => []
      end
  | c :: rest =>
      match state with
      | Searching =>
          scanMentions (if (c =? AT)%N then AfterAt else Searching) rest
      | AfterAt =>
          if isMentionChar c then scanMentions (InMention [c]) rest
          else scanMentions Searching rest
      | InMention capture =>
          if isMentionChar c
          then scanMentions (InMention (capture ++ [c])) rest
          else capture :: scanMentions Searching rest
      end
  end.

(** The block appended for a file that could be read: a line break, two
    more, the fence with the path, the content, the closing fence. *)
Definition contextBlock (path text : jsstring) : jsstring :=
  [LF] ++ [LF; LF] ++ str "```" ++ path ++ [LF] ++ text ++ [LF]
  ++ str "```" ++ [LF].

(** [resolveContextFiles], given what [tools.readFile] returns. *)
Definition resolveContextFiles (readFile : jsstring -> outcome jsstring)
    (input : jsstring) : jsstring :=
  let matches := scanMentions Searching input in
  if length matches =? 0 then input
  else
    fold_left
      (fun expandedInput path =>
         match readFile path with
         | Ok text => expandedInput ++ contextBlock path text
         | Throw _ => expandedInput
         end)
      matches input.

(** A mention is well formed: not empty, and made of characters of the
    class. *)
Definition wellFormedMention (m : jsstring) : Prop :=
  m <> [] /\ forallb isMentionChar m = true.

(** ** The agent: chat, index and history *)

Section AgentSession.

Variables args value : Type.

(** A [CodeSearchAgent] with the tools it holds: the conversation, the
    flag [isIndexed] and the state of the tools. *)
Record Session := mkSession {
  agent : Agent args value;
  isIndexed : bool;
  toolsState : FileSystemTools
}.

Variable toLowerCase : jsstring -> jsstring.
Variable fuseSearch : list CodeChunk -> jsstring -> outcome (list FuseResult).

(** The file system: what [tools.readFile] gives for a path, and what the
    glob of [indexCodebase] over the root finds, with the result of
    reading each file. *)
Variable readFile : jsstring -> outcome jsstring.
Variable codeFiles : outcome (list (jsstring * outcome jsstring)).

Variable generateContent :
  list (Content args value) -> outcome (option (Content args value)).

(** The tools behind the tool names; they read the state of the tools. *)
Variable invoke : FileSystemTools -> jsstring -> args -> outcome value.

(** [FileSystemTools.indexCodebase] with its glob: a failure of the glob
    is logged and thrown again, before the index is touched. *)
Definition toolsIndexCodebase : M FileSystemTools unit :=
  tryCatch
    (files <- lift codeFiles ;; indexCodebase toLowerCase files)%js
    (fun error => throw error).

Definition onTools {A} (m : M FileSystemTools A) : M Session A :=
  fun s =>
    let '(r, t) := m (toolsState s) in
    (r, mkSession (agent s) (isIndexed s) t).

Definition onAgent {A} (m : M (Agent args value) A) : M Session A :=
  fun s =>
    let '(r, a) := m (agent s) in
    (r, mkSession a (isIndexed s) (toolsState s)).

Definition setIndexed : M Session unit :=
  modify (fun s => mkSession (agent s) true (toolsState s)).

(** [CodeSearchAgent.chat]. *)
Definition chat (userInput : jsstring) : M Session jsstring :=
  (let contextEnhancedInput := resolveContextFiles readFile userInput in
   _ <- onAgent (push args value
                   (mkContent (str "user") [TextPart contextEnhancedInput])) ;;
   indexed <- gets isIndexed ;;
   _ <- (if negb indexed
         then tryCatch (_ <- onTools toolsIndexCodebase ;; setIndexed)
                       (fun error => ret tt)
         else ret tt) ;;
   fun s =>
     onAgent (generateResponseWithTools generateContent
                (invoke (toolsState s))) s)%js.

(** [CodeSearchAgent.indexCodebase]. *)
Definition agentIndexCodebase : M Session unit :=
  (_ <- onTools toolsIndexCodebase ;; setIndexed)%js.

(** [CodeSearchAgent.searchCode]. *)
Definition searchCode (query : jsstring) (limit : Z)
    : M Session (list SearchResult) :=
  (indexed <- gets isIndexed ;;
   _ <- (if negb indexed then agentIndexCodebase else ret tt) ;;
   onTools (searchCodebase toLowerCase fuseSearch query limit))%js.

(** [CodeSearchAgent.clearHistory]: [history.slice(0, 1)]. *)
Definition clearHistory : M Session unit :=
  onAgent (modify (fun a => mkAgent (firstn 1 (history a)) (requests a))).

End AgentSession.

Arguments mkSession {args value} agent isIndexed toolsState.
Arguments agent {args value} s.
Arguments isIndexed {args value} s.
Arguments toolsState {args value} s.
Arguments chat {args value} toLowerCase readFile codeFiles generateContent
  invoke userInput.
Arguments searchCode {args value} toLowerCase fuseSearch codeFiles query limit.
Arguments agentIndexCodebase {args value} toLowerCase codeFiles.
Arguments clearHistory {args value}.

(** A file system with the one file [a.ts]. *)
Definition oneFile (path : jsstring) : outcome jsstring :=
  if jsstring_eqb path (str "a.ts") then Ok (str "hello")
  else Throw (JsError (str "ENOENT")).

Definition oneFileGlob : outcome (list (jsstring * outcome jsstring)) :=
  Ok [(str "a.ts", Ok (str "hello"))].

Definition freshSession : Session unit (list jsstring) :=
  mkSession freshAgent false newTools.

Definition toolOf (t : FileSystemTools) (name : jsstring) (parameters : unit)
    : outcome (list jsstring) :=
  Ok (map filePath (codeChunks t)).

(** ** JavaScript numbers in double precision

    The numbers of the program are IEEE 754 binary64 values.  [double] is
    their specification in the Standard Library (the one of the primitive
    floats): signed zeros, infinities, one [NaN], and finite values
    [m * 2^e]; every operation rounds to nearest, ties to even.  The
    numeric functions of [FileSystemTools] are given again over [double],
    under the names of the source, for what depends on rounding, overflow
    and underflow. *)

Module Binary64.

Definition double : Type := spec_float.

Definition prec : Z := 53.
Definition emax : Z := 1024.

Definition zero : double := S754_zero false.

(** [1 = 2^52 * 2^-52]. *)
Definition one : double := S754_finite false 4503599627370496 (-52).

Definition add : double -> double -> double := SFadd prec emax.
Definition mul : double -> double -> double := SFmul prec emax.
Definition div : double -> double -> double := SFdiv prec emax.

(** [Math.sqrt]. *)
Definition sqrt : double -> double := SFsqrt prec emax.

(** [x > y]. *)
Definition gt (x y : double) : bool := SFltb y x.

(** [embedding[index] += 1]. *)
Fixpoint bump (index : nat) (embedding : list double) : list double :=
  match embedding, index with
  | [], _ => []
  | v :: rest, O => add v one :: rest
  | v :: rest, S index' => v :: bump index' rest
  end.

(** [embedding.reduce((sum, val) => sum + val * val, 0)]. *)
Definition sumSquares (embedding : list double) : double :=
  fold_left (fun sum val => add sum (mul val val)) embedding zero.

Section Vectorizer.

Variable toLowerCase : jsstring -> jsstring.

Definition buckets (text : jsstring) : list double :=
  let words := splitWhitespace (toLowerCase text) in
  fold_left
    (fun embedding word =>
       let hash := simpleHash word in
       let index := Z.rem hash (Z.of_nat (length embedding)) in
       bump (Z.to_nat index) embedding)
    words (repeat zero DIM).

Definition createSimpleEmbedding (text : jsstring) : list double :=
  let embedding := buckets text in
  let norm := sqrt (sumSquares embedding) in
  map (fun val => if gt norm zero then div val norm else zero) embedding.

End Vectorizer.

Definition cosineSimilarity (a b : list double) : double :=
  if negb (length a =? length b) then zero
  else
    let '(dotProduct, normA, normB) :=
      fold_left
        (fun '(dotProduct, normA, normB) '(ai, bi) =>
           (add dotProduct (mul ai bi),
            add normA (mul ai ai),
            add normB (mul bi bi)))
        (combine a b) (zero, zero, zero) in
    div dotProduct (mul (sqrt normA) (sqrt normB)).

End Binary64.

(** A zero of either sign. *)
Definition isZero (x : Binary64.double) : Prop :=
  match x with S754_zero _ => True | _ => False end.

Definition zeroOrNaN (x : Binary64.double) : Prop :=
  match x with S754_zero _ | S754_nan => True | _ => False end.

(** [NaN], [Infinity] or [-Infinity]. *)
Definition notFinite (x : Binary64.double) : Prop :=
  match x with S754_nan | S754_infinity _ => True | _ => False end.

(** The sign bit is clear, or the value is [NaN]. *)
Definition signClear (x : Binary64.double) : Prop :=
  match x with
  | S754_zero s | S754_infinity s | S754_finite s _ _ => s = false
  | S754_nan => True
  end.

(** The dot product of the loop of [cosineSimilarity], continued from
    [acc]. *)
Definition dot64 (a b : list Binary64.double) (acc : Binary64.double)
    : Binary64.double :=
  fold_left (fun d '(x, y) => Binary64.add d (Binary64.mul x y))
            (combine a b) acc.

(** [1 + 2^-52], the double after 1: [1.0000000000000002]. *)
Definition afterOne : Binary64.double :=
  S754_finite false 4503599627370497 (-52).

(** [2^600], whose square overflows. *)
Definition huge : Binary64.double :=
  S754_finite false 4503599627370496 548.

(** The texts of the text parts of a content, in order. *)
Definition textParts {args value} (c : Content args value)
    : list jsstring :=
  flat_map (fun part => match part with
                        | TextPart t => [t]
                        | _ => []
                        end) (parts c).

(** The score of the result is a finite number. *)
Definition finiteScore (r : SearchResult) : Prop :=
  exists x, score r = Some (Fin x).

(** Two files of one line each, as the glob and the reads give them. *)
Definition twoFiles : list (jsstring * outcome jsstring) :=
  [(str "a.ts", Ok (str "hello")); (str "b.ts", Ok (str "world"))].

(** No entry of the vector is different from 0. *)
Definition allZero (v : list num) : Prop := Forall (fun x => x = num_zero) v.

(* ================================================================= *)
(** * Part II: properties *)
(* ================================================================= *)

(** ** Strings *)

Lemma split_nonempty sep s : split sep s <> [].
Proof.
  destruct s as [|c rest]; cbn; [discriminate|].
  destruct (N.eqb c sep); [discriminate|].
  destruct (split sep rest); discriminate.
Qed.

Lemma lineCount_pos content : 1 <= lineCount content.
Proof.
  unfold lineCount. pose proof (split_nonempty LF content) as H.
  destruct (split LF content); [congruence | cbn; lia].
Qed.

Lemma join_cons2 sep p q ps :
  join sep (p :: q :: ps) = p ++ sep ++ join sep (q :: ps).
Proof. reflexivity. Qed.

Lemma join_split sep s : join [sep] (split sep s) = s.
Proof.
  induction s as [|c rest IH]; [reflexivity|].
  cbn [split]. pose proof (split_nonempty sep rest) as Hn.
  destruct (split sep rest) as [|w ws] eqn:E; [congruence|].
  destruct (N.eqb_spec c sep) as [->|Hne].
  - rewrite join_cons2, IH. reflexivity.
  - destruct ws as [|w' ws].
    + cbn [join] in *. now rewrite IH.
    + rewrite join_cons2 in *. rewrite <- IH. reflexivity.
Qed.

Lemma slice_all {A} (l : list A) : slice 0 (length l) l = l.
Proof.
  unfold slice. rewrite Nat.sub_0_r. cbn [skipn]. apply firstn_all.
Qed.

(** ** The chunker *)

Lemma step_eq : maxChunkSize - overlap = 950.
Proof. reflexivity. Qed.

Lemma chunk_loop_unfold fuel path lines i :
  chunk_loop (S fuel) path lines i =
  if i <? length lines then
    mkChunk path (i + 1) (Nat.min (i + maxChunkSize) (length lines))
      (join [LF] (slice i (Nat.min (i + maxChunkSize) (length lines)) lines))
      :: chunk_loop fuel path lines (i + (maxChunkSize - overlap))
  else [].
Proof. reflexivity. Qed.

(** The fuel given by [splitCodeIntoChunks] is never exhausted: more fuel
    does not change the result. *)
Lemma chunk_loop_fuel path lines : forall fuel fuel' i,
  length lines - i <= fuel -> length lines - i <= fuel' ->
  chunk_loop fuel path lines i = chunk_loop fuel' path lines i.
Proof.
  induction fuel as [|fuel IH]; intros fuel' i H H'.
  - destruct fuel' as [|fuel']; [reflexivity|].
    rewrite chunk_loop_unfold.
    destruct (Nat.ltb_spec i (length lines)); [lia | reflexivity].
  - destruct fuel' as [|fuel'].
    + rewrite chunk_loop_unfold.
      destruct (Nat.ltb_spec i (length lines)); [lia | reflexivity].
    + rewrite !chunk_loop_unfold.
      destruct (Nat.ltb_spec i (length lines)); [|reflexivity].
      f_equal. rewrite step_eq. apply IH; lia.
Qed.

Lemma chunk_loop_nth path lines : forall fuel i k,
  length lines - i <= fuel ->
  nth_error (chunk_loop fuel path lines i) k =
  if i + 950 * k <? length lines
  then Some (chunkAt path lines (i + 950 * k)) else None.
Proof.
  induction fuel as [|fuel IH]; intros i k Hf.
  - destruct (Nat.ltb_spec (i + 950 * k) (length lines)); [lia|].
    now destruct k.
  - rewrite chunk_loop_unfold, step_eq.
    destruct (Nat.ltb_spec i (length lines)) as [Hi|Hi].
    + destruct k as [|k].
      * rewrite Nat.mul_0_r, Nat.add_0_r.
        destruct (Nat.ltb_spec i (length lines)); [reflexivity | lia].
      * cbn [nth_error]. rewrite IH by lia.
        replace (i + 950 + 950 * k) with (i + 950 * S k) by lia.
        reflexivity.
    + destruct (Nat.ltb_spec (i + 950 * k) (length lines)); [lia|].
      now destruct k.
Qed.

Lemma split_nth path content k :
  nth_error (splitCodeIntoChunks path content) k =
  if 950 * k <? lineCount content
  then Some (chunkAt path (split LF content) (950 * k)) else None.
Proof.
  unfold splitCodeIntoChunks, lineCount.
  rewrite chunk_loop_nth by lia. reflexivity.
Qed.

Lemma list_of_three {A} (l : list A) a b c :
  nth_error l 0 = Some a -> nth_error l 1 = Some b ->
  nth_error l 2 = Some c -> nth_error l 3 = None -> l = [a; b; c].
Proof.
  destruct l as [|x [|y [|z [|w l]]]]; cbn; congruence.
Qed.

Lemma list_of_one {A} (l : list A) a :
  nth_error l 0 = Some a -> nth_error l 1 = None -> l = [a].
Proof.
  destruct l as [|x [|y l]]; cbn; congruence.
Qed.

(** C1, as amended.  A text of at most 950 lines (the step of the loop)
    yields exactly one chunk, which spans lines 1 to the last and holds the
    whole text; the empty text has one (empty) line and yields that one
    chunk too, for lines 1 to 1. *)
Theorem split_short_text_one_chunk path text :
  lineCount text <= 950 ->
  splitCodeIntoChunks path text = [mkChunk path 1 (lineCount text) text]
  /\ splitCodeIntoChunks path [] = [mkChunk path 1 1 []].
Proof.
  intros Hshort. split; [|reflexivity].
  pose proof (lineCount_pos text) as Hpos.
  apply list_of_one; rewrite split_nth.
  - destruct (Nat.ltb_spec (950 * 0) (lineCount text)); [|lia].
    rewrite Nat.mul_0_r. unfold chunkAt. fold (lineCount text).
    replace (Nat.min (0 + maxChunkSize) (lineCount text))
      with (lineCount text) by (unfold maxChunkSize; lia).
    unfold lineCount at 2. rewrite slice_all, join_split. reflexivity.
  - destruct (Nat.ltb_spec (950 * 1) (lineCount text)); [lia | reflexivity].
Qed.

Lemma split_short_text_one_chunk_witness :
  splitCodeIntoChunks (str "a.ts") (str "x") =
    [mkChunk (str "a.ts") 1 (lineCount (str "x")) (str "x")]
  /\ splitCodeIntoChunks (str "a.ts") [] = [mkChunk (str "a.ts") 1 1 []].
Proof.
  apply (@split_short_text_one_chunk (str "a.ts") (str "x")).
  vm_compute. lia.
Defined.

(** C1 as stated fails twice: the empty text yields one chunk, not zero;
    and a text of 951 lines, less than one window, yields two chunks. *)
Lemma split_one_window_counterexample :
  splitCodeIntoChunks (str "a.ts") [] = [mkChunk (str "a.ts") 1 1 []]
  /\ lineCount (repeat LF 950) = 951
  /\ map range (splitCodeIntoChunks (str "a.ts") (repeat LF 950))
     = [(1, 951); (951, 951)].
Proof. repeat split; vm_compute; reflexivity. Qed.

Lemma count_interval a b : forall m,
  length (filter (fun n => (a <=? n) && (n <=? b)) (seq 0 m))
  = Nat.min (b + 1) m - a.
Proof.
  induction m as [|m IH]; [cbn; lia|].
  rewrite seq_S, filter_app, length_app, IH. cbn [Nat.add filter].
  destruct (Nat.leb_spec a m), (Nat.leb_spec m b); cbn [andb length]; lia.
Qed.

(** [sharedLines] counts the line numbers that lie in both chunks. *)
Lemma sharedLines_counts c1 c2 :
  sharedLines c1 c2
  = length (filter (fun n => inChunk c1 n && inChunk c2 n)
                   (seq 0 (S (Nat.max (endLine c1) (endLine c2))))).
Proof.
  rewrite (filter_ext _
             (fun n => (Nat.max (startLine c1) (startLine c2) <=? n)
                       && (n <=? Nat.min (endLine c1) (endLine c2)))).
  - rewrite count_interval. unfold sharedLines. lia.
  - intros n. unfold inChunk.
    destruct (Nat.leb_spec (startLine c1) n), (Nat.leb_spec (startLine c2) n),
      (Nat.leb_spec n (endLine c1)), (Nat.leb_spec n (endLine c2)),
      (Nat.leb_spec (Nat.max (startLine c1) (startLine c2)) n),
      (Nat.leb_spec n (Nat.min (endLine c1) (endLine c2)));
      cbn [andb]; try reflexivity; lia.
Qed.

Lemma split_In path content c :
  In c (splitCodeIntoChunks path content) ->
  exists k, 950 * k < lineCount content
            /\ c = chunkAt path (split LF content) (950 * k).
Proof.
  intros Hin. apply In_nth_error in Hin as [k Hk].
  rewrite split_nth in Hk. exists k.
  destruct (Nat.ltb_spec (950 * k) (lineCount content)); [|discriminate].
  split; [assumption | congruence].
Qed.

Lemma chunkAt_range path lines i :
  range (chunkAt path lines i)
  = (i + 1, Nat.min (i + 1000) (length lines)).
Proof. reflexivity. Qed.

Lemma split_range_nth path text k :
  nth_error (map range (splitCodeIntoChunks path text)) k =
  if 950 * k <? lineCount text
  then Some (950 * k + 1, Nat.min (950 * k + 1000) (lineCount text))
  else None.
Proof.
  rewrite nth_error_map, split_nth.
  destruct (950 * k <? lineCount text); reflexivity.
Qed.

(** C7.  The chunks of a text of [L] lines stay inside [1, L] and every line
    of [1, L] lies in one of them; two consecutive chunks share exactly 50
    lines when the second is not the final chunk, and between 1 and 50 lines
    when it is; a text of 2000 lines yields the three chunks 1-1000,
    951-1950 and 1901-2000. *)
Theorem split_coverage_and_overlap path text :
  let cs := splitCodeIntoChunks path text in
  let L := lineCount text in
  1 <= L
  /\ (forall c, In c cs -> 1 <= startLine c <= endLine c /\ endLine c <= L)
  /\ (forall n, 1 <= n <= L ->
        exists c, In c cs /\ startLine c <= n <= endLine c)
  /\ (forall k c1 c2,
        nth_error cs k = Some c1 -> nth_error cs (S k) = Some c2 ->
        1 <= sharedLines c1 c2 <= 50
        /\ (S (S k) < length cs -> sharedLines c1 c2 = 50))
  /\ (L = 2000 -> map range cs = [(1, 1000); (951, 1950); (1901, 2000)]).
Proof.
  intros cs L. subst cs L.
  split; [apply lineCount_pos|].
  split; [|split; [|split]].
  - intros c Hin. apply split_In in Hin as [k [Hk ->]].
    unfold chunkAt, lineCount in *. cbn [startLine endLine].
    unfold maxChunkSize. lia.
  - intros n Hn.
    exists (chunkAt path (split LF text) (950 * ((n - 1) / 950))).
    pose proof (Nat.div_mod_eq (n - 1) 950) as Hdm.
    pose proof (Nat.mod_upper_bound (n - 1) 950 ltac:(lia)) as Hm.
    split.
    + apply nth_error_In with (n := (n - 1) / 950). rewrite split_nth.
      destruct (Nat.ltb_spec (950 * ((n - 1) / 950)) (lineCount text));
        [reflexivity | lia].
    + unfold chunkAt, lineCount in *. cbn [startLine endLine].
      unfold maxChunkSize. lia.
  - intros k c1 c2 H1 H2. rewrite split_nth in H1, H2.
    destruct (Nat.ltb_spec (950 * k) (lineCount text)); [|discriminate].
    destruct (Nat.ltb_spec (950 * S k) (lineCount text)); [|discriminate].
    injection H1 as <-. injection H2 as <-.
    unfold sharedLines, chunkAt, lineCount in *. cbn [startLine endLine].
    unfold maxChunkSize. split; [lia|].
    intros Hlen. apply nth_error_Some in Hlen. rewrite split_nth in Hlen.
    destruct (Nat.ltb_spec (950 * S (S k)) (lineCount text));
      [|congruence].
    unfold lineCount in *. lia.
  - intros HL.
    apply (list_of_three (map range (splitCodeIntoChunks path text)));
      rewrite split_range_nth, HL; reflexivity.
Qed.

Lemma split_coverage_and_overlap_witness :
  map range (splitCodeIntoChunks (str "a.ts") (repeat LF 1999))
  = [(1, 1000); (951, 1950); (1901, 2000)].
Proof.
  pose proof (split_coverage_and_overlap (str "a.ts") (repeat LF 1999)) as H.
  cbv zeta in H. destruct H as (_ & _ & _ & _ & H).
  apply H. vm_compute. reflexivity.
Defined.

(** ** Numbers *)

Lemma Rpos_true r : (0 < r)%R -> Rpos r = true.
Proof. intros H. unfold Rpos. destruct (Rlt_dec 0 r); [reflexivity | lra]. Qed.

Lemma Rneg_false r : (0 <= r)%R -> Rneg r = false.
Proof. intros H. unfold Rneg. destruct (Rlt_dec r 0); [lra | reflexivity]. Qed.

Lemma sumSq_cons c cs : sumSq (c :: cs) = (c * c + sumSq cs)%R.
Proof. reflexivity. Qed.

Lemma sumSq_nonneg cs : (0 <= sumSq cs)%R.
Proof.
  induction cs as [|c cs IH]; [cbn; lra|]. rewrite sumSq_cons.
  pose proof (Rle_0_sqr c) as Hc. unfold Rsqr in Hc. lra.
Qed.

Lemma sumSq_ge cs c : In c cs -> (c * c <= sumSq cs)%R.
Proof.
  induction cs as [|d cs IH]; [cbn; tauto|]. rewrite sumSq_cons. cbn [In].
  pose proof (sumSq_nonneg cs) as Hs.
  pose proof (Rle_0_sqr d) as Hd. unfold Rsqr in Hd.
  intros [->|Hin]; [lra | specialize (IH Hin); lra].
Qed.

Lemma sumSquares_acc cs : forall a,
  fold_left (fun sum val => num_add sum (num_mul val val))
            (map Fin cs) (Fin a)
  = Fin (a + sumSq cs).
Proof.
  induction cs as [|c cs IH]; intros a.
  - cbn. f_equal. lra.
  - rewrite sumSq_cons. cbn [map fold_left num_mul num_add].
    rewrite IH. f_equal. lra.
Qed.

Lemma sumSquares_Fin cs : sumSquares (map Fin cs) = Fin (sumSq cs).
Proof.
  unfold sumSquares, num_zero. rewrite sumSquares_acc. f_equal. lra.
Qed.

Lemma l2norm_Fin cs : l2norm (map Fin cs) = Fin (sqrt (sumSq cs)).
Proof.
  unfold l2norm. rewrite sumSquares_Fin. cbn.
  now rewrite Rneg_false by apply sumSq_nonneg.
Qed.

Lemma sumSq_scale cs n :
  (n <> 0)%R ->
  sumSq (map (fun c => c / n)%R cs) = (sumSq cs / (n * n))%R.
Proof.
  intros Hn. induction cs as [|c cs IH]; [cbn; field; assumption|].
  cbn [map]. rewrite !sumSq_cons, IH. field. assumption.
Qed.

Lemma sumSq_zeros n : sumSq (repeat 0%R n) = 0%R.
Proof.
  induction n as [|n IH]; [reflexivity|].
  cbn [repeat]. rewrite sumSq_cons, IH. lra.
Qed.

(** ** The vectorizer *)

Lemma splitWs_nonempty s : forall inRun, splitWs inRun s <> [].
Proof.
  induction s as [|c rest IH]; intros inRun; cbn; [discriminate|].
  destruct (isWhiteSpace c).
  - destruct inRun; [apply IH | discriminate].
  - destruct (splitWs false rest); discriminate.
Qed.

Lemma bump_length index : forall embedding,
  length (bump index embedding) = length embedding.
Proof.
  induction index as [|index IH]; intros [|v rest]; cbn; auto.
Qed.

Lemma simpleHash_nonneg s : (0 <= simpleHash s)%Z.
Proof. unfold simpleHash. apply Z.abs_nonneg. Qed.

Example simpleHash_hello : simpleHash (str "hello") = 99162322%Z.
Proof. reflexivity. Qed.

Example splitWhitespace_blanks :
  splitWhitespace (str "  a  b ") = [[]; str "a"; str "b"; []]
  /\ splitWhitespace [] = [[]]
  /\ splitWhitespace (str "  ") = [[]; []].
Proof. repeat split. Qed.

Lemma bucket_index_bound s n :
  0 < n -> Z.to_nat (Z.rem (simpleHash s) (Z.of_nat n)) < n.
Proof.
  intros Hn. pose proof (simpleHash_nonneg s) as Hh.
  pose proof (Z.rem_bound_pos (simpleHash s) (Z.of_nat n) Hh ltac:(lia)).
  lia.
Qed.

Lemma bump_map index : forall cs,
  bump index (map Fin cs) = map Fin (bumpR index cs).
Proof.
  induction index as [|index IH]; intros [|c cs]; cbn; try reflexivity.
  now rewrite IH.
Qed.

Lemma bumpR_length index : forall cs, length (bumpR index cs) = length cs.
Proof.
  induction index as [|index IH]; intros [|c cs]; cbn; auto.
Qed.

Lemma bumpR_nonNegative index : forall cs,
  nonNegative cs -> nonNegative (bumpR index cs).
Proof.
  unfold nonNegative.
  induction index as [|index IH]; intros [|c cs] H; cbn; try assumption;
    inversion H; subst; constructor; auto; lra.
Qed.

(** A bump inside the array leaves a bucket that is at least 1. *)
Lemma bumpR_hasOne index : forall cs,
  index < length cs -> nonNegative cs -> hasOne (bumpR index cs).
Proof.
  unfold nonNegative, hasOne.
  induction index as [|index IH]; intros [|c cs] Hlen H; cbn in *; try lia;
    inversion H; subst.
  - exists (c + 1)%R. split; [now left | lra].
  - destruct (IH cs ltac:(lia) H3) as (c' & Hin & Hc').
    exists c'. split; [now right | assumption].
Qed.

(** Buckets never decrease. *)
Lemma bumpR_keeps_hasOne index : forall cs,
  hasOne cs -> hasOne (bumpR index cs).
Proof.
  unfold hasOne.
  induction index as [|index IH]; intros [|c cs] (c1 & Hin & Hc1); cbn in *;
    try tauto.
  - destruct Hin as [->|Hin].
    + exists (c1 + 1)%R. split; [now left | lra].
    + exists c1. split; [now right | assumption].
  - destruct Hin as [->|Hin].
    + exists c1. split; [now left | assumption].
    + destruct (IH cs (ex_intro _ c1 (conj Hin Hc1))) as (c' & Hin' & Hc').
      exists c'. split; [now right | assumption].
Qed.

Section VectorizerProperties.

Variable toLowerCase : jsstring -> jsstring.

Lemma buckets_fold words : forall cs,
  fold_left
    (fun embedding word =>
       bump (Z.to_nat (Z.rem (simpleHash word)
                             (Z.of_nat (length embedding)))) embedding)
    words (map Fin cs)
  = map Fin
      (fold_left
         (fun cs word =>
            bumpR (Z.to_nat (Z.rem (simpleHash word)
                                   (Z.of_nat (length cs)))) cs)
         words cs).
Proof.
  induction words as [|w words IH]; intros cs; cbn [fold_left];
    [reflexivity|].
  rewrite length_map, bump_map. apply IH.
Qed.

Lemma buckets_Fin text :
  buckets toLowerCase text = map Fin (bucketsR toLowerCase text).
Proof.
  unfold buckets, bucketsR, num_zero.
  rewrite <- buckets_fold, map_repeat. reflexivity.
Qed.

Lemma bucketsR_fold_inv words : forall cs,
  0 < length cs -> nonNegative cs ->
  let cs' := fold_left
         (fun cs word =>
            bumpR (Z.to_nat (Z.rem (simpleHash word)
                                   (Z.of_nat (length cs)))) cs)
         words cs in
  length cs' = length cs /\ nonNegative cs'
  /\ (words <> [] \/ hasOne cs -> hasOne cs').
Proof.
  induction words as [|w words IH]; intros cs Hlen Hnn; cbn [fold_left].
  - repeat split; try assumption. intros [H|H]; [congruence | assumption].
  - set (i := Z.to_nat (Z.rem (simpleHash w) (Z.of_nat (length cs)))).
    assert (Hi : i < length cs) by (apply bucket_index_bound; lia).
    destruct (IH (bumpR i cs)) as (Hl & Hn & Hone).
    + rewrite bumpR_length. lia.
    + now apply bumpR_nonNegative.
    + rewrite bumpR_length in Hl. repeat split; try assumption.
      intros _. apply Hone. right. now apply bumpR_hasOne.
Qed.

Lemma bucketsR_inv text :
  length (bucketsR toLowerCase text) = DIM
  /\ nonNegative (bucketsR toLowerCase text)
  /\ hasOne (bucketsR toLowerCase text).
Proof.
  unfold bucketsR.
  destruct (bucketsR_fold_inv (splitWhitespace (toLowerCase text))
              (repeat 0%R DIM)) as (Hl & Hn & Hone).
  - rewrite repeat_length. unfold DIM. lia.
  - unfold nonNegative. apply Forall_forall. intros c Hc.
    apply repeat_spec in Hc. lra.
  - rewrite repeat_length in Hl. repeat split; try assumption.
    apply Hone. left. apply splitWs_nonempty.
Qed.

Lemma bucketsR_sumSq_pos text : (1 <= sumSq (bucketsR toLowerCase text))%R.
Proof.
  destruct (bucketsR_inv text) as (_ & _ & c & Hin & Hc).
  apply sumSq_ge in Hin. nra.
Qed.

Lemma bucketsR_norm_pos text :
  (0 < sqrt (sumSq (bucketsR toLowerCase text)))%R.
Proof. apply sqrt_lt_R0. pose proof (bucketsR_sumSq_pos text). lra. Qed.

(** On every text the guard [norm > 0] holds and every bucket is divided
    by the norm. *)
Lemma createSimpleEmbedding_Fin text :
  createSimpleEmbedding toLowerCase text
  = map Fin (embeddingR toLowerCase text).
Proof.
  unfold createSimpleEmbedding, embeddingR.
  rewrite buckets_Fin, sumSquares_Fin.
  pose proof (bucketsR_norm_pos text) as Hn.
  cbn [num_sqrt]. rewrite Rneg_false by apply sumSq_nonneg.
  unfold num_zero. cbn [num_gt]. rewrite Rpos_true by lra.
  rewrite !map_map. apply map_ext. intros c. cbn [num_div].
  destruct (Req_dec_T (sqrt (sumSq (bucketsR toLowerCase text))) 0);
    [lra | reflexivity].
Qed.

Lemma createSimpleEmbedding_length text :
  length (createSimpleEmbedding toLowerCase text) = DIM.
Proof.
  rewrite createSimpleEmbedding_Fin. unfold embeddingR.
  rewrite !length_map. apply bucketsR_inv.
Qed.

Lemma embeddingR_length text :
  length (embeddingR toLowerCase text) = DIM.
Proof. unfold embeddingR. rewrite length_map. apply bucketsR_inv. Qed.

Lemma embeddingR_sumSq text : sumSq (embeddingR toLowerCase text) = 1%R.
Proof.
  unfold embeddingR.
  pose proof (bucketsR_norm_pos text) as Hn.
  pose proof (bucketsR_sumSq_pos text) as Hs.
  rewrite sumSq_scale by lra.
  rewrite sqrt_sqrt by lra. field. lra.
Qed.

(** In exact arithmetic the embedding has norm 1. *)
Lemma createSimpleEmbedding_unit text :
  l2norm (createSimpleEmbedding toLowerCase text) = Fin 1.
Proof.
  rewrite createSimpleEmbedding_Fin, l2norm_Fin, embeddingR_sumSq.
  f_equal. apply sqrt_1.
Qed.

End VectorizerProperties.

Lemma bucketsR_empty toLowerCase :
  toLowerCase [] = [] ->
  bucketsR toLowerCase [] = 1%R :: repeat 0%R (DIM - 1).
Proof.
  intros Hlow. unfold bucketsR. rewrite Hlow.
  change (splitWhitespace []) with [@nil char16]. cbn [fold_left].
  rewrite repeat_length.
  replace (Z.to_nat (Z.rem (simpleHash []) (Z.of_nat DIM))) with 0
    by (vm_compute; reflexivity).
  change (repeat 0%R DIM) with (0%R :: repeat 0%R (DIM - 1)).
  cbn [bumpR]. f_equal. lra.
Qed.

Lemma unitVector0_not_zero : unitVector0 <> zeroVector.
Proof.
  unfold unitVector0, zeroVector.
  change (repeat num_zero DIM) with (num_zero :: repeat num_zero (DIM - 1)).
  unfold num_one, num_zero. intros H. injection H as H. lra.
Qed.

(** C2, as amended.  The embedding is a function of the text alone, so two
    calls on the same text give the same vector; the empty string has one
    (empty) word, which is counted in bucket 0, so its embedding is the
    unit vector of bucket 0 and not the zero vector. *)
Theorem embed_deterministic_empty_unit (toLowerCase : jsstring -> jsstring) :
  toLowerCase [] = [] ->
  (forall text1 text2, text1 = text2 ->
     createSimpleEmbedding toLowerCase text1
     = createSimpleEmbedding toLowerCase text2)
  /\ createSimpleEmbedding toLowerCase [] = unitVector0
  /\ createSimpleEmbedding toLowerCase [] <> zeroVector.
Proof.
  intros Hlow.
  assert (Hunit : createSimpleEmbedding toLowerCase [] = unitVector0).
  { rewrite createSimpleEmbedding_Fin. unfold embeddingR.
    rewrite (bucketsR_empty _ Hlow), sumSq_cons, sumSq_zeros.
    replace (1 * 1 + 0)%R with 1%R by lra. rewrite sqrt_1.
    cbn [map]. rewrite !map_repeat. unfold unitVector0, num_one, num_zero.
    f_equal; [f_equal; lra|]. f_equal. f_equal. lra. }
  split; [now intros t1 t2 ->|]. split; [assumption|].
  rewrite Hunit. apply unitVector0_not_zero.
Qed.

Lemma embed_deterministic_empty_unit_witness :
  (forall text1 text2, text1 = text2 ->
     createSimpleEmbedding asciiLower text1
     = createSimpleEmbedding asciiLower text2)
  /\ createSimpleEmbedding asciiLower [] = unitVector0
  /\ createSimpleEmbedding asciiLower [] <> zeroVector.
Proof.
  apply (embed_deterministic_empty_unit asciiLower). reflexivity.
Defined.

(** C2 as stated fails on its second half: the embedding of the empty
    string is not the zero vector. *)
Lemma embed_empty_counterexample :
  createSimpleEmbedding asciiLower [] <> zeroVector.
Proof.
  rewrite createSimpleEmbedding_Fin. unfold embeddingR.
  rewrite (bucketsR_empty asciiLower eq_refl), sumSq_cons, sumSq_zeros.
  replace (1 * 1 + 0)%R with 1%R by lra. rewrite sqrt_1.
  cbn [map]. unfold zeroVector.
  change (repeat num_zero DIM) with (num_zero :: repeat num_zero (DIM - 1)).
  unfold num_zero. intros H. injection H as H _. lra.
Qed.

(** ** The ranker: cosine similarity *)

Lemma dotR_cons x xs y ys :
  dotR (x :: xs) (y :: ys) = (x * y + dotR xs ys)%R.
Proof. reflexivity. Qed.

Lemma cauchy_schwarz xs : forall ys,
  (dotR xs ys * dotR xs ys <= sumSq xs * sumSq ys)%R.
Proof.
  induction xs as [|x xs IH]; intros [|y ys].
  - cbn. lra.
  - change (dotR [] (y :: ys)) with 0%R. change (sumSq []) with 0%R. lra.
  - change (dotR (x :: xs) []) with 0%R. change (sumSq []) with 0%R. lra.
  - rewrite dotR_cons, !sumSq_cons.
    specialize (IH ys).
    pose proof (sumSq_nonneg xs) as HA. pose proof (sumSq_nonneg ys) as HB.
    set (D := dotR xs ys) in *. set (A := sumSq xs) in *.
    set (B := sumSq ys) in *.
    assert (Hmix : (2 * (x * y) * D <= x * x * B + y * y * A)%R).
    { destruct (Req_dec_T B 0) as [HB0|HB0].
      - assert (D = 0)%R by nra. subst D. rewrite H. nra.
      - assert (0 < B)%R by lra.
        pose proof (Rle_0_sqr (x * B - y * D)) as Hsq. unfold Rsqr in Hsq.
        apply Rmult_le_reg_r with (r := B); [assumption|].
        nra. }
    nra.
Qed.

Lemma dotR_self xs : dotR xs xs = sumSq xs.
Proof.
  induction xs as [|x xs IH]; [reflexivity|].
  now rewrite dotR_cons, sumSq_cons, IH.
Qed.

Lemma cosine_fold xs : forall ys d a b,
  length xs = length ys ->
  fold_left
    (fun '(dotProduct, normA, normB) '(ai, bi) =>
       (num_add dotProduct (num_mul ai bi),
        num_add normA (num_mul ai ai),
        num_add normB (num_mul bi bi)))
    (combine (map Fin xs) (map Fin ys)) (Fin d, Fin a, Fin b)
  = (Fin (d + dotR xs ys), Fin (a + sumSq xs), Fin (b + sumSq ys)).
Proof.
  induction xs as [|x xs IH]; intros [|y ys] d a b Hlen; cbn in Hlen;
    try discriminate.
  - cbn. f_equal; [f_equal|]; apply f_equal; lra.
  - rewrite dotR_cons, !sumSq_cons.
    cbn [map combine fold_left num_add num_mul].
    rewrite IH by congruence. f_equal; [f_equal|]; apply f_equal; lra.
Qed.

Lemma cosineSimilarity_Fin xs ys :
  length xs = length ys ->
  cosineSimilarity (map Fin xs) (map Fin ys)
  = num_div (Fin (dotR xs ys))
            (Fin (sqrt (sumSq xs) * sqrt (sumSq ys))).
Proof.
  intros Hlen. unfold cosineSimilarity.
  rewrite !length_map, Hlen, Nat.eqb_refl. cbn [negb].
  unfold num_zero. rewrite cosine_fold by assumption.
  rewrite !Rplus_0_l.
  cbn [num_sqrt]. rewrite !Rneg_false by apply sumSq_nonneg.
  reflexivity.
Qed.

Lemma signed_inf_zero : signed_inf 0 = NaN.
Proof.
  unfold signed_inf, Rpos, Rneg.
  destruct (Rlt_dec 0 0); [lra|]. reflexivity.
Qed.

(** With a vector of norm 0 the quotient is [0 / 0]. *)
Lemma cosineSimilarity_zero_norm xs ys :
  length xs = length ys ->
  (sumSq xs = 0 \/ sumSq ys = 0)%R ->
  cosineSimilarity (map Fin xs) (map Fin ys) = NaN.
Proof.
  intros Hlen Hzero. rewrite cosineSimilarity_Fin by assumption.
  pose proof (cauchy_schwarz xs ys) as Hcs.
  assert (Hd : dotR xs ys = 0%R) by (destruct Hzero as [H|H]; rewrite H in Hcs; nra).
  assert (Hden : (sqrt (sumSq xs) * sqrt (sumSq ys))%R = 0%R).
  { destruct Hzero as [H|H]; rewrite H, sqrt_0; lra. }
  rewrite Hd, Hden. cbn [num_div].
  destruct (Req_dec_T 0 0); [apply signed_inf_zero | lra].
Qed.

(** With two vectors of non-zero norm the quotient is in [-1, 1]. *)
Lemma cosineSimilarity_bounds xs ys :
  length xs = length ys ->
  sumSq xs <> 0%R -> sumSq ys <> 0%R ->
  exists r, cosineSimilarity (map Fin xs) (map Fin ys) = Fin r
            /\ (-1 <= r <= 1)%R.
Proof.
  intros Hlen HA HB. rewrite cosineSimilarity_Fin by assumption.
  pose proof (sumSq_nonneg xs) as HA0. pose proof (sumSq_nonneg ys) as HB0.
  assert (Ha : (0 < sqrt (sumSq xs))%R) by (apply sqrt_lt_R0; lra).
  assert (Hb : (0 < sqrt (sumSq ys))%R) by (apply sqrt_lt_R0; lra).
  set (n := (sqrt (sumSq xs) * sqrt (sumSq ys))%R).
  assert (Hn : (0 < n)%R) by (unfold n; nra).
  assert (Hnn : (n * n = sumSq xs * sumSq ys)%R).
  { unfold n.
    replace (sqrt (sumSq xs) * sqrt (sumSq ys)
             * (sqrt (sumSq xs) * sqrt (sumSq ys)))%R
      with ((sqrt (sumSq xs) * sqrt (sumSq xs))
            * (sqrt (sumSq ys) * sqrt (sumSq ys)))%R by ring.
    now rewrite !sqrt_sqrt by lra. }
  pose proof (cauchy_schwarz xs ys) as Hcs. rewrite <- Hnn in Hcs.
  exists (dotR xs ys / n)%R. cbn [num_div].
  destruct (Req_dec_T n 0); [lra|]. split; [reflexivity|].
  assert (Hd : (- n <= dotR xs ys <= n)%R) by nra.
  split.
  - apply Rmult_le_reg_r with (r := n); [assumption|].
    unfold Rdiv. rewrite Rmult_assoc, Rinv_l by lra. lra.
  - apply Rmult_le_reg_r with (r := n); [assumption|].
    unfold Rdiv. rewrite Rmult_assoc, Rinv_l by lra. lra.
Qed.

Lemma cosineSimilarity_self xs :
  sumSq xs <> 0%R -> cosineSimilarity (map Fin xs) (map Fin xs) = Fin 1.
Proof.
  intros HA. rewrite cosineSimilarity_Fin by reflexivity.
  pose proof (sumSq_nonneg xs) as HA0.
  rewrite dotR_self, sqrt_sqrt by lra. cbn [num_div].
  destruct (Req_dec_T (sumSq xs) 0); [contradiction|].
  f_equal. field. assumption.
Qed.

Lemma cosineSimilarity_lengths a b :
  length a <> length b -> cosineSimilarity a b = num_zero.
Proof.
  intros Hne. unfold cosineSimilarity.
  destruct (Nat.eqb_spec (length a) (length b)); [contradiction|].
  reflexivity.
Qed.

Lemma l2norm_zero_iff xs : l2norm (map Fin xs) = Fin 0 <-> sumSq xs = 0%R.
Proof.
  rewrite l2norm_Fin. pose proof (sumSq_nonneg xs) as H. split.
  - intros E. injection E as E. now apply sqrt_eq_0.
  - intros ->. now rewrite sqrt_0.
Qed.

(** ** Double precision *)

Lemma binary_round_aux_sign sx mx ex lx :
  match binary_round_aux Binary64.prec Binary64.emax sx mx ex lx with
  | S754_zero s | S754_infinity s | S754_finite s _ _ => s = sx
  | S754_nan => True
  end.
Proof.
  unfold binary_round_aux.
  destruct (shr_fexp _ _ mx ex lx) as [mrs' e'].
  destruct (shr_fexp _ _ _ e' loc_Exact) as [mrs'' e''].
  destruct (shr_m mrs''); [reflexivity| |exact I].
  destruct (Z.leb e'' _); reflexivity.
Qed.

Lemma binary_round_aux_signClear mx ex lx :
  signClear (binary_round_aux Binary64.prec Binary64.emax false mx ex lx).
Proof.
  pose proof (binary_round_aux_sign false mx ex lx) as H.
  destruct (binary_round_aux _ _ _ _ _ _); exact H.
Qed.

Lemma mul_signClear x y :
  signClear x -> signClear y -> signClear (Binary64.mul x y).
Proof.
  destruct x as [sx|sx| |sx mx ex], y as [sy|sy| |sy my ey]; cbn;
    intros; subst; try reflexivity; try exact I.
  apply binary_round_aux_signClear.
Qed.

Lemma add_signClear x y :
  signClear x -> signClear y -> signClear (Binary64.add x y).
Proof.
  destruct x as [sx|sx| |sx mx ex], y as [sy|sy| |sy my ey]; cbn;
    intros; subst; try reflexivity; try exact I.
  destruct (shl_align mx ex _) as [m1 e1].
  destruct (shl_align my ey _) as [m2 e2].
  cbn [fst cond_Zopp]. cbn.
  unfold binary_round.
  destruct (shl_align _ _ _) as [mz ez].
  apply binary_round_aux_signClear.
Qed.

Lemma div_signClear x y :
  signClear x -> signClear y -> signClear (Binary64.div x y).
Proof.
  destruct x as [sx|sx| |sx mx ex], y as [sy|sy| |sy my ey]; cbn;
    intros; subst; try reflexivity; try exact I.
  destruct (SFdiv_core_binary _ _ _ _ _ _) as [[mz ez] lz].
  apply binary_round_aux_signClear.
Qed.

Lemma sqrt_signClear x : signClear x -> signClear (Binary64.sqrt x).
Proof.
  destruct x as [sx|sx| |sx mx ex]; cbn; intros; subst;
    try reflexivity; try exact I.
  destruct (SFsqrt_core_binary _ _ _ _) as [[mz ez] lz].
  apply binary_round_aux_signClear.
Qed.

Lemma signClear_not_negative x :
  signClear x -> Binary64.gt Binary64.zero x = false.
Proof.
  destruct x as [sx|sx| |sx mx ex]; cbn; intros; subst; reflexivity.
Qed.

Lemma bump64_signClear index : forall embedding,
  Forall signClear embedding ->
  Forall signClear (Binary64.bump index embedding).
Proof.
  induction index as [|index IH]; intros [|v rest] H;
    cbn [Binary64.bump]; try constructor; inversion H; subst;
    try assumption.
  - now apply add_signClear.
  - now apply IH.
Qed.

Lemma buckets64_signClear toLowerCase text :
  Forall signClear (Binary64.buckets toLowerCase text).
Proof.
  unfold Binary64.buckets.
  assert (H0 : Forall signClear (repeat Binary64.zero DIM))
    by (apply Forall_forall; intros x Hx; apply repeat_spec in Hx;
        now subst).
  revert H0. generalize (repeat Binary64.zero DIM).
  induction (splitWhitespace (toLowerCase text)) as [|w ws IH];
    intros acc Hacc; cbn [fold_left]; [assumption|].
  apply IH. now apply bump64_signClear.
Qed.

Lemma sumSquares64_fold_signClear v : forall acc,
  signClear acc -> Forall signClear v ->
  signClear (fold_left (fun sum val =>
                          Binary64.add sum (Binary64.mul val val)) v acc).
Proof.
  induction v as [|x v IH]; intros acc Hacc Hv; cbn [fold_left];
    [assumption|].
  inversion Hv; subst. apply IH; [|assumption].
  apply add_signClear; [assumption | now apply mul_signClear].
Qed.

Lemma createSimpleEmbedding64_signClear toLowerCase text :
  Forall signClear (Binary64.createSimpleEmbedding toLowerCase text).
Proof.
  unfold Binary64.createSimpleEmbedding.
  pose proof (buckets64_signClear toLowerCase text) as Hb.
  set (embedding := Binary64.buckets toLowerCase text) in *.
  assert (Hn : signClear (Binary64.sqrt (Binary64.sumSquares embedding))).
  { apply sqrt_signClear. apply sumSquares64_fold_signClear;
      [reflexivity | assumption]. }
  apply Forall_forall. intros y Hy.
  apply in_map_iff in Hy as (x & <- & Hx).
  rewrite Forall_forall in Hb.
  destruct (Binary64.gt _ Binary64.zero); [|reflexivity].
  apply div_signClear; [now apply Hb | assumption].
Qed.

(** The three sums of the loop of [cosineSimilarity], one by one. *)
Lemma cosine64_fold a : forall b d0 a0 b0,
  length a = length b ->
  fold_left
    (fun '(dotProduct, normA, normB) '(ai, bi) =>
       (Binary64.add dotProduct (Binary64.mul ai bi),
        Binary64.add normA (Binary64.mul ai ai),
        Binary64.add normB (Binary64.mul bi bi)))
    (combine a b) (d0, a0, b0)
  = (dot64 a b d0,
     fold_left (fun sum val => Binary64.add sum (Binary64.mul val val)) a a0,
     fold_left (fun sum val => Binary64.add sum (Binary64.mul val val)) b b0).
Proof.
  induction a as [|x a IH]; intros [|y b] d0 a0 b0 Hlen; cbn in Hlen;
    try discriminate; [reflexivity|].
  unfold dot64. cbn [combine fold_left]. rewrite IH by congruence.
  reflexivity.
Qed.

Lemma cosine64_eq a b :
  length a = length b ->
  Binary64.cosineSimilarity a b
  = Binary64.div (dot64 a b Binary64.zero)
      (Binary64.mul (Binary64.sqrt (Binary64.sumSquares a))
                    (Binary64.sqrt (Binary64.sumSquares b))).
Proof.
  intros Hlen. unfold Binary64.cosineSimilarity.
  rewrite Hlen, Nat.eqb_refl. cbn [negb].
  rewrite cosine64_fold by assumption. reflexivity.
Qed.

Lemma cosine64_lengths a b :
  length a <> length b -> Binary64.cosineSimilarity a b = Binary64.zero.
Proof.
  intros Hne. unfold Binary64.cosineSimilarity.
  destruct (Nat.eqb_spec (length a) (length b)); [contradiction|].
  reflexivity.
Qed.

Lemma dot64_signClear a : forall b acc,
  Forall signClear a -> Forall signClear b -> signClear acc ->
  signClear (dot64 a b acc).
Proof.
  unfold dot64.
  induction a as [|x a IH]; intros [|y b] acc Ha Hb Hacc;
    cbn [combine fold_left]; try assumption.
  inversion Ha; inversion Hb; subst. apply IH; try assumption.
  apply add_signClear; [assumption | now apply mul_signClear].
Qed.

Lemma cosine64_signClear a b :
  Forall signClear a -> Forall signClear b ->
  signClear (Binary64.cosineSimilarity a b).
Proof.
  intros Ha Hb.
  destruct (Nat.eq_dec (length a) (length b)) as [Hlen|Hlen].
  - rewrite cosine64_eq by assumption.
    apply div_signClear; [now apply dot64_signClear|].
    apply mul_signClear; apply sqrt_signClear;
      now apply sumSquares64_fold_signClear.
  - now rewrite cosine64_lengths.
Qed.

(** *** Zeros *)

Lemma mul_zero_l x y : isZero x -> zeroOrNaN (Binary64.mul x y).
Proof. destruct x, y; cbn; tauto. Qed.

Lemma mul_zero_r x y : isZero y -> zeroOrNaN (Binary64.mul x y).
Proof. destruct x, y; cbn; tauto. Qed.

Lemma mul_zero_zero x y : isZero x -> isZero y -> isZero (Binary64.mul x y).
Proof. destruct x, y; cbn; tauto. Qed.

Lemma add_zero_zero x y : isZero x -> isZero y -> isZero (Binary64.add x y).
Proof.
  destruct x as [[]| | |], y as [[]| | |]; cbn; tauto.
Qed.

Lemma add_zeroOrNaN x y :
  zeroOrNaN x -> zeroOrNaN y -> zeroOrNaN (Binary64.add x y).
Proof.
  destruct x as [[]| | |], y as [[]| | |]; cbn; tauto.
Qed.

Lemma sqrt_zero x : isZero x -> isZero (Binary64.sqrt x).
Proof. destruct x; cbn; tauto. Qed.

(** Dividing by a zero or by [NaN] never gives a finite number. *)
Lemma div_by_zeroOrNaN x y : zeroOrNaN y -> notFinite (Binary64.div x y).
Proof. destruct x, y; cbn; tauto. Qed.

Lemma div_zeroOrNaN x y :
  zeroOrNaN x -> zeroOrNaN y -> Binary64.div x y = S754_nan.
Proof. destruct x, y; cbn; tauto. Qed.

Lemma sumSquares64_fold_zeros v : forall acc,
  isZero acc -> Forall isZero v ->
  isZero (fold_left (fun sum val =>
                       Binary64.add sum (Binary64.mul val val)) v acc).
Proof.
  induction v as [|x v IH]; intros acc Hacc Hv; cbn [fold_left];
    [assumption|].
  inversion Hv; subst. apply IH; [|assumption].
  apply add_zero_zero; [assumption | now apply mul_zero_zero].
Qed.

Lemma dot64_zeros_l a : forall b acc,
  Forall isZero a -> zeroOrNaN acc -> zeroOrNaN (dot64 a b acc).
Proof.
  unfold dot64.
  induction a as [|x a IH]; intros [|y b] acc Ha Hacc;
    cbn [combine fold_left]; try assumption.
  inversion Ha; subst. apply IH; [assumption|].
  apply add_zeroOrNaN; [assumption | now apply mul_zero_l].
Qed.

Lemma dot64_zeros_r a : forall b acc,
  Forall isZero b -> zeroOrNaN acc -> zeroOrNaN (dot64 a b acc).
Proof.
  unfold dot64.
  induction a as [|x a IH]; intros [|y b] acc Hb Hacc;
    cbn [combine fold_left]; try assumption.
  inversion Hb; subst. apply IH; [assumption|].
  apply add_zeroOrNaN; [assumption | now apply mul_zero_r].
Qed.

Lemma isZero_zeroOrNaN x : isZero x -> zeroOrNaN x.
Proof. destruct x; cbn; tauto. Qed.

(** When the sum of the squares of either vector is zero, the quotient
    has a zero or [NaN] as its denominator. *)
Lemma cosine64_zero_norm a b :
  length a = length b ->
  isZero (Binary64.sumSquares a) \/ isZero (Binary64.sumSquares b) ->
  notFinite (Binary64.cosineSimilarity a b).
Proof.
  intros Hlen Hz. rewrite cosine64_eq by assumption.
  apply div_by_zeroOrNaN.
  destruct Hz as [Hz|Hz].
  - apply mul_zero_l. now apply sqrt_zero.
  - apply mul_zero_r. now apply sqrt_zero.
Qed.

(** With a vector of zeros the quotient is [0 / 0] or has a [NaN]. *)
Lemma cosine64_zero_vector a b :
  length a = length b ->
  Forall isZero a \/ Forall isZero b ->
  Binary64.cosineSimilarity a b = S754_nan.
Proof.
  intros Hlen Hz. rewrite cosine64_eq by assumption.
  apply div_zeroOrNaN.
  - destruct Hz as [Hz|Hz];
      [apply dot64_zeros_l | apply dot64_zeros_r];
      solve [assumption | exact I].
  - destruct Hz as [Hz|Hz].
    + apply mul_zero_l, sqrt_zero, sumSquares64_fold_zeros;
        [exact I | assumption].
    + apply mul_zero_r, sqrt_zero, sumSquares64_fold_zeros;
        [exact I | assumption].
Qed.

(** The program on the text [a b c]: the three words fall into three
    buckets, each entry is the double nearest to [1 / sqrt 3], and the sum
    of the three squares is the double after 1. *)
Lemma abc_self_similarity64 :
  Binary64.cosineSimilarity
    (Binary64.createSimpleEmbedding asciiLower (str "a b c"))
    (Binary64.createSimpleEmbedding asciiLower (str "a b c"))
  = afterOne.
Proof. vm_compute. reflexivity. Qed.

Lemma huge_self_similarity64 :
  Binary64.cosineSimilarity [huge] [huge] = S754_nan.
Proof. vm_compute. reflexivity. Qed.

(** C3 as stated fails in each of its parts on the doubles of the
    program.  For a vector of zeros, whose norm is 0, the function returns
    [NaN], not 0.  For the embedding of the text [a b c] with itself it
    returns the double after 1, which is not 1 and lies outside
    [[-1, 1]].  For the non-zero vector [[2^600]] with itself it returns
    [NaN], the squares overflowing. *)
Lemma cosine_zero_norm_counterexample :
  Binary64.sqrt (Binary64.sumSquares [Binary64.zero]) = Binary64.zero
  /\ Binary64.cosineSimilarity [Binary64.zero] [Binary64.one] = S754_nan
  /\ Binary64.cosineSimilarity [Binary64.zero] [Binary64.one]
     <> Binary64.zero
  /\ Binary64.cosineSimilarity
       (Binary64.createSimpleEmbedding asciiLower (str "a b c"))
       (Binary64.createSimpleEmbedding asciiLower (str "a b c"))
     = afterOne
  /\ afterOne <> Binary64.one
  /\ Binary64.gt afterOne Binary64.one = true
  /\ Binary64.cosineSimilarity [huge] [huge] = S754_nan
  /\ Binary64.cosineSimilarity [huge] [huge] <> Binary64.one.
Proof.
  split; [reflexivity|]. split; [reflexivity|].
  split; [discriminate|].
  split; [exact abc_self_similarity64|].
  split; [discriminate|]. split; [reflexivity|].
  split; [exact huge_self_similarity64|].
  rewrite huge_self_similarity64. discriminate.
Qed.

(** C3, as amended.  On the doubles of the program: the function returns
    0 when the two vectors differ in length; for vectors of equal length
    it returns [NaN] when either is a vector of zeros, and [NaN] or an
    infinity, never 0, whenever the sum of the squares of either is zero;
    for every pair of vectors produced by the embedding the result is
    never negative, so never below -1.  Read in exact arithmetic: for
    every pair of vectors produced by the embedding the quotient lies in
    [[-1, 1]], and for a vector produced by the embedding with itself it
    is 1. *)
Theorem cosine_similarity_cases (toLowerCase : jsstring -> jsstring) :
  (forall a b, length a <> length b ->
     Binary64.cosineSimilarity a b = Binary64.zero)
  /\ (forall a b, length a = length b ->
        Forall isZero a \/ Forall isZero b ->
        Binary64.cosineSimilarity a b = S754_nan)
  /\ (forall a b, length a = length b ->
        isZero (Binary64.sumSquares a) \/ isZero (Binary64.sumSquares b) ->
        notFinite (Binary64.cosineSimilarity a b))
  /\ (forall text1 text2,
        Binary64.gt Binary64.zero
          (Binary64.cosineSimilarity
             (Binary64.createSimpleEmbedding toLowerCase text1)
             (Binary64.createSimpleEmbedding toLowerCase text2)) = false)
  /\ (forall text1 text2,
        exists r,
          cosineSimilarity (createSimpleEmbedding toLowerCase text1)
                           (createSimpleEmbedding toLowerCase text2) = Fin r
          /\ (-1 <= r <= 1)%R)
  /\ (forall text,
        cosineSimilarity (createSimpleEmbedding toLowerCase text)
                         (createSimpleEmbedding toLowerCase text) = Fin 1).
Proof.
  split; [exact cosine64_lengths|].
  split; [exact cosine64_zero_vector|].
  split; [exact cosine64_zero_norm|]. split; [|split].
  - intros text1 text2.
    apply signClear_not_negative, cosine64_signClear;
      apply createSimpleEmbedding64_signClear.
  - intros text1 text2. rewrite !createSimpleEmbedding_Fin.
    apply cosineSimilarity_bounds.
    + now rewrite !embeddingR_length.
    + rewrite embeddingR_sumSq. lra.
    + rewrite embeddingR_sumSq. lra.
  - intros text. rewrite createSimpleEmbedding_Fin.
    apply cosineSimilarity_self. rewrite embeddingR_sumSq. lra.
Qed.

Lemma cosine_similarity_cases_witness :
  Binary64.cosineSimilarity [Binary64.one; Binary64.zero] [Binary64.one]
  = Binary64.zero
  /\ Binary64.cosineSimilarity [Binary64.zero; Binary64.zero]
                               [Binary64.one; huge] = S754_nan
  /\ notFinite (Binary64.cosineSimilarity [Binary64.one] [Binary64.zero])
  /\ cosineSimilarity (createSimpleEmbedding asciiLower (str "a b c"))
                      (createSimpleEmbedding asciiLower (str "a b c"))
     = Fin 1.
Proof.
  destruct (cosine_similarity_cases asciiLower)
    as (Hlen & Hzero & Hnorm & _ & _ & Hself).
  split; [apply Hlen; cbn; lia|].
  split; [apply Hzero; [reflexivity | left; repeat constructor]|].
  split; [apply Hnorm; [reflexivity | right; exact I]|].
  apply Hself.
Defined.

(** ** The ranker: search *)

Ltac unfold_monad :=
  cbv [bind gets ret lift tryCatch modify throw] in *.

Section RankerProperties.

Variable toLowerCase : jsstring -> jsstring.
Variable fuseSearch : list CodeChunk -> jsstring -> outcome (list FuseResult).

Lemma fallbackSearch_state query limit st :
  snd (fallbackSearch fuseSearch query limit st) = st.
Proof.
  unfold fallbackSearch. unfold_monad.
  destruct (fuseSearch (codeChunks st) query); reflexivity.
Qed.

Lemma vectorSearch_returns queryEmbedding limit st :
  exists results,
    vectorSearch queryEmbedding limit st = (Ok results, st).
Proof. unfold vectorSearch. unfold_monad. eexists. reflexivity. Qed.

Lemma createEmbedding_not_empty text :
  (length (createEmbedding toLowerCase text) =? 0) = false.
Proof.
  unfold createEmbedding. rewrite createSimpleEmbedding_length.
  reflexivity.
Qed.

Lemma searchCodebase_unfold query limit st :
  searchCodebase toLowerCase fuseSearch query limit st =
  if length (codeChunks st) =? 0 then (Ok [], st)
  else
    match
      (if 0 <? length (embeddings st) then
         if length (createEmbedding toLowerCase query) =? 0
         then fallbackSearch fuseSearch query limit
         else vectorSearch (createEmbedding toLowerCase query) limit
       else fallbackSearch fuseSearch query limit) st
    with
    | (Ok a, s') => (Ok a, s')
    | (Throw e, s') => fallbackSearch fuseSearch query limit s'
    end.
Proof.
  unfold searchCodebase, bind, gets, tryCatch, ret.
  destruct (length (codeChunks st) =? 0); reflexivity.
Qed.

(** With chunks and stored vectors, the search is the vector path. *)
Lemma searchCodebase_vector query limit st :
  codeChunks st <> [] -> embeddings st <> [] ->
  searchCodebase toLowerCase fuseSearch query limit st
  = vectorSearch (createEmbedding toLowerCase query) limit st.
Proof.
  intros Hc He. rewrite searchCodebase_unfold.
  destruct (codeChunks st) as [|c cs]; [congruence|].
  destruct (embeddings st) as [|e es]; [congruence|].
  cbn [length Nat.eqb Nat.ltb Nat.leb].
  rewrite createEmbedding_not_empty.
  destruct (vectorSearch_returns (createEmbedding toLowerCase query)
              limit st) as [results ->].
  reflexivity.
Qed.

(** With chunks and no stored vector, the search is the fuzzy path. *)
Lemma searchCodebase_fallback query limit st :
  codeChunks st <> [] -> embeddings st = [] ->
  searchCodebase toLowerCase fuseSearch query limit st
  = fallbackSearch fuseSearch query limit st.
Proof.
  intros Hc He. rewrite searchCodebase_unfold.
  destruct (codeChunks st) as [|c cs] eqn:Ec; [congruence|].
  rewrite He. cbn [length Nat.eqb Nat.ltb Nat.leb].
  destruct (fallbackSearch fuseSearch query limit st) as [[r|e] st'] eqn:Ef;
    [reflexivity|].
  pose proof (fallbackSearch_state query limit st) as Hst.
  rewrite Ef in Hst. cbn in Hst. subst st'. exact Ef.
Qed.

Lemma searchCodebase_empty query limit st :
  codeChunks st = [] ->
  searchCodebase toLowerCase fuseSearch query limit st = (Ok [], st).
Proof.
  intros Hc. rewrite searchCodebase_unfold. now rewrite Hc.
Qed.

Lemma searchCodebase_state query limit st :
  snd (searchCodebase toLowerCase fuseSearch query limit st) = st.
Proof.
  destruct (codeChunks st) as [|c cs] eqn:Ec.
  - now rewrite searchCodebase_empty.
  - destruct (embeddings st) as [|e es] eqn:Ee.
    + rewrite searchCodebase_fallback by congruence.
      apply fallbackSearch_state.
    + rewrite searchCodebase_vector by congruence.
      destruct (vectorSearch_returns (createEmbedding toLowerCase query)
                  limit st) as [results ->].
      reflexivity.
Qed.

End RankerProperties.

(** C8.  On an index with no chunk the search returns the empty sequence
    and throws nothing, whatever the query and the limit; a new index has
    no chunk, and neither has one built over no file. *)
Theorem search_empty_index
    (toLowerCase : jsstring -> jsstring)
    (fuseSearch : list CodeChunk -> jsstring -> outcome (list FuseResult))
    (query : jsstring) (limit : Z) (st : FileSystemTools) :
  codeChunks st = [] ->
  searchCodebase toLowerCase fuseSearch query limit st = (Ok [], st)
  /\ codeChunks newTools = []
  /\ codeChunks (snd (indexCodebase toLowerCase [] st)) = [].
Proof.
  intros Hc. split; [now apply searchCodebase_empty|].
  split; reflexivity.
Qed.

Lemma search_empty_index_witness :
  searchCodebase asciiLower fuseHalf (str "planner") 10 newTools
    = (Ok [], newTools)
  /\ codeChunks newTools = []
  /\ codeChunks (snd (indexCodebase asciiLower [] newTools)) = [].
Proof.
  apply (search_empty_index asciiLower fuseHalf (str "planner") 10 newTools).
  reflexivity.
Defined.

(** C10.  The search leaves the index as it was, on the vector path and on
    the fuzzy path: the chunks and the stored vectors after the call are
    those before it. *)
Theorem search_leaves_index_unchanged
    (toLowerCase : jsstring -> jsstring)
    (fuseSearch : list CodeChunk -> jsstring -> outcome (list FuseResult))
    (query : jsstring) (limit : Z) (st : FileSystemTools) :
  let after := snd (searchCodebase toLowerCase fuseSearch query limit st) in
  after = st
  /\ codeChunks after = codeChunks st
  /\ embeddings after = embeddings st
  /\ snd (fallbackSearch fuseSearch query limit st) = st
  /\ (forall queryEmbedding, snd (vectorSearch queryEmbedding limit st) = st).
Proof.
  cbv zeta. rewrite searchCodebase_state.
  split; [reflexivity|]. split; [reflexivity|]. split; [reflexivity|].
  split; [apply fallbackSearch_state|].
  intros qe. destruct (vectorSearch_returns qe limit st) as [r ->].
  reflexivity.
Qed.

(** C9.  On every text, the empty and the blank ones too, the embedding
    has exactly 1536 entries and a strictly positive L2 norm; so the test
    [queryEmbedding.length === 0] of the search is false whenever it is
    evaluated, and with stored vectors the search is the vector path. *)
Theorem embedding_never_degenerate
    (toLowerCase : jsstring -> jsstring) (text : jsstring) :
  length (createSimpleEmbedding toLowerCase text) = 1536
  /\ (exists r, l2norm (createSimpleEmbedding toLowerCase text) = Fin r
                /\ (0 < r)%R)
  /\ (length (createEmbedding toLowerCase text) =? 0) = false
  /\ (forall fuseSearch limit st,
        codeChunks st <> [] -> embeddings st <> [] ->
        searchCodebase toLowerCase fuseSearch text limit st
        = vectorSearch (createEmbedding toLowerCase text) limit st).
Proof.
  split; [apply createSimpleEmbedding_length|].
  split; [exists 1%R; split; [apply createSimpleEmbedding_unit | lra]|].
  split; [apply createEmbedding_not_empty|].
  intros fuseSearch limit st. apply searchCodebase_vector.
Qed.

Lemma embedding_never_degenerate_witness :
  length (createSimpleEmbedding asciiLower []) = 1536
  /\ searchCodebase asciiLower fuseHalf [] 10 zeroIndex
     = vectorSearch (createEmbedding asciiLower []) 10 zeroIndex.
Proof.
  destruct (embedding_never_degenerate asciiLower []) as (Hlen & _ & _ & Hs).
  split; [exact Hlen|].
  apply Hs; discriminate.
Defined.

Lemma In_sortInsert {A} (compare : A -> A -> num) x y : forall l,
  In x (sortInsert compare y l) -> x = y \/ In x l.
Proof.
  induction l as [|z l IH]; cbn [sortInsert].
  - intros [<-|[]]. now left.
  - destruct (num_gt (compare y z) num_zero); cbn [In].
    + intros [<-|H]; [right; now left|].
      destruct (IH H) as [->|H']; [now left | right; now right].
    + intros [<-|H]; [now left | now right].
Qed.

Lemma In_sortBy {A} (compare : A -> A -> num) x : forall l,
  In x (sortBy compare l) -> In x l.
Proof.
  induction l as [|y l IH]; cbn [sortBy fold_right]; [tauto|].
  intros H. apply In_sortInsert in H as [->|H]; [now left|].
  right. now apply IH.
Qed.

Lemma In_firstn {A} (x : A) n : forall l, In x (firstn n l) -> In x l.
Proof.
  induction n as [|n IH]; intros [|y l]; cbn; try tauto.
  intros [->|H]; [now left | right; now apply IH].
Qed.

Lemma In_sliceTo {A} (x : A) limit l : In x (sliceTo limit l) -> In x l.
Proof.
  unfold sliceTo. destruct (limit <? 0)%Z; apply In_firstn.
Qed.

(** ** grep *)

(** C5: the claim fails on the code.  The regexp carries the [g] flag, so
    [test] resumes at the [lastIndex] left by the previous line: after the
    match in line 1 the search in line 2 starts at index 4 and misses the
    match at index 0.  Line 2 matches the term and is not reported. *)
Lemma grep_misses_matching_line :
  let text := str "TODO a" ++ [LF] ++ str "TODO b" in
  grep literalRegExp literalMatchFrom (str "todo")
       (Ok [(str "a.ts", Ok text)])
  = Ok [mkResult (str "a.ts") 1 (str "TODO a") None]
  /\ split LF text = [str "TODO a"; str "TODO b"]
  /\ lineMatches literalMatchFrom (str "todo") (str "TODO b") = true.
Proof. repeat split; vm_compute; reflexivity. Qed.

(** The scenario of the specification: one match, in the second line of
    the one file that holds the term in lower case. *)
Lemma grep_scenario :
  grep literalRegExp literalMatchFrom (str "TODO")
       (Ok [(str "a.ts", Ok (str "let x = 1;" ++ [LF] ++ str "  // todo: y"));
            (str "b.ts", Ok (str "nothing here"))])
  = Ok [mkResult (str "a.ts") 2 (str "// todo: y") None].
Proof. vm_compute. reflexivity. Qed.

Section GrepProperties.

Variable regex : Type.
Variable newRegExp : jsstring -> outcome regex.
Variable matchFrom : regex -> jsstring -> nat -> option nat.

(** A file that cannot be read is skipped and the scan goes on. *)
Lemma grep_skips_unreadable searchTerm before path e after :
  grep newRegExp matchFrom searchTerm
       (Ok (before ++ (path, Throw e) :: after))
  = grep newRegExp matchFrom searchTerm (Ok (before ++ after)).
Proof.
  unfold grep. destruct (newRegExp searchTerm) as [re|err]; [|reflexivity].
  rewrite !fold_left_app. reflexivity.
Qed.

End GrepProperties.

(** ** The dispatch loop *)

Section AgentProperties.

Variables args value : Type.
Variable generateContent :
  list (Content args value) -> outcome (option (Content args value)).
Variable invoke : jsstring -> args -> outcome value.

Lemma respond_name fc :
  exists payload,
    respond invoke fc
    = FunctionResponsePart (mkResponse (callName fc) payload)
    /\ (existsb (jsstring_eqb (callName fc)) toolNames = false ->
        payload = ErrorOf (str "Unknown tool: " ++ callName fc)).
Proof.
  unfold respond. eexists. split; [reflexivity|].
  intros Hunknown. unfold executeToolCall. now rewrite Hunknown.
Qed.

(** The run of the loop on a reply that asks for at least one tool. *)
Lemma generateResponseWithTools_calls st c :
  generateContent (history st) = Ok (Some c) ->
  functionCallsOf c <> [] ->
  let turn :=
    mkContent (str "user") (map (respond invoke) (functionCallsOf c)) in
  exists final,
    snd (generateResponseWithTools generateContent invoke st)
    = mkAgent (history st ++ [c; turn] ++ final)
              (requests st ++ [history st; history st ++ [c; turn]])
    /\ length final <= 1.
Proof.
  intros Hreply Hcalls turn.
  unfold generateResponseWithTools, tryCatch, bind, query, push, modify, ret.
  cbn [history requests]. rewrite Hreply.
  destruct (functionCallsOf c) as [|fc fcs] eqn:Ecalls; [congruence|].
  cbn [length Nat.eqb]. cbn [history requests].
  rewrite <- !app_assoc. cbn [app].
  fold turn.
  destruct (generateContent (history st ++ [c; turn])) as [[f|]|e].
  - exists [f]. split; [|cbn; lia].
    cbv beta iota zeta delta [snd]. cbn [history requests].
    rewrite <- !app_assoc. reflexivity.
  - exists []. split; [|cbn; lia].
    cbv beta iota zeta delta [snd]. reflexivity.
  - exists []. split; [|cbn; lia].
    cbv beta iota zeta delta [snd]. reflexivity.
Qed.

End AgentProperties.

(** The filter on truthy texts only drops empty texts: the joined text is
    the concatenation of the texts of all text parts. *)
Lemma textOf_concat {args value} (c : Content args value) :
  textOf c = concat (textParts c).
Proof.
  unfold textOf, textParts.
  induction (parts c) as [|part rest IH]; [reflexivity|].
  cbn [flat_map]. rewrite !concat_app, IH.
  destruct part as [[|u t]| |]; reflexivity.
Qed.

(** C6, as amended.  For a model reply with [N >= 1] tool calls the loop
    appends, after the reply, one combined turn of exactly [N] response
    payloads, the i-th one tagged with the name of the i-th call and
    holding its result or its error (the error "Unknown tool" for a name
    outside the declared ones), and then issues exactly one further model
    query, sent with that turn in the history.  For [N = 0] it appends the
    reply alone, issues no further query and returns the texts of the
    reply joined, or its canned sentence when they are empty. *)
Theorem dispatch_answers_every_call
    (args value : Type)
    (generateContent :
       list (Content args value) -> outcome (option (Content args value)))
    (invoke : jsstring -> args -> outcome value)
    (st : Agent args value) (c : Content args value) :
  generateContent (history st) = Ok (Some c) ->
  let calls := functionCallsOf c in
  let turn := mkContent (str "user") (map (respond invoke) calls) in
  let run := generateResponseWithTools generateContent invoke st in
  (1 <= length calls ->
   length (parts turn) = length calls
   /\ (forall i fc, nth_error calls i = Some fc ->
         exists payload,
           nth_error (parts turn) i
           = Some (FunctionResponsePart (mkResponse (callName fc) payload))
           /\ (existsb (jsstring_eqb (callName fc)) toolNames = false ->
               payload = ErrorOf (str "Unknown tool: " ++ callName fc)))
   /\ (exists final,
         history (snd run) = history st ++ [c; turn] ++ final
         /\ length final <= 1)
   /\ requests (snd run)
      = requests st ++ [history st; history st ++ [c; turn]])
  /\ (length calls = 0 ->
      run = (Ok (orElse (concat (textParts c))
                        (str "I don't have a specific response for that.")),
             mkAgent (history st ++ [c]) (requests st ++ [history st]))).
Proof.
  intros Hreply calls turn run. split.
  - intros Hn.
    split; [cbn [parts turn]; apply length_map|]. split.
    + intros i fc Hi. cbn [parts turn]. rewrite nth_error_map, Hi.
      cbn [option_map].
      destruct (respond_name _ _ invoke fc) as (payload & -> & Hunknown).
      exists payload. split; [reflexivity | assumption].
    + assert (Hcalls : functionCallsOf c <> []).
      { intros E. fold calls in Hn. unfold calls in Hn. rewrite E in Hn.
        cbn in Hn. lia. }
      destruct (generateResponseWithTools_calls _ _ generateContent invoke
                  st c Hreply Hcalls) as (final & Hst & Hlen).
      subst run. rewrite Hst. cbn [history requests].
      split; [|reflexivity]. exists final. split; [reflexivity | assumption].
  - intros Hn. subst run.
    unfold generateResponseWithTools, tryCatch, bind, query, push, modify,
      ret.
    cbn [history requests]. rewrite Hreply.
    fold calls. rewrite Hn. cbn [Nat.eqb].
    now rewrite textOf_concat.
Qed.

Lemma dispatch_answers_every_call_witness :
  let turn :=
    mkContent (str "user")
      [FunctionResponsePart (mkResponse (str "grep") (ResultOf []));
       FunctionResponsePart
         (mkResponse (str "frobnicate")
                     (ErrorOf (str "Unknown tool: frobnicate")))] in
  requests (snd (generateResponseWithTools callingModel emptyTool freshAgent))
  = [[systemTurn]; [systemTurn; callsReply; turn]]
  /\ generateResponseWithTools textModel emptyTool freshAgent
     = (Ok (str "hi"), mkAgent [systemTurn; textReply] [[systemTurn]]).
Proof.
  split.
  - pose proof (@dispatch_answers_every_call unit (list jsstring)
                  callingModel emptyTool freshAgent callsReply eq_refl) as H.
    cbv zeta in H. destruct H as [H _].
    destruct H as (_ & _ & _ & H); [cbn; lia | exact H].
  - pose proof (@dispatch_answers_every_call unit (list jsstring)
                  textModel emptyTool freshAgent textReply eq_refl) as H.
    cbv zeta in H. destruct H as [_ H]. exact (H eq_refl).
Defined.

(** C6 as stated fails for [N = 0]: on a reply without a tool call the
    loop appends no turn of responses and issues no further query. *)
Lemma dispatch_no_call_counterexample :
  functionCallsOf textReply = []
  /\ history (snd (generateResponseWithTools textModel emptyTool freshAgent))
     = [systemTurn; textReply]
  /\ requests (snd (generateResponseWithTools textModel emptyTool freshAgent))
     = [[systemTurn]].
Proof. repeat split. Qed.

(** ** The index build *)

Section IndexProperties.

Variable toLowerCase : jsstring -> jsstring.

Lemma bind_lift_Ok {S A B} (a : A) (k : A -> M S B) st :
  bind (lift (Ok a)) k st = k a st.
Proof. reflexivity. Qed.

(** The chunks a file contributes to the index: none when it cannot be
    read. *)
Lemma indexFile_chunks_fold chunks : forall (acc : M FileSystemTools unit) st s1,
  acc st = (Ok tt, s1) ->
  exists s2,
    fold_left
      (fun acc chunk =>
         (_ <- acc ;;
          _ <- modify (fun t => mkTools (codeChunks t ++ [chunk])
                                        (embeddings t)) ;;
          let embedding := createEmbedding toLowerCase (content chunk) in
          if 0 <? length embedding
          then modify (fun t => mkTools (codeChunks t)
                                  (mapSet (chunkKey chunk) embedding
                                          (embeddings t)))
          else ret tt)%js)
      chunks acc st = (Ok tt, s2)
    /\ codeChunks s2 = codeChunks s1 ++ chunks.
Proof.
  induction chunks as [|chunk chunks IH]; intros acc st s1 Hacc;
    cbn [fold_left].
  - exists s1. split; [assumption | now rewrite app_nil_r].
  - set (embedding := createEmbedding toLowerCase (content chunk)).
    set (s1' := if 0 <? length embedding
                then mkTools (codeChunks s1 ++ [chunk])
                       (mapSet (chunkKey chunk) embedding (embeddings s1))
                else mkTools (codeChunks s1 ++ [chunk]) (embeddings s1)).
    match goal with
    | |- context [fold_left ?f chunks ?acc' st] =>
        destruct (IH acc' st s1') as (s2 & Hrun & Hchunks)
    end.
    + unfold bind, modify, ret. rewrite Hacc. unfold s1'.
      destruct (0 <? length embedding); reflexivity.
    + exists s2. split; [exact Hrun|]. rewrite Hchunks. unfold s1'.
      destruct (0 <? length embedding); cbn [codeChunks];
        now rewrite <- app_assoc.
Qed.

Lemma indexFile_chunks relativePath read st :
  exists st',
    indexFile toLowerCase relativePath read st = (Ok tt, st')
    /\ codeChunks st'
       = codeChunks st
         ++ match read with
            | Ok text => splitCodeIntoChunks relativePath text
            | Throw _ => []
            end.
Proof.
  unfold indexFile, tryCatch. destruct read as [text|e].
  - rewrite bind_lift_Ok.
    destruct (indexFile_chunks_fold (splitCodeIntoChunks relativePath text)
                (ret tt) st st eq_refl) as (s2 & Hrun & Hchunks).
    cbv beta zeta in Hrun |- *. rewrite Hrun.
    exists s2. split; [reflexivity | assumption].
  - exists st. split; [reflexivity | now rewrite app_nil_r].
Qed.

Lemma indexCodebase_chunks_fold codeFiles :
  forall (acc : M FileSystemTools unit) st s1,
  acc st = (Ok tt, s1) ->
  exists s2,
    fold_left
      (fun acc f => (_ <- acc ;; indexFile toLowerCase (fst f) (snd f))%js)
      codeFiles acc st = (Ok tt, s2)
    /\ codeChunks s2
       = codeChunks s1
         ++ flat_map (fun f => match snd f with
                               | Ok text => splitCodeIntoChunks (fst f) text
                               | Throw _ => []
                               end) codeFiles.
Proof.
  induction codeFiles as [|f codeFiles IH]; intros acc st s1 Hacc;
    cbn [fold_left flat_map].
  - exists s1. split; [assumption | now rewrite app_nil_r].
  - destruct (indexFile_chunks (fst f) (snd f) s1) as (s1' & Hfile & Hc1).
    match goal with
    | |- context [fold_left ?g codeFiles ?acc' st] =>
        destruct (IH acc' st s1') as (s2 & Hrun & Hchunks)
    end.
    + unfold bind. rewrite Hacc. exact Hfile.
    + exists s2. split; [exact Hrun|].
      now rewrite Hchunks, Hc1, <- app_assoc.
Qed.

(** The build never fails on an unreadable file, and the chunks of the
    index are those of the readable files, in the order of the files. *)
Lemma indexCodebase_chunks codeFiles st :
  exists st',
    indexCodebase toLowerCase codeFiles st = (Ok tt, st')
    /\ codeChunks st'
       = flat_map (fun f => match snd f with
                            | Ok text => splitCodeIntoChunks (fst f) text
                            | Throw _ => []
                            end) codeFiles.
Proof.
  unfold indexCodebase.
  destruct (indexCodebase_chunks_fold codeFiles
              (fun s => (Ok tt, mkTools [] [])) st (mkTools [] []) eq_refl)
    as (s2 & Hrun & Hchunks).
  exists s2. split; [|exact Hchunks].
  unfold bind at 1. unfold modify at 1.
  rewrite <- Hrun. clear.
  generalize (mkTools [] []) as s0.
  induction codeFiles as [|f codeFiles IH] using rev_ind; intros s0.
  - reflexivity.
  - rewrite !fold_left_app. cbn [fold_left]. unfold bind at 1 3.
    now rewrite IH.
Qed.

(** The scenario of the specification: a file [a.ts] of 2000 lines and an
    unreadable [b.ts] give the three chunks of [a.ts] and none for
    [b.ts]. *)
Lemma index_scenario st :
  exists st',
    indexCodebase toLowerCase
      [(str "a.ts", Ok (repeat LF 1999)); (str "b.ts", Throw Thrown)] st
    = (Ok tt, st')
    /\ map (fun c => (filePath c, range c)) (codeChunks st')
       = [(str "a.ts", (1, 1000)); (str "a.ts", (951, 1950));
          (str "a.ts", (1901, 2000))].
Proof.
  destruct (indexCodebase_chunks
              [(str "a.ts", Ok (repeat LF 1999)); (str "b.ts", Throw Thrown)]
              st) as (st' & Hrun & Hchunks).
  exists st'. split; [exact Hrun|]. rewrite Hchunks.
  vm_compute. reflexivity.
Qed.

End IndexProperties.

(* ================================================================= *)
(** * Part III: further properties of the code *)
(* ================================================================= *)

(** ** The hash *)

Lemma toInt32_shift x : exists k, toInt32 x = (x + k * 2 ^ 32)%Z.
Proof.
  exists (- ((x + 2 ^ 31) / 2 ^ 32))%Z. unfold toInt32.
  rewrite Z.mod_eq by lia. lia.
Qed.

Lemma toInt32_add_multiple x k : toInt32 (x + k * 2 ^ 32) = toInt32 x.
Proof.
  unfold toInt32.
  replace (x + k * 2 ^ 32 + 2 ^ 31)%Z with (x + 2 ^ 31 + k * 2 ^ 32)%Z by lia.
  now rewrite Z_mod_plus_full.
Qed.

Lemma toInt32_range x : (- 2 ^ 31 <= toInt32 x < 2 ^ 31)%Z.
Proof.
  unfold toInt32.
  pose proof (Z.mod_pos_bound (x + 2 ^ 31) (2 ^ 32) ltac:(lia)). lia.
Qed.

Lemma toInt32_idem x : toInt32 (toInt32 x) = toInt32 x.
Proof.
  destruct (toInt32_shift x) as [k Hk]. rewrite Hk at 1.
  apply toInt32_add_multiple.
Qed.

(** One round of the hash is [hash * 31 + char], wrapped to 32 bits. *)
Lemma hashStep_spec hash char :
  hashStep hash char = toInt32 (31 * hash + Z.of_N char).
Proof.
  unfold hashStep. rewrite Z.land_diag, toInt32_idem.
  rewrite Z.shiftl_mul_pow2 by lia.
  destruct (toInt32_shift hash) as [k1 Hk1]. rewrite Hk1.
  destruct (toInt32_shift ((hash + k1 * 2 ^ 32) * 2 ^ 5)) as [k2 Hk2].
  rewrite Hk2.
  replace ((hash + k1 * 2 ^ 32) * 2 ^ 5 + k2 * 2 ^ 32 - hash + Z.of_N char)%Z
    with (31 * hash + Z.of_N char + (32 * k1 + k2) * 2 ^ 32)%Z by lia.
  apply toInt32_add_multiple.
Qed.

Lemma toInt32_mul_add a x b :
  toInt32 (a * toInt32 x + b) = toInt32 (a * x + b).
Proof.
  destruct (toInt32_shift x) as [k Hk]. rewrite Hk.
  replace (a * (x + k * 2 ^ 32) + b)%Z
    with (a * x + b + (a * k) * 2 ^ 32)%Z by lia.
  apply toInt32_add_multiple.
Qed.

Lemma fold_left_cons {A B} (f : A -> B -> A) x l a :
  fold_left f (x :: l) a = fold_left f l (f a x).
Proof. reflexivity. Qed.

Lemma hash_fold_spec s : forall acc,
  fold_left hashStep s (toInt32 acc) = toInt32 (polyHash acc s).
Proof.
  induction s as [|c s IH]; intros acc.
  - reflexivity.
  - rewrite fold_left_cons, hashStep_spec, toInt32_mul_add. apply IH.
Qed.

Lemma toInt32_0 : toInt32 0 = 0%Z.
Proof. reflexivity. Qed.

(** X1.  [simpleHash] is the absolute value of the polynomial hash of base
    31 over the code units, wrapped to a signed 32-bit integer; its value
    lies between 0 and 2^31, both included. *)
Theorem simpleHash_polynomial s :
  simpleHash s = Z.abs (toInt32 (polyHash 0 s))
  /\ (0 <= simpleHash s <= 2 ^ 31)%Z.
Proof.
  assert (E : simpleHash s = Z.abs (toInt32 (polyHash 0 s))).
  { unfold simpleHash. now rewrite <- hash_fold_spec, toInt32_0. }
  split; [exact E|]. rewrite E.
  pose proof (toInt32_range (polyHash 0 s)). lia.
Qed.

(** ** The chunker: contents and keys *)

Lemma split_app_sep sep p rest :
  ~ In sep p -> split sep (p ++ sep :: rest) = p :: split sep rest.
Proof.
  induction p as [|c p IH]; intros Hfree.
  - cbn [app split]. now rewrite N.eqb_refl.
  - cbn [app split]. destruct (N.eqb_spec c sep) as [->|Hne].
    + exfalso. apply Hfree. now left.
    + rewrite IH by (intros H; apply Hfree; now right). reflexivity.
Qed.

Lemma split_sepFree_one sep p : ~ In sep p -> split sep p = [p].
Proof.
  induction p as [|c p IH]; intros Hfree; [reflexivity|].
  cbn [split]. destruct (N.eqb_spec c sep) as [->|Hne].
  - exfalso. apply Hfree. now left.
  - rewrite IH by (intros H; apply Hfree; now right). reflexivity.
Qed.

(** Splitting what [join] built gives the parts back. *)
Lemma split_join sep parts :
  parts <> [] -> sepFree sep parts ->
  split sep (join [sep] parts) = parts.
Proof.
  induction parts as [|p parts IH]; intros Hne Hfree; [congruence|].
  inversion Hfree as [|? ? Hp Hrest]; subst.
  destruct parts as [|q parts].
  - cbn [join]. now apply split_sepFree_one.
  - rewrite join_cons2. cbn [app].
    rewrite split_app_sep by assumption.
    rewrite IH by (assumption || discriminate). reflexivity.
Qed.

(** The lines [split] gives hold no separator. *)
Lemma split_sepFree sep s : sepFree sep (split sep s).
Proof.
  unfold sepFree. induction s as [|c s IH]; cbn [split].
  - constructor; [tauto | constructor].
  - destruct (N.eqb_spec c sep) as [->|Hne].
    + constructor; [tauto | assumption].
    + destruct (split sep s) as [|w ws]; [constructor; [|constructor]|].
      * intros [H|[]]. congruence.
      * inversion IH; subst. constructor; [|assumption].
        intros [H|H]; [congruence | contradiction].
Qed.

Lemma sepFree_slice sep i j parts :
  sepFree sep parts -> sepFree sep (slice i j parts).
Proof.
  unfold sepFree, slice. intros H. apply Forall_forall. intros p Hp.
  apply In_firstn in Hp.
  rewrite Forall_forall in H. apply H.
  rewrite <- (firstn_skipn i parts). apply in_or_app. now right.
Qed.

Lemma slice_length {A} i j (l : list A) :
  j <= length l -> length (slice i j l) = j - i.
Proof.
  intros Hj. unfold slice. rewrite length_firstn, length_skipn. lia.
Qed.

(** X2.  Every chunk carries the path it was split for, and its content is
    the lines [startLine] to [endLine] of the text joined by line feeds:
    splitting the content gives these lines back, [endLine - startLine + 1]
    of them. *)
Theorem chunk_content_is_its_lines path text c :
  In c (splitCodeIntoChunks path text) ->
  filePath c = path
  /\ split LF (content c)
     = slice (startLine c - 1) (endLine c) (split LF text)
  /\ lineCount (content c) = endLine c - startLine c + 1.
Proof.
  intros Hin. apply split_In in Hin as (k & Hk & ->).
  unfold lineCount in *. set (lines := split LF text) in *.
  unfold chunkAt. cbn [filePath startLine endLine content].
  set (e := Nat.min (950 * k + maxChunkSize) (length lines)).
  assert (He : 950 * k < e <= length lines)
    by (unfold e, maxChunkSize; lia).
  replace (950 * k + 1 - 1) with (950 * k) by lia.
  assert (Hsplit : split LF (join [LF] (slice (950 * k) e lines))
                   = slice (950 * k) e lines).
  { apply split_join.
    - intros E. apply (f_equal (@length _)) in E.
      rewrite slice_length in E by lia. cbn in E. lia.
    - apply sepFree_slice, split_sepFree. }
  split; [reflexivity|]. split; [exact Hsplit|].
  rewrite Hsplit, slice_length by lia. lia.
Qed.

Lemma chunk_content_is_its_lines_witness :
  split LF (content (mkChunk (str "a.ts") 1 1 (str "x")))
  = slice (1 - 1) 1 (split LF (str "x")).
Proof.
  apply (chunk_content_is_its_lines (str "a.ts") (str "x")
           (mkChunk (str "a.ts") 1 1 (str "x"))).
  vm_compute. now left.
Defined.


Lemma str_inj a b : str a = str b -> a = b.
Proof.
  unfold str. revert b. induction a as [|x a IH]; intros [|y b] H;
    cbn in H; try discriminate; [reflexivity|].
  injection H as Hxy Hab.
  apply (f_equal ascii_of_N) in Hxy. rewrite !ascii_N_embedding in Hxy.
  subst y. f_equal. now apply IH.
Qed.

Lemma numberToString_inj n m :
  numberToString n = numberToString m -> n = m.
Proof.
  unfold numberToString. intros H. apply str_inj in H.
  apply DecimalNat.Unsigned.to_uint_inj.
  pose proof (NilEmpty.usu (Nat.to_uint n)) as Hn.
  pose proof (NilEmpty.usu (Nat.to_uint m)) as Hm.
  rewrite H in Hn. congruence.
Qed.

(** Chunks of one file with different start lines have different keys. *)
Lemma chunkKey_inj c1 c2 :
  filePath c1 = filePath c2 -> chunkKey c1 = chunkKey c2 ->
  startLine c1 = startLine c2.
Proof.
  unfold chunkKey. intros Hp Hk. rewrite Hp in Hk.
  apply app_inv_head in Hk. apply app_inv_head in Hk.
  now apply numberToString_inj.
Qed.

Lemma split_length path text :
  length (splitCodeIntoChunks path text) = (lineCount text + 949) / 950.
Proof.
  set (cs := splitCodeIntoChunks path text).
  pose proof (split_nth path text (length cs)) as Hend.
  fold cs in Hend.
  rewrite (proj2 (nth_error_None cs (length cs)) (le_n _)) in Hend.
  destruct (Nat.ltb_spec (950 * length cs) (lineCount text)) as [|Hge];
    [discriminate|].
  assert (Hlow : length cs = 0 \/ 950 * (length cs - 1) < lineCount text).
  { destruct (length cs) as [|n] eqn:En; [now left | right].
    pose proof (split_nth path text n) as Hn. fold cs in Hn.
    destruct (nth_error cs n) eqn:E.
    - destruct (Nat.ltb_spec (950 * n) (lineCount text));
        [|discriminate].
      replace (S n - 1) with n by lia. assumption.
    - apply nth_error_None in E. lia. }
  pose proof (lineCount_pos text) as Hpos.
  apply Nat.div_unique with (r := lineCount text + 949 - 950 * length cs);
    lia.
Qed.

(** X3.  A text of [L] lines is cut into [ceil(L / 950)] chunks, at least
    one; the k-th chunk starts at line [950 k + 1]; and the index keys
    [`${filePath}:${startLine}`] of the chunks are pairwise different. *)
Theorem chunk_count_and_keys path text :
  let cs := splitCodeIntoChunks path text in
  length cs = (lineCount text + 949) / 950
  /\ 1 <= length cs
  /\ (forall k c, nth_error cs k = Some c -> startLine c = 950 * k + 1)
  /\ NoDup (map chunkKey cs).
Proof.
  intros cs. subst cs.
  assert (Hstart : forall k c,
             nth_error (splitCodeIntoChunks path text) k = Some c ->
             startLine c = 950 * k + 1 /\ filePath c = path).
  { intros k c Hk. rewrite split_nth in Hk.
    destruct (950 * k <? lineCount text); [|discriminate].
    injection Hk as <-. split; reflexivity. }
  split; [apply split_length|]. split.
  - pose proof (split_nth path text 0) as H0.
    pose proof (lineCount_pos text).
    destruct (Nat.ltb_spec (950 * 0) (lineCount text)); [|lia].
    assert (0 < length (splitCodeIntoChunks path text)); [|lia].
    apply nth_error_Some. congruence.
  - split; [intros k c Hk; now apply Hstart|].
    apply NoDup_nth_error. intros i j Hi Hij.
    rewrite length_map in Hi. rewrite !nth_error_map in Hij.
    destruct (nth_error (splitCodeIntoChunks path text) i) as [ci|] eqn:Ei;
      [|apply nth_error_None in Ei; lia].
    destruct (nth_error (splitCodeIntoChunks path text) j) as [cj|] eqn:Ej;
      [|discriminate].
    cbn [option_map] in Hij. injection Hij as Hkey.
    destruct (Hstart i ci Ei) as [Hsi Hpi].
    destruct (Hstart j cj Ej) as [Hsj Hpj].
    apply chunkKey_inj in Hkey; [lia | congruence].
Qed.


(** ** The vectorizer: normalisation and word order *)

Lemma bucketsR_entry_le_norm toLowerCase text c :
  In c (bucketsR toLowerCase text) ->
  (0 <= c <= sqrt (sumSq (bucketsR toLowerCase text)))%R.
Proof.
  intros Hin.
  destruct (bucketsR_inv toLowerCase text) as (_ & Hnn & _).
  unfold nonNegative in Hnn. rewrite Forall_forall in Hnn.
  pose proof (Hnn c Hin) as Hc. split; [assumption|].
  pose proof (sumSq_ge _ _ Hin) as Hle.
  rewrite <- (sqrt_square c) at 1 by assumption.
  now apply sqrt_le_1_alt.
Qed.

Lemma embeddingR_range toLowerCase text e :
  In e (embeddingR toLowerCase text) -> (0 <= e <= 1)%R.
Proof.
  intros He. unfold embeddingR in He.
  apply in_map_iff in He as (c & <- & Hc).
  pose proof (bucketsR_norm_pos toLowerCase text) as Hn.
  destruct (bucketsR_entry_le_norm toLowerCase text c Hc) as [H0 H1].
  split.
  - apply Rmult_le_pos; [assumption|]. left. now apply Rinv_0_lt_compat.
  - apply Rmult_le_reg_r with (r := sqrt (sumSq (bucketsR toLowerCase text)));
      [assumption|].
    unfold Rdiv. rewrite Rmult_assoc, Rinv_l by lra. lra.
Qed.

(** X4.  The embedding of every text is a vector of 1536 finite numbers
    between 0 and 1 whose L2 norm is 1 (in exact arithmetic): the guard
    [norm > 0] always holds and every bucket is divided by the norm. *)
Theorem embedding_is_normalised (toLowerCase : jsstring -> jsstring) text :
  exists es,
    createSimpleEmbedding toLowerCase text = map Fin es
    /\ length es = 1536
    /\ (forall e, In e es -> (0 <= e <= 1)%R)
    /\ l2norm (createSimpleEmbedding toLowerCase text) = Fin 1.
Proof.
  exists (embeddingR toLowerCase text).
  split; [apply createSimpleEmbedding_Fin|].
  split; [apply embeddingR_length|].
  split; [apply embeddingR_range | apply createSimpleEmbedding_unit].
Qed.

Lemma bump_comm i j : forall e, bump i (bump j e) = bump j (bump i e).
Proof.
  revert j. induction i as [|i IH]; intros [|j] [|v e]; cbn [bump];
    try reflexivity.
  now rewrite IH.
Qed.

Lemma buckets_fold_perm words1 words2 :
  Permutation words1 words2 ->
  forall embedding,
    fold_left
      (fun embedding word =>
         let hash := simpleHash word in
         let index := Z.rem hash (Z.of_nat (length embedding)) in
         bump (Z.to_nat index) embedding) words1 embedding
    = fold_left
        (fun embedding word =>
           let hash := simpleHash word in
           let index := Z.rem hash (Z.of_nat (length embedding)) in
           bump (Z.to_nat index) embedding) words2 embedding.
Proof.
  induction 1 as [|w l1 l2 _ IH|w1 w2 l|l1 l2 l3 _ IH1 _ IH2];
    intros embedding.
  - reflexivity.
  - rewrite !fold_left_cons. apply IH.
  - rewrite !fold_left_cons. cbv zeta. f_equal.
    rewrite !bump_length. apply bump_comm.
  - now rewrite IH1.
Qed.

(** X5.  The embedding is a bag of words: two texts whose words (after
    lower-casing and splitting at white space) are the same up to their
    order have the same embedding. *)
Theorem embedding_ignores_word_order
    (toLowerCase : jsstring -> jsstring) text1 text2 :
  Permutation (splitWhitespace (toLowerCase text1))
                          (splitWhitespace (toLowerCase text2)) ->
  createSimpleEmbedding toLowerCase text1
  = createSimpleEmbedding toLowerCase text2.
Proof.
  intros Hperm. unfold createSimpleEmbedding.
  assert (E : buckets toLowerCase text1 = buckets toLowerCase text2)
    by (unfold buckets; cbv zeta; now apply buckets_fold_perm).
  now rewrite E.
Qed.

Lemma embedding_ignores_word_order_witness :
  createSimpleEmbedding asciiLower (str "find Chunk")
  = createSimpleEmbedding asciiLower (str "chunk  FIND").
Proof.
  apply embedding_ignores_word_order.
  vm_compute. apply perm_swap.
Defined.

(** ** The ranker: symmetry and range on embeddings *)

Lemma num_add_comm x y : num_add x y = num_add y x.
Proof.
  destruct x, y; cbn [num_add]; try reflexivity. f_equal. lra.
Qed.

Lemma num_mul_comm x y : num_mul x y = num_mul y x.
Proof.
  destruct x, y; cbn [num_mul]; try reflexivity. f_equal. lra.
Qed.

Lemma cosine_fold_swap a : forall b dotProduct normA normB,
  fold_left
    (fun '(dotProduct, normA, normB) '(ai, bi) =>
       (num_add dotProduct (num_mul ai bi),
        num_add normA (num_mul ai ai),
        num_add normB (num_mul bi bi)))
    (combine b a) (dotProduct, normB, normA)
  = let '(d, x, y) :=
      fold_left
        (fun '(dotProduct, normA, normB) '(ai, bi) =>
           (num_add dotProduct (num_mul ai bi),
            num_add normA (num_mul ai ai),
            num_add normB (num_mul bi bi)))
        (combine a b) (dotProduct, normA, normB) in
    (d, y, x).
Proof.
  induction a as [|ai a IH]; intros [|bi b] d x y; try reflexivity.
  cbn [combine]. rewrite !fold_left_cons.
  rewrite (num_mul_comm bi ai). apply IH.
Qed.

(** X6.  The cosine similarity is symmetric in its two vectors, whatever
    numbers they hold. *)
Theorem cosineSimilarity_symmetric a b :
  cosineSimilarity a b = cosineSimilarity b a.
Proof.
  unfold cosineSimilarity. rewrite (Nat.eqb_sym (length b) (length a)).
  destruct (length a =? length b); [|reflexivity]. cbn [negb].
  rewrite (cosine_fold_swap a b).
  destruct (fold_left _ (combine a b) _) as [[d x] y].
  now rewrite (num_mul_comm (num_sqrt y) (num_sqrt x)).
Qed.

Lemma dotR_nonneg xs : forall ys,
  nonNegative xs -> nonNegative ys -> (0 <= dotR xs ys)%R.
Proof.
  unfold nonNegative.
  induction xs as [|x xs IH]; intros [|y ys] Hx Hy;
    try (cbn [dotR]; lra).
  inversion Hx; inversion Hy; subst. rewrite dotR_cons.
  specialize (IH ys ltac:(assumption) ltac:(assumption)). nra.
Qed.

Lemma embedding_cosine_range toLowerCase text1 text2 :
  exists r,
    cosineSimilarity (createSimpleEmbedding toLowerCase text1)
                     (createSimpleEmbedding toLowerCase text2) = Fin r
    /\ (0 <= r <= 1)%R.
Proof.
  destruct (cosineSimilarity_bounds (embeddingR toLowerCase text1)
              (embeddingR toLowerCase text2)) as (r & Hr & Hb).
  - now rewrite !embeddingR_length.
  - rewrite embeddingR_sumSq. lra.
  - rewrite embeddingR_sumSq. lra.
  - rewrite !createSimpleEmbedding_Fin. exists r. split; [exact Hr|].
    split; [|lra].
    rewrite cosineSimilarity_Fin in Hr by now rewrite !embeddingR_length.
    rewrite !embeddingR_sumSq, sqrt_1, Rmult_1_r in Hr.
    cbn [num_div] in Hr. destruct (Req_dec_T 1 0); [lra|].
    injection Hr as <-.
    assert (0 <= dotR (embeddingR toLowerCase text1)
                      (embeddingR toLowerCase text2))%R; [|lra].
    apply dotR_nonneg; unfold nonNegative; apply Forall_forall;
      intros e He; now apply embeddingR_range in He.
Qed.

(** X7.  Read in exact arithmetic, the similarity of the embeddings of two
    texts lies between 0 and 1 and that of the embedding of a text with
    itself is 1.  On the doubles of the program the similarity of two
    embeddings is never negative (its sign bit is clear, or it is [NaN]),
    but rounding can take it above 1: for the text [a b c] with itself it
    is the double after 1. *)
Theorem embedding_similarity_range
    (toLowerCase : jsstring -> jsstring) text1 text2 :
  (exists r,
     cosineSimilarity (createSimpleEmbedding toLowerCase text1)
                      (createSimpleEmbedding toLowerCase text2) = Fin r
     /\ (0 <= r <= 1)%R)
  /\ cosineSimilarity (createSimpleEmbedding toLowerCase text1)
                      (createSimpleEmbedding toLowerCase text1) = Fin 1
  /\ signClear
       (Binary64.cosineSimilarity
          (Binary64.createSimpleEmbedding toLowerCase text1)
          (Binary64.createSimpleEmbedding toLowerCase text2))
  /\ Binary64.gt Binary64.zero
       (Binary64.cosineSimilarity
          (Binary64.createSimpleEmbedding toLowerCase text1)
          (Binary64.createSimpleEmbedding toLowerCase text2)) = false
  /\ Binary64.gt
       (Binary64.cosineSimilarity
          (Binary64.createSimpleEmbedding asciiLower (str "a b c"))
          (Binary64.createSimpleEmbedding asciiLower (str "a b c")))
       Binary64.one = true.
Proof.
  split; [apply embedding_cosine_range|].
  split; [rewrite createSimpleEmbedding_Fin; apply cosineSimilarity_self;
          rewrite embeddingR_sumSq; lra|].
  assert (Hs : signClear
                 (Binary64.cosineSimilarity
                    (Binary64.createSimpleEmbedding toLowerCase text1)
                    (Binary64.createSimpleEmbedding toLowerCase text2)))
    by (apply cosine64_signClear;
        apply createSimpleEmbedding64_signClear).
  split; [exact Hs|].
  split; [now apply signClear_not_negative|].
  rewrite abc_self_similarity64. reflexivity.
Qed.


(** ** The index build: invariants *)

Lemma jsstring_eqb_eq a b : jsstring_eqb a b = true <-> a = b.
Proof.
  unfold jsstring_eqb. destruct (list_eq_dec N.eq_dec a b); split;
    congruence.
Qed.

Lemma jsstring_eqb_refl a : jsstring_eqb a a = true.
Proof. now apply jsstring_eqb_eq. Qed.

Lemma mapSet_In {V} key (value : V) m k v :
  In (k, v) (mapSet key value m) ->
  (k = key /\ v = value) \/ In (k, v) m.
Proof.
  induction m as [|[k0 v0] m IH]; cbn [mapSet].
  - intros [H|[]]. injection H as <- <-. now left.
  - destruct (jsstring_eqb k0 key) eqn:E.
    + apply jsstring_eqb_eq in E. subst k0.
      intros [H|H]; [injection H as <- <-; now left | right; now right].
    + intros [H|H]; [right; now left|].
      destruct (IH H) as [?|?]; [now left | right; now right].
Qed.

Lemma mapSet_has {V} key (value : V) m : In (key, value) (mapSet key value m).
Proof.
  induction m as [|[k0 v0] m IH]; cbn [mapSet]; [now left|].
  destruct (jsstring_eqb k0 key) eqn:E.
  - apply jsstring_eqb_eq in E. subst k0. now left.
  - now right.
Qed.

Lemma mapSet_other {V} key (value : V) m k v :
  k <> key -> In (k, v) m -> In (k, v) (mapSet key value m).
Proof.
  intros Hne. induction m as [|[k0 v0] m IH]; cbn [mapSet In]; [tauto|].
  destruct (jsstring_eqb k0 key) eqn:E.
  - apply jsstring_eqb_eq in E. subst k0.
    intros [H|H]; [injection H as -> _; congruence | now right].
  - intros [H|H]; [now left | right; now apply IH].
Qed.

Lemma mapSet_keys {V} key (value : V) m :
  map fst (mapSet key value m)
  = if existsb (jsstring_eqb key) (map fst m) then map fst m
    else map fst m ++ [key].
Proof.
  induction m as [|[k0 v0] m IH]; cbn [mapSet map existsb fst app];
    [reflexivity|].
  rewrite (eq_true_iff_eq (jsstring_eqb key k0) (jsstring_eqb k0 key))
    by (rewrite !jsstring_eqb_eq; split; congruence).
  destruct (jsstring_eqb k0 key); cbn [orb map fst]; [reflexivity|].
  rewrite IH. destruct (existsb (jsstring_eqb key) (map fst m));
    reflexivity.
Qed.

Lemma mapSet_NoDup {V} key (value : V) m :
  NoDup (map fst m) -> NoDup (map fst (mapSet key value m)).
Proof.
  intros Hnd. rewrite mapSet_keys.
  destruct (existsb (jsstring_eqb key) (map fst m)) eqn:E; [assumption|].
  apply NoDup_app; [assumption | repeat constructor; tauto |].
  intros k Hk [Heq|[]]. subst k.
  assert (existsb (jsstring_eqb key) (map fst m) = true); [|congruence].
  apply existsb_exists. exists key. split; [assumption|].
  apply jsstring_eqb_refl.
Qed.

Section IndexInvariant.

Variable toLowerCase : jsstring -> jsstring.

Lemma addChunk_consistent t chunk :
  indexConsistent toLowerCase t ->
  indexConsistent toLowerCase (addChunk toLowerCase t chunk).
Proof.
  intros (Hkeys & Hvals & Hnd). unfold addChunk.
  split; [|split]; cbn [codeChunks embeddings].
  - intros c Hc. apply in_app_or in Hc as [Hc|[<-|[]]].
    + destruct (Hkeys c Hc) as [v Hv].
      destruct (list_eq_dec N.eq_dec (chunkKey c) (chunkKey chunk)) as [E|E].
      * rewrite E. eexists. apply mapSet_has.
      * exists v. now apply mapSet_other.
    + eexists. apply mapSet_has.
  - intros key v Hin. apply mapSet_In in Hin as [[-> ->]|Hin].
    + exists chunk. split; [apply in_or_app; right; now left|].
      split; reflexivity.
    + destruct (Hvals key v Hin) as (c & Hc & Hk & Hv).
      exists c. split; [apply in_or_app; now left | now split].
  - now apply mapSet_NoDup.
Qed.

Lemma addChunks_consistent chunks : forall t,
  indexConsistent toLowerCase t ->
  indexConsistent toLowerCase (fold_left (addChunk toLowerCase) chunks t).
Proof.
  induction chunks as [|c chunks IH]; intros t Ht; [assumption|].
  cbn [fold_left]. apply IH. now apply addChunk_consistent.
Qed.

Lemma addChunks_chunks chunks : forall t,
  codeChunks (fold_left (addChunk toLowerCase) chunks t)
  = codeChunks t ++ chunks.
Proof.
  induction chunks as [|c chunks IH]; intros t; cbn [fold_left].
  - now rewrite app_nil_r.
  - rewrite IH. unfold addChunk. cbn [codeChunks].
    now rewrite <- app_assoc.
Qed.

(** The inner loop of [indexFile], run as a computation, is the fold of
    [addChunk]. *)
Lemma indexFile_fold_run chunks :
  forall (acc : M FileSystemTools unit) st s1,
  acc st = (Ok tt, s1) ->
  fold_left
    (fun acc chunk =>
       (_ <- acc ;;
        _ <- modify (fun t => mkTools (codeChunks t ++ [chunk])
                                      (embeddings t)) ;;
        let embedding := createEmbedding toLowerCase (content chunk) in
        if 0 <? length embedding
        then modify (fun t => mkTools (codeChunks t)
                                (mapSet (chunkKey chunk) embedding
                                        (embeddings t)))
        else ret tt)%js)
    chunks acc st
  = (Ok tt, fold_left (addChunk toLowerCase) chunks s1).
Proof.
  induction chunks as [|chunk chunks IH]; intros acc st s1 Hacc;
    cbn [fold_left]; [assumption|].
  apply IH. unfold bind, modify, ret. rewrite Hacc. cbv zeta.
  assert (Hlen : (0 <? length (createEmbedding toLowerCase (content chunk)))
                 = true).
  { unfold createEmbedding. rewrite createSimpleEmbedding_length.
    reflexivity. }
  rewrite Hlen. reflexivity.
Qed.

Lemma indexFile_run relativePath read st :
  indexFile toLowerCase relativePath read st
  = (Ok tt,
     fold_left (addChunk toLowerCase)
       match read with
       | Ok text => splitCodeIntoChunks relativePath text
       | Throw _ => []
       end st).
Proof.
  unfold indexFile, tryCatch. destruct read as [text|e]; [|reflexivity].
  rewrite bind_lift_Ok. cbv zeta.
  pose proof (indexFile_fold_run (splitCodeIntoChunks relativePath text)
                (ret tt) st st eq_refl) as Hrun.
  cbv beta zeta in Hrun |- *. now rewrite Hrun.
Qed.

Lemma indexCodebase_fold_run codeFiles :
  forall (acc : M FileSystemTools unit) st s1,
  acc st = (Ok tt, s1) ->
  fold_left
    (fun acc f => (_ <- acc ;; indexFile toLowerCase (fst f) (snd f))%js)
    codeFiles acc st
  = (Ok tt, fold_left (addChunk toLowerCase) (readableChunks codeFiles) s1).
Proof.
  induction codeFiles as [|f codeFiles IH]; intros acc st s1 Hacc;
    cbn [fold_left]; [assumption|].
  unfold readableChunks. cbn [flat_map]. rewrite fold_left_app.
  apply IH. unfold bind. rewrite Hacc. apply indexFile_run.
Qed.

(** The build, from any state, is the fold of [addChunk] over the chunks
    of the readable files, from the empty index. *)
Lemma indexCodebase_run codeFiles st :
  indexCodebase toLowerCase codeFiles st
  = (Ok tt,
     fold_left (addChunk toLowerCase) (readableChunks codeFiles)
               (mkTools [] [])).
Proof.
  unfold indexCodebase.
  rewrite <- (indexCodebase_fold_run codeFiles
                (fun s => (Ok tt, mkTools [] [])) st (mkTools [] []) eq_refl).
  unfold bind at 1. unfold modify at 1.
  generalize (mkTools [] []) as s0. clear.
  induction codeFiles as [|f codeFiles IH] using rev_ind; intros s0.
  - reflexivity.
  - rewrite !fold_left_app. cbn [fold_left]. unfold bind at 1 3.
    now rewrite IH.
Qed.

End IndexInvariant.

Lemma emptyIndex_consistent toLowerCase :
  indexConsistent toLowerCase (mkTools [] []).
Proof.
  split; [|split]; cbn [codeChunks embeddings map].
  - intros c [].
  - intros key v [].
  - constructor.
Qed.

(** X8.  [indexCodebase] never fails on unreadable files and rebuilds the
    index wholesale: from any previous state it yields the same index.  Its
    chunks are those of the readable files, in order; every chunk has a
    vector stored under its key; every stored vector is the embedding of a
    chunk, under that chunk's key; no key is stored twice; and there are
    never more stored vectors than chunks. *)
Theorem indexCodebase_builds_consistent_index
    (toLowerCase : jsstring -> jsstring)
    (codeFiles : list (jsstring * outcome jsstring))
    (st : FileSystemTools) :
  exists st',
    indexCodebase toLowerCase codeFiles st = (Ok tt, st')
    /\ (forall st2, indexCodebase toLowerCase codeFiles st2 = (Ok tt, st'))
    /\ codeChunks st' = readableChunks codeFiles
    /\ indexConsistent toLowerCase st'
    /\ length (embeddings st') <= length (codeChunks st').
Proof.
  exists (fold_left (addChunk toLowerCase) (readableChunks codeFiles)
                    (mkTools [] [])).
  split; [apply indexCodebase_run|].
  split; [intros st2; apply indexCodebase_run|].
  split; [now rewrite addChunks_chunks|].
  assert (Hc : indexConsistent toLowerCase
                 (fold_left (addChunk toLowerCase) (readableChunks codeFiles)
                            (mkTools [] [])))
    by apply addChunks_consistent, emptyIndex_consistent.
  split; [exact Hc|].
  destruct Hc as (_ & Hvals & Hnd).
  rewrite <- (length_map fst (embeddings _)).
  rewrite <- (length_map chunkKey (codeChunks _)).
  apply NoDup_incl_length; [assumption|].
  intros key Hkey. apply in_map_iff in Hkey as ([k v] & <- & Hin).
  destruct (Hvals k v Hin) as (c & Hcin & -> & _).
  cbn [fst]. now apply in_map.
Qed.


(** ** The keys of the index: encoding and decoding *)

Lemma str_String a s : str (String a s) = N_of_ascii a :: str s.
Proof. reflexivity. Qed.

Lemma to_uint_not_Nil n : Nat.to_uint n <> Decimal.Nil.
Proof.
  intros E. pose proof (DecimalNat.Unsigned.to_of (Nat.to_uint n)) as H.
  rewrite DecimalNat.Unsigned.of_to, E in H. discriminate.
Qed.

Lemma parseDigits_uint d : forall acc,
  parseDigits 10 (str (NilEmpty.string_of_uint d)) (Z.of_nat acc) true
  = Some (Z.of_nat (Nat.of_uint_acc d acc)).
Proof.
  induction d as [|d IH|d IH|d IH|d IH|d IH|d IH|d IH|d IH|d IH|d IH];
    intros acc; [reflexivity|..];
    cbn [NilEmpty.string_of_uint Nat.of_uint_acc]; rewrite str_String;
    cbn [parseDigits];
    match goal with
    | |- context [digitValue 10 ?c] =>
        let v := eval vm_compute in (digitValue 10 c) in
        change (digitValue 10 c) with v
    end;
    cbv iota; rewrite <- IH; f_equal;
    rewrite Nat.tail_mul_spec; lia.
Qed.

Lemma parseInt_digits d :
  d <> Decimal.Nil ->
  parseInt (Some (str (NilEmpty.string_of_uint d)))
  = Some (Z.of_nat (Nat.of_uint d)).
Proof.
  intros Hd. unfold Nat.of_uint. rewrite <- parseDigits_uint.
  destruct d as [|d|d|d|d|d|d|d|d|d|d]; [congruence|..];
    cbn [NilEmpty.string_of_uint]; rewrite str_String;
    try reflexivity.
  destruct d as [|d|d|d|d|d|d|d|d|d|d];
    cbn [NilEmpty.string_of_uint]; rewrite ?str_String; reflexivity.
Qed.

(** [parseInt] reads back the line number that the template literal
    printed. *)
Lemma parseInt_numberToString n :
  parseInt (Some (numberToString n)) = Some (Z.of_nat n).
Proof.
  unfold numberToString.
  rewrite parseInt_digits by apply to_uint_not_Nil.
  now rewrite DecimalNat.Unsigned.of_to.
Qed.

Lemma digits_no_colon d : ~ In COLON (str (NilEmpty.string_of_uint d)).
Proof.
  induction d; cbn [NilEmpty.string_of_uint]; rewrite ?str_String;
    cbn [In]; [tauto|..]; intros [H|H]; try discriminate; tauto.
Qed.

Lemma split_chunkKey c :
  ~ In COLON (filePath c) ->
  split COLON (chunkKey c) = [filePath c; numberToString (startLine c)].
Proof.
  intros Hfree. unfold chunkKey. cbn [app].
  rewrite split_app_sep by assumption.
  now rewrite split_sepFree_one by apply digits_no_colon.
Qed.

Lemma find_some_In {A} (f : A -> bool) l x :
  In x l -> f x = true -> exists y, find f l = Some y /\ f y = true.
Proof.
  induction l as [|a l IH]; cbn [In find]; [tauto|].
  intros [->|Hin] Hx.
  - rewrite Hx. eauto.
  - destruct (f a) eqn:E; [eauto | now apply IH].
Qed.

Lemma similarityOf_resolves chunks queryEmbedding c v :
  ~ In COLON (filePath c) ->
  In c chunks ->
  exists c',
    similarityOf chunks queryEmbedding (chunkKey c, v)
    = Some (c', cosineSimilarity queryEmbedding v)
    /\ filePath c' = filePath c /\ startLine c' = startLine c.
Proof.
  intros Hfree Hin.
  unfold similarityOf. rewrite split_chunkKey by assumption.
  cbn [hd nth_error]. rewrite parseInt_numberToString.
  destruct (find_some_In
              (fun c0 => jsstring_eqb (filePath c0) (filePath c)
                         && (Z.of_nat (startLine c0)
                             =? Z.of_nat (startLine c))%Z)
              chunks c Hin) as (c' & Hfind & Hc').
  { now rewrite jsstring_eqb_refl, Z.eqb_refl. }
  rewrite Hfind. cbn [option_map]. exists c'. split; [reflexivity|].
  apply andb_prop in Hc' as [Hp Hs].
  apply jsstring_eqb_eq in Hp. apply Z.eqb_eq in Hs. split; [assumption|lia].
Qed.

(** X9.  The key of a chunk is decoded back to its file path and start
    line when the path holds no colon: [key.split(':')] gives the path and
    the digits, and [parseInt] the line.  So the entry stored under the key
    of an indexed chunk resolves to a chunk of that path and line. *)
Theorem chunk_key_round_trip chunks queryEmbedding c v :
  ~ In COLON (filePath c) ->
  In c chunks ->
  split COLON (chunkKey c) = [filePath c; numberToString (startLine c)]
  /\ parseInt (Some (numberToString (startLine c)))
     = Some (Z.of_nat (startLine c))
  /\ exists c',
       similarityOf chunks queryEmbedding (chunkKey c, v)
       = Some (c', cosineSimilarity queryEmbedding v)
       /\ filePath c' = filePath c /\ startLine c' = startLine c.
Proof.
  intros Hfree Hin.
  split; [now apply split_chunkKey|].
  split; [apply parseInt_numberToString|].
  now apply similarityOf_resolves.
Qed.

Lemma chunk_key_round_trip_witness :
  split COLON (chunkKey helloChunk)
  = [filePath helloChunk; numberToString (startLine helloChunk)].
Proof.
  apply (chunk_key_round_trip [helloChunk] [] helloChunk []).
  - vm_compute. intros H; repeat (destruct H as [H|H]; [discriminate|]);
      exact H.
  - now left.
Defined.

(** X10.  When the path of a chunk holds a colon, the path decoded from
    its key holds none: the entry stored under the key never resolves to a
    chunk of that file, so the vector path never returns such a chunk for
    its own vector. *)
Theorem chunk_key_with_colon_is_lost chunks queryEmbedding c v c' s :
  In COLON (filePath c) ->
  similarityOf chunks queryEmbedding (chunkKey c, v) = Some (c', s) ->
  filePath c' <> filePath c.
Proof.
  intros Hcolon Hsim. unfold similarityOf in Hsim.
  destruct (find _ chunks) as [c0|] eqn:Efind; [|discriminate].
  cbn [option_map] in Hsim. injection Hsim as -> _.
  apply find_some in Efind as [_ Hc0].
  apply andb_prop in Hc0 as [Hp _]. apply jsstring_eqb_eq in Hp.
  assert (Hfree : ~ In COLON (hd [] (split COLON (chunkKey c)))).
  { pose proof (split_sepFree COLON (chunkKey c)) as Hf.
    pose proof (split_nonempty COLON (chunkKey c)) as Hn.
    destruct (split COLON (chunkKey c)); [congruence|].
    inversion Hf; subst. assumption. }
  intros E. rewrite <- Hp, E in Hfree. contradiction.
Qed.

Lemma chunk_key_with_colon_is_lost_witness :
  filePath (mkChunk (str "a") 7 7 (str "y")) <> str "a:7b.ts".
Proof.
  apply (chunk_key_with_colon_is_lost
           [mkChunk (str "a") 7 7 (str "y");
            mkChunk (str "a:7b.ts") 1 1 (str "x")] []
           (mkChunk (str "a:7b.ts") 1 1 (str "x")) []
           (mkChunk (str "a") 7 7 (str "y")) (cosineSimilarity [] [])).
  - vm_compute. right. now left.
  - unfold similarityOf.
    replace (split COLON (chunkKey (mkChunk (str "a:7b.ts") 1 1 (str "x"))))
      with [str "a"; str "7b.ts"; str "1"] by (vm_compute; reflexivity).
    replace (parseInt (nth_error [str "a"; str "7b.ts"; str "1"] 1))
      with (Some 7%Z) by (vm_compute; reflexivity).
    replace (find _ _) with (Some (mkChunk (str "a") 7 7 (str "y")))
      by (vm_compute; reflexivity).
    reflexivity.
Defined.


(** ** The ranker: order and number of the results *)

Lemma sortInsert_perm {A} (compare : A -> A -> num) x l :
  Permutation (sortInsert compare x l) (x :: l).
Proof.
  induction l as [|y l IH]; cbn [sortInsert]; [apply Permutation_refl|].
  destruct (num_gt (compare x y) num_zero); [|apply Permutation_refl].
  eapply perm_trans; [apply perm_skip, IH | apply perm_swap].
Qed.

Lemma sortBy_perm {A} (compare : A -> A -> num) l :
  Permutation (sortBy compare l) l.
Proof.
  induction l as [|x l IH]; cbn [sortBy fold_right]; [constructor|].
  eapply perm_trans; [apply sortInsert_perm | now apply perm_skip].
Qed.

Lemma num_gt_sub_Fin x y :
  num_gt (num_sub (Fin y) (Fin x)) num_zero = true <-> (x < y)%R.
Proof.
  cbn. unfold Rpos. destruct (Rlt_dec 0 (y + - x - 0)); split; intros;
    try reflexivity; try discriminate; lra.
Qed.

Lemma simGe_trans a b c : simGe a b -> simGe b c -> simGe a c.
Proof.
  intros (x & y & Ha & Hb & Hxy) (y' & z & Hb' & Hc & Hyz).
  rewrite Hb in Hb'. injection Hb' as <-.
  exists x, z. repeat split; try assumption. lra.
Qed.

Lemma sortInsert_sorted x l :
  (exists r, snd x = Fin r) ->
  Forall (fun a => exists r, snd a = Fin r) l ->
  StronglySorted simGe l ->
  StronglySorted simGe
    (sortInsert (fun a b => num_sub (snd b) (snd a)) x l).
Proof.
  intros [rx Hx] Hfin Hsorted.
  induction l as [|y l IH]; cbn [sortInsert].
  - repeat constructor.
  - inversion Hfin as [|? ? [ry Hy] Hfin']; subst.
    inversion Hsorted as [|? ? Hs Hall]; subst.
    rewrite Hx, Hy.
    destruct (num_gt (num_sub (Fin ry) (Fin rx)) num_zero) eqn:E.
    + apply num_gt_sub_Fin in E. constructor; [now apply IH|].
      apply Forall_forall. intros z Hz.
      apply In_sortInsert in Hz as [->|Hz].
      * exists ry, rx. repeat split; try assumption. lra.
      * rewrite Forall_forall in Hall. now apply Hall.
    + assert (Hle : (ry <= rx)%R).
      { destruct (Rle_dec ry rx); [assumption|].
        assert (num_gt (num_sub (Fin ry) (Fin rx)) num_zero = true)
          by (apply num_gt_sub_Fin; lra). congruence. }
      assert (Hxy : simGe x y) by (exists rx, ry; now repeat split).
      constructor; [assumption|]. constructor; [assumption|].
      apply Forall_forall. intros z Hz. rewrite Forall_forall in Hall.
      eapply simGe_trans; [exact Hxy | now apply Hall].
Qed.

Lemma sortBy_sorted l :
  Forall (fun a => exists r, snd a = Fin r) l ->
  StronglySorted simGe (sortBy (fun a b => num_sub (snd b) (snd a)) l).
Proof.
  induction l as [|x l IH]; intros Hfin; cbn [sortBy fold_right];
    [constructor|].
  inversion Hfin; subst. apply sortInsert_sorted; [assumption | | now apply IH].
  apply Forall_forall. intros a Ha. apply In_sortBy in Ha.
  rewrite Forall_forall in H2. now apply H2.
Qed.

Lemma StronglySorted_firstn {A} (R : A -> A -> Prop) n : forall l,
  StronglySorted R l -> StronglySorted R (firstn n l).
Proof.
  induction n as [|n IH]; intros [|x l] H; cbn [firstn]; try constructor.
  - inversion H; subst. now apply IH.
  - inversion H; subst. apply Forall_forall. intros y Hy.
    apply In_firstn in Hy. rewrite Forall_forall in H3. now apply H3.
Qed.

Lemma StronglySorted_sliceTo {A} (R : A -> A -> Prop) limit l :
  StronglySorted R l -> StronglySorted R (sliceTo limit l).
Proof.
  unfold sliceTo. destruct (limit <? 0)%Z; apply StronglySorted_firstn.
Qed.

Lemma StronglySorted_map {A B} (R : A -> A -> Prop) (Q : B -> B -> Prop)
    (f : A -> B) l :
  (forall a b, R a b -> Q (f a) (f b)) ->
  StronglySorted R l -> StronglySorted Q (map f l).
Proof.
  intros Hf. induction 1 as [|a l Hs IH Hall]; cbn [map]; constructor;
    [assumption|].
  apply Forall_forall. intros b Hb. apply in_map_iff in Hb as (a' & <- & Ha').
  rewrite Forall_forall in Hall. now apply Hf, Hall.
Qed.

Lemma sliceTo_length {A} limit (l : list A) :
  (0 <= limit)%Z ->
  length (sliceTo limit l) = Nat.min (Z.to_nat limit) (length l).
Proof.
  intros Hl. unfold sliceTo. destruct (Z.ltb_spec limit 0); [lia|].
  apply length_firstn.
Qed.

Lemma similarityOf_chunk chunks queryEmbedding entry c s :
  similarityOf chunks queryEmbedding entry = Some (c, s) ->
  In c chunks /\ s = cosineSimilarity queryEmbedding (snd entry).
Proof.
  destruct entry as [key v]. unfold similarityOf.
  destruct (find _ chunks) as [c0|] eqn:E; [|discriminate].
  cbn [option_map]. intros H. injection H as <- <-.
  apply find_some in E as [Hin _]. split; [assumption | reflexivity].
Qed.

Section SearchResults.

Variable toLowerCase : jsstring -> jsstring.
Variable fuseSearch : list CodeChunk -> jsstring -> outcome (list FuseResult).

(** The similarities the loop of the vector path collects, for a
    consistent index: each is finite and belongs to a chunk of the
    index. *)
Lemma similarities_finite st query cs :
  indexConsistent toLowerCase st ->
  In cs (flat_map (fun entry =>
                     match similarityOf (codeChunks st)
                             (createEmbedding toLowerCase query) entry with
                     | Some cs => [cs]
                     | None => []
                     end) (embeddings st)) ->
  In (fst cs) (codeChunks st) /\ exists r, snd cs = Fin r.
Proof.
  intros (_ & Hvals & _) Hin.
  apply in_flat_map in Hin as ([key v] & Hentry & Hin).
  destruct (similarityOf _ _ (key, v)) as [[c s]|] eqn:Es; [|contradiction].
  destruct Hin as [<-|[]].
  apply similarityOf_chunk in Es as [Hc ->]. split; [assumption|].
  destruct (Hvals key v Hentry) as (c0 & _ & _ & ->).
  cbn [snd]. unfold createEmbedding.
  destruct (embedding_cosine_range toLowerCase query (content c0))
    as (r & Hr & _).
  eauto.
Qed.

Lemma flat_map_option_length {A B} (f : A -> option B) l :
  length (flat_map (fun a => match f a with Some b => [b] | None => [] end) l)
  <= length l.
Proof.
  induction l as [|a l IH]; cbn [flat_map length]; [lia|].
  rewrite length_app. destruct (f a); cbn [length]; lia.
Qed.

Lemma flat_map_option_length_all {A B} (f : A -> option B) l :
  (forall a, In a l -> f a <> None) ->
  length (flat_map (fun a => match f a with Some b => [b] | None => [] end) l)
  = length l.
Proof.
  induction l as [|a l IH]; intros Hall; cbn [flat_map length]; [lia|].
  rewrite length_app, IH by (intros a' Ha'; apply Hall; now right).
  specialize (Hall a (or_introl eq_refl)).
  destruct (f a); [reflexivity | congruence].
Qed.

Lemma consistent_chunks_nonempty st :
  indexConsistent toLowerCase st -> embeddings st <> [] ->
  codeChunks st <> [].
Proof.
  intros (_ & Hvals & _) He Hc.
  destruct (embeddings st) as [|[k v] es] eqn:E; [congruence|].
  destruct (Hvals k v (or_introl eq_refl)) as (c & Hin & _).
  rewrite Hc in Hin. destruct Hin.
Qed.

(** X11.  On a consistent index with stored vectors, the search is the
    vector path and returns its results best first: every score is a
    finite number and no result has a larger score than one before it.
    Every result reports a chunk of the index (its file, start line and
    trimmed first line); there are at most [limit] results for a limit
    that is not negative, and never more than stored vectors. *)
Theorem vector_results_ranked query limit st :
  indexConsistent toLowerCase st -> embeddings st <> [] ->
  exists results,
    searchCodebase toLowerCase fuseSearch query limit st = (Ok results, st)
    /\ vectorSearch (createEmbedding toLowerCase query) limit st
       = (Ok results, st)
    /\ Forall finiteScore results
    /\ StronglySorted scoreGe results
    /\ (forall r, In r results ->
          exists c, In c (codeChunks st) /\ reports r c)
    /\ ((0 <= limit)%Z -> length results <= Z.to_nat limit)
    /\ length results <= length (embeddings st).
Proof.
  intros Hcons He.
  rewrite searchCodebase_vector
    by (try apply consistent_chunks_nonempty; assumption).
  unfold vectorSearch, bind, gets, ret.
  set (sims := flat_map _ (embeddings st)).
  set (sorted := sortBy _ sims).
  eexists. split; [reflexivity|]. split; [reflexivity|].
  assert (Hfin : Forall (fun a => exists r, snd a = Fin r) sims).
  { apply Forall_forall. intros cs Hcs.
    now apply (similarities_finite st query cs Hcons). }
  split; [|split; [|split; [|split]]].
  - apply Forall_forall. intros r Hr.
    apply in_map_iff in Hr as ([c s] & <- & Hin).
    apply In_sliceTo, In_sortBy in Hin.
    rewrite Forall_forall in Hfin. destruct (Hfin _ Hin) as [x Hx].
    cbn [snd] in Hx. subst s. now exists x.
  - apply StronglySorted_map with (R := simGe).
    + intros [c1 s1] [c2 s2] (x & y & Hx & Hy & Hxy). cbn [snd] in *.
      subst. exists x, y. now repeat split.
    + apply StronglySorted_sliceTo. now apply sortBy_sorted.
  - intros r Hr. apply in_map_iff in Hr as ([c s] & <- & Hin).
    apply In_sliceTo, In_sortBy in Hin.
    destruct (similarities_finite st query (c, s) Hcons Hin)
      as [Hc _].
    exists c. split; [exact Hc | now repeat split].
  - intros Hl. rewrite length_map, sliceTo_length by assumption. lia.
  - rewrite length_map.
    assert (Hslice : length (sliceTo limit sorted) <= length sorted).
    { unfold sliceTo. destruct (limit <? 0)%Z; rewrite length_firstn; lia. }
    unfold sorted in *.
    rewrite (Permutation_length (sortBy_perm _ sims)) in Hslice.
    pose proof (flat_map_option_length
                  (similarityOf (codeChunks st)
                     (createEmbedding toLowerCase query))
                  (embeddings st)) as Hle.
    fold sims in Hle. lia.
Qed.

(** The number of results of the vector path when every key resolves. *)
Lemma vector_results_length query limit st :
  indexConsistent toLowerCase st -> embeddings st <> [] ->
  (forall c, In c (codeChunks st) -> ~ In COLON (filePath c)) ->
  (0 <= limit)%Z ->
  exists results,
    searchCodebase toLowerCase fuseSearch query limit st = (Ok results, st)
    /\ length results
       = Nat.min (Z.to_nat limit) (length (embeddings st)).
Proof.
  intros Hcons He Hfree Hl.
  rewrite searchCodebase_vector
    by (try apply consistent_chunks_nonempty; assumption).
  unfold vectorSearch, bind, gets, ret.
  eexists. split; [reflexivity|].
  rewrite length_map, sliceTo_length by assumption.
  rewrite (Permutation_length (sortBy_perm _ _)).
  rewrite (flat_map_option_length_all
             (similarityOf (codeChunks st)
                (createEmbedding toLowerCase query))); [reflexivity|].
  intros [key v] Hin. destruct Hcons as (_ & Hvals & _).
  destruct (Hvals key v Hin) as (c & Hc & -> & _).
  destruct (similarityOf_resolves (codeChunks st)
              (createEmbedding toLowerCase query) c v (Hfree c Hc) Hc)
    as (c' & -> & _).
  discriminate.
Qed.

(** X12.  On a consistent index whose paths hold no colon, every stored
    vector yields a result: for a limit that is not negative the search
    returns [min(limit, number of stored vectors)] results. *)
Theorem vector_results_count query limit st :
  indexConsistent toLowerCase st -> embeddings st <> [] ->
  (forall c, In c (codeChunks st) -> ~ In COLON (filePath c)) ->
  (0 <= limit)%Z ->
  exists results,
    searchCodebase toLowerCase fuseSearch query limit st = (Ok results, st)
    /\ length results
       = Nat.min (Z.to_nat limit) (length (embeddings st)).
Proof.
  intros Hcons He Hfree Hl.
  rewrite searchCodebase_vector
    by (try apply consistent_chunks_nonempty; assumption).
  unfold vectorSearch, bind, gets, ret.
  eexists. split; [reflexivity|].
  rewrite length_map, sliceTo_length by assumption.
  rewrite (Permutation_length (sortBy_perm _ _)).
  rewrite (flat_map_option_length_all
             (similarityOf (codeChunks st)
                (createEmbedding toLowerCase query))); [reflexivity|].
  intros [key v] Hin. destruct Hcons as (_ & Hvals & _).
  destruct (Hvals key v Hin) as (c & Hc & -> & _).
  destruct (similarityOf_resolves (codeChunks st)
              (createEmbedding toLowerCase query) c v (Hfree c Hc) Hc)
    as (c' & -> & _).
  discriminate.
Qed.

End SearchResults.

Lemma helloIndex_consistent : indexConsistent asciiLower helloIndex.
Proof. apply addChunk_consistent, emptyIndex_consistent. Qed.

Section BuiltIndex.

Variable toLowerCase : jsstring -> jsstring.

Lemma built_index_consistent codeFiles st0 :
  indexConsistent toLowerCase (snd (indexCodebase toLowerCase codeFiles st0)).
Proof.
  rewrite indexCodebase_run. cbn [snd].
  apply addChunks_consistent, emptyIndex_consistent.
Qed.

Lemma built_index_chunks codeFiles st0 :
  codeChunks (snd (indexCodebase toLowerCase codeFiles st0))
  = readableChunks codeFiles.
Proof.
  rewrite indexCodebase_run. cbn [snd]. now rewrite addChunks_chunks.
Qed.

Lemma consistent_has_vectors st :
  indexConsistent toLowerCase st -> codeChunks st <> [] ->
  embeddings st <> [].
Proof.
  intros (Hkeys & _ & _) Hc He.
  destruct (codeChunks st) as [|c cs] eqn:E; [congruence|].
  destruct (Hkeys c (or_introl eq_refl)) as [v Hin].
  rewrite He in Hin. destruct Hin.
Qed.

Lemma allZero_sumSq es : allZero (map Fin es) -> sumSq es = 0%R.
Proof.
  unfold allZero, num_zero.
  induction es as [|e es IH]; intros H; [reflexivity|].
  cbn [map] in H. inversion H as [|? ? He Hes]; subst.
  injection He as ->. rewrite sumSq_cons, IH by assumption. lra.
Qed.

Lemma embedding_not_allZero text :
  ~ allZero (createEmbedding toLowerCase text).
Proof.
  unfold createEmbedding. rewrite createSimpleEmbedding_Fin. intros H.
  apply allZero_sumSq in H. rewrite embeddingR_sumSq in H. lra.
Qed.

End BuiltIndex.

Lemma twoFiles_chunks :
  readableChunks twoFiles
  = [mkChunk (str "a.ts") 1 1 (str "hello");
     mkChunk (str "b.ts") 1 1 (str "world")].
Proof. vm_compute. reflexivity. Qed.

Lemma twoFiles_vectors :
  length (embeddings (snd (indexCodebase asciiLower twoFiles newTools))) = 2.
Proof.
  rewrite indexCodebase_run, twoFiles_chunks. cbn [snd fold_left].
  unfold addChunk. cbn [embeddings codeChunks content].
  replace (chunkKey (mkChunk (str "a.ts") 1 1 (str "hello")))
    with (str "a.ts:1") by (vm_compute; reflexivity).
  replace (chunkKey (mkChunk (str "b.ts") 1 1 (str "world")))
    with (str "b.ts:1") by (vm_compute; reflexivity).
  cbn [mapSet].
  replace (jsstring_eqb (str "a.ts:1") (str "b.ts:1")) with false
    by (vm_compute; reflexivity).
  reflexivity.
Qed.

Lemma vector_results_ranked_witness :
  let st := snd (indexCodebase asciiLower twoFiles newTools) in
  exists results,
    searchCodebase asciiLower fuseHalf (str "world") 10 st = (Ok results, st)
    /\ length results = 2
    /\ Forall finiteScore results
    /\ StronglySorted scoreGe results.
Proof.
  intros st.
  assert (Hcons : indexConsistent asciiLower st)
    by apply built_index_consistent.
  assert (Hchunks : codeChunks st
                    = [mkChunk (str "a.ts") 1 1 (str "hello");
                       mkChunk (str "b.ts") 1 1 (str "world")])
    by (unfold st; rewrite built_index_chunks; apply twoFiles_chunks).
  assert (He : embeddings st <> []).
  { apply (consistent_has_vectors asciiLower); [assumption|].
    rewrite Hchunks. discriminate. }
  destruct (vector_results_ranked asciiLower fuseHalf (str "world") 10
              st Hcons He) as (results & Hs & _ & Hfin & Hsort & _).
  exists results. split; [exact Hs|]. split; [|split; assumption].
  destruct (vector_results_length asciiLower fuseHalf (str "world") 10 st
              Hcons He) as (results' & Hs' & Hlen).
  - rewrite Hchunks. intros c [<-|[<-|[]]]; vm_compute;
      intros H; repeat (destruct H as [H|H]; [discriminate|]); exact H.
  - lia.
  - rewrite Hs in Hs'. apply (f_equal fst) in Hs'. cbn [fst] in Hs'.
    injection Hs' as <-. rewrite Hlen.
    unfold st. rewrite twoFiles_vectors. reflexivity.
Defined.

Lemma vector_results_count_witness :
  exists results,
    searchCodebase asciiLower fuseHalf (str "hello") 10 helloIndex
    = (Ok results, helloIndex)
    /\ length results = Nat.min (Z.to_nat 10) (length (embeddings helloIndex)).
Proof.
  apply (vector_results_count asciiLower fuseHalf (str "hello") 10 helloIndex
           helloIndex_consistent).
  - discriminate.
  - intros c [<-|[]]. vm_compute.
    intros H; repeat (destruct H as [H|H]; [discriminate|]); exact H.
  - lia.
Defined.

(** X23.  On an index that [indexCodebase] has built, the search never
    takes the fuzzy fallback.  Every chunk has a vector stored under its
    key; every stored vector has 1536 entries, not all of them zero; so as
    soon as the index holds a chunk the search is the vector path, and in
    every case its result does not depend on the fuzzy matcher. *)
Theorem built_index_never_falls_back
    (toLowerCase : jsstring -> jsstring)
    (codeFiles : list (jsstring * outcome jsstring))
    (st0 : FileSystemTools) (query : jsstring) (limit : Z)
    (fuse1 fuse2 : list CodeChunk -> jsstring -> outcome (list FuseResult)) :
  let st := snd (indexCodebase toLowerCase codeFiles st0) in
  (forall c, In c (codeChunks st) ->
     exists v, In (chunkKey c, v) (embeddings st))
  /\ (forall key v, In (key, v) (embeddings st) ->
        length v = 1536 /\ ~ allZero v)
  /\ (codeChunks st <> [] ->
      embeddings st <> []
      /\ searchCodebase toLowerCase fuse1 query limit st
         = vectorSearch (createEmbedding toLowerCase query) limit st)
  /\ searchCodebase toLowerCase fuse1 query limit st
     = searchCodebase toLowerCase fuse2 query limit st.
Proof.
  intros st.
  pose proof (built_index_consistent toLowerCase codeFiles st0) as Hcons.
  fold st in Hcons.
  assert (Hvec : codeChunks st <> [] ->
            embeddings st <> []
            /\ forall fuse,
                 searchCodebase toLowerCase fuse query limit st
                 = vectorSearch (createEmbedding toLowerCase query) limit st).
  { intros Hc.
    pose proof (consistent_has_vectors toLowerCase st Hcons Hc) as He.
    split; [assumption|]. intros fuse. now apply searchCodebase_vector. }
  destruct Hcons as (Hkeys & Hvals & _).
  split; [exact Hkeys|]. split; [|split].
  - intros key v Hin. destruct (Hvals key v Hin) as (c & _ & _ & ->).
    split; [apply createSimpleEmbedding_length
           | apply embedding_not_allZero].
  - intros Hc. destruct (Hvec Hc) as [He Hs]. split; [assumption | apply Hs].
  - destruct (codeChunks st) as [|c cs] eqn:Ec.
    + now rewrite !searchCodebase_empty.
    + destruct Hvec as [_ Hs]; [discriminate|]. now rewrite !Hs.
Qed.

Lemma built_index_never_falls_back_witness :
  let st := snd (indexCodebase asciiLower twoFiles newTools) in
  codeChunks st <> []
  /\ searchCodebase asciiLower fuseHalf (str "hello") 10 st
     = vectorSearch (createEmbedding asciiLower (str "hello")) 10 st.
Proof.
  intros st.
  assert (Hc : codeChunks st <> []).
  { unfold st. rewrite built_index_chunks, twoFiles_chunks. discriminate. }
  split; [exact Hc|].
  destruct (built_index_never_falls_back asciiLower twoFiles newTools
              (str "hello") 10 fuseHalf fuseHalf) as (_ & _ & H & _).
  now apply H.
Defined.


(** ** grep: what is reported *)

Lemma literalFind_from_zero pattern s : forall pos from e,
  literalFind pattern s pos from = Some e ->
  exists e', literalFind pattern s pos 0 = Some e'.
Proof.
  induction s as [|c s IH]; intros pos from e; cbn [literalFind].
  - destruct (prefixNoCase pattern []); cbn [Nat.leb andb]; [eauto|].
    rewrite andb_false_r. discriminate.
  - destruct (prefixNoCase pattern (c :: s)); cbn [Nat.leb andb]; [eauto|].
    rewrite andb_false_r. apply IH.
Qed.

(** The engine on literal patterns finds a match from the start whenever
    it finds one from a later index. *)
Lemma literal_engine_monotone re s from e :
  literalMatchFrom re s from = Some e ->
  lineMatches literalMatchFrom re s = true.
Proof.
  unfold lineMatches, literalMatchFrom. intros H.
  destruct (literalFind_from_zero re s 0 from e H) as [e' ->].
  reflexivity.
Qed.

Section GrepResults.

Variable regex : Type.
Variable newRegExp : jsstring -> outcome regex.
Variable matchFrom : regex -> jsstring -> nat -> option nat.

Lemma grepLines_fold re path lines : forall acc index,
  fold_left
    (fun '(results, lastIndex, index) line =>
       let '(found, lastIndex') := test matchFrom re line lastIndex in
       (if found
        then results ++ [mkResult path (index + 1) (trim line) None]
        else results,
        lastIndex', index + 1))
    lines (acc, index)
  = (fold_left (scanLine matchFrom re) (numberLines path index lines) acc,
     index + length lines).
Proof.
  induction lines as [|l lines IH]; intros [results lastIndex] index.
  - cbn. now rewrite Nat.add_0_r.
  - unfold numberLines. cbn [length seq combine map].
    rewrite !fold_left_cons. unfold scanLine at 2. cbn [fst snd].
    destruct (test matchFrom re l lastIndex) as [found lastIndex'].
    fold (numberLines path (S index) lines).
    replace (index + 1) with (S index) by lia.
    rewrite IH. f_equal. lia.
Qed.

Lemma grepLines_scan re path lines acc :
  grepLines matchFrom re path lines acc
  = fold_left (scanLine matchFrom re) (numberLines path 0 lines) acc.
Proof. unfold grepLines. now rewrite grepLines_fold. Qed.

(** The scan of [grep] is one pass over the lines of the readable files
    with one shared [lastIndex]. *)
Lemma grep_scan searchTerm re files :
  newRegExp searchTerm = Ok re ->
  grep newRegExp matchFrom searchTerm (Ok files)
  = Ok (fst (fold_left (scanLine matchFrom re) (scannedLines files) ([], 0))).
Proof.
  intros Hre. unfold grep. rewrite Hre. f_equal. f_equal.
  unfold scannedLines. generalize (@nil SearchResult, 0) as acc.
  induction files as [|f files IH]; intros acc; [reflexivity|].
  cbn [fold_left flat_map]. rewrite fold_left_app, IH.
  destruct (snd f) as [text|e]; [|reflexivity].
  now rewrite grepLines_scan.
Qed.

Lemma scannedLines_origin files path number l :
  In (path, number, l) (scannedLines files) ->
  exists text,
    In (path, Ok text) files
    /\ 1 <= number
    /\ nth_error (split LF text) (number - 1) = Some l.
Proof.
  unfold scannedLines. intros Hin.
  apply in_flat_map in Hin as ([p read] & Hf & Hin). cbn [fst snd] in Hin.
  destruct read as [text|e]; [|destruct Hin].
  unfold numberLines in Hin.
  apply in_map_iff in Hin as ([i l'] & Heq & Hin).
  injection Heq as <- <- <-. exists text. split; [assumption|].
  split; [lia|]. replace (i + 1 - 1) with i by lia.
  clear Hf. revert Hin. generalize (split LF text) as lines.
  assert (Hgen : forall lines first,
             In (i, l') (combine (seq first (length lines)) lines) ->
             first <= i /\ nth_error lines (i - first) = Some l').
  { induction lines as [|x lines IH]; intros first; cbn [length seq combine];
      [intros []|].
    intros [H|H].
    - injection H as <- <-. rewrite Nat.sub_diag. split; [lia | reflexivity].
    - destruct (IH (S first) H) as [Hle Hnth]. split; [lia|].
      replace (i - first) with (S (i - S first)) by lia. exact Hnth. }
  intros lines Hin. destruct (Hgen lines 0 Hin) as [_ Hnth].
  now rewrite Nat.sub_0_r in Hnth.
Qed.

Lemma scan_sound re items : forall acc r,
  (forall s from e, matchFrom re s from = Some e ->
                    lineMatches matchFrom re s = true) ->
  In r (fst (fold_left (scanLine matchFrom re) items acc)) ->
  In r (fst acc)
  \/ exists item, In item items /\ r = lineResult item
                  /\ lineMatches matchFrom re (snd item) = true.
Proof.
  induction items as [|item items IH]; intros acc r Hmono Hin;
    [now left|].
  rewrite fold_left_cons in Hin.
  destruct (IH _ r Hmono Hin) as [Hacc|(it & Hit & Hr & Hm)].
  - unfold scanLine, test in Hacc.
    destruct (length (snd item) <? snd acc); [now left|].
    destruct (matchFrom re (snd item) (snd acc)) as [e|] eqn:Em;
      [|now left].
    cbn [fst] in Hacc. apply in_app_or in Hacc as [H|[<-|[]]]; [now left|].
    right. exists item. split; [now left|]. split; [reflexivity|].
    eapply Hmono, Em.
  - right. exists it. split; [now right | now split].
Qed.

(** X13.  [grep] never reports a line that does not match: every result
    belongs to a line of a readable file, with the path of that file, the
    1-based number of the line in it and the trimmed line as content, and
    that line matches the pattern.  (The engine is assumed to find a match
    from the start of a string in which it finds one from a later
    index.) *)
Theorem grep_reports_only_matching_lines searchTerm re files results :
  (forall s from e, matchFrom re s from = Some e ->
                    lineMatches matchFrom re s = true) ->
  newRegExp searchTerm = Ok re ->
  grep newRegExp matchFrom searchTerm (Ok files) = Ok results ->
  forall r, In r results ->
    exists text l,
      In (file r, Ok text) files
      /\ 1 <= line r
      /\ nth_error (split LF text) (line r - 1) = Some l
      /\ snippet r = trim l
      /\ score r = None
      /\ lineMatches matchFrom re l = true.
Proof.
  intros Hmono Hre Hgrep r Hin.
  rewrite (grep_scan searchTerm re files Hre) in Hgrep.
  injection Hgrep as <-.
  apply scan_sound in Hin as [[]|([[path number] l] & Hitem & -> & Hm)];
    [|assumption].
  destruct (scannedLines_origin files path number l Hitem)
    as (text & Hf & Hn & Hnth).
  exists text, l. cbn [lineResult file line snippet score snd] in *.
  repeat split; assumption.
Qed.

Lemma scan_isolated re items : forall results lastIndex previous,
  (forall s from e, matchFrom re s from = Some e ->
                    lineMatches matchFrom re s = true) ->
  (previous = false -> lastIndex = 0) ->
  isolatedMatches matchFrom re previous (map snd items) ->
  fst (fold_left (scanLine matchFrom re) items (results, lastIndex))
  = results
    ++ map lineResult
         (filter (fun item => lineMatches matchFrom re (snd item)) items).
Proof.
  induction items as [|item items IH];
    intros results lastIndex previous Hmono Hprev Hiso.
  - cbn. now rewrite app_nil_r.
  - cbn [map isolatedMatches] in Hiso. destruct Hiso as [Hfirst Hrest].
    rewrite fold_left_cons. cbn [filter].
    unfold scanLine at 2. cbn [fst snd]. unfold test.
    destruct (lineMatches matchFrom re (snd item)) eqn:Em.
    + rewrite (Hprev (Hfirst eq_refl)). cbn [Nat.ltb Nat.leb].
      unfold lineMatches in Em.
      destruct (matchFrom re (snd item) 0) as [e|]; [|discriminate].
      rewrite (IH _ e true Hmono) by (discriminate || assumption).
      cbn [map]. now rewrite <- app_assoc.
    + assert (Hfail :
        (if length (snd item) <? lastIndex then (false, 0)
         else match matchFrom re (snd item) lastIndex with
              | Some e => (true, e)
              | None => (false, 0)
              end) = (false, 0)).
      { destruct (length (snd item) <? lastIndex); [reflexivity|].
        destruct (matchFrom re (snd item) lastIndex) as [e|] eqn:E;
          [|reflexivity].
        apply Hmono in E. congruence. }
      rewrite Hfail. now apply (IH _ 0 false Hmono).
Qed.

(** X14.  When no matching line comes right after another matching line
    in the scan (the lines of the readable files, one file after the
    other), [grep] reports exactly the matching lines, in scan order: its
    result is the list of the matching lines, each with its path, 1-based
    number and trimmed text.  (Same assumption on the engine.) *)
Theorem grep_complete_on_isolated_matches searchTerm re files :
  (forall s from e, matchFrom re s from = Some e ->
                    lineMatches matchFrom re s = true) ->
  newRegExp searchTerm = Ok re ->
  isolatedMatches matchFrom re false (map snd (scannedLines files)) ->
  grep newRegExp matchFrom searchTerm (Ok files)
  = Ok (map lineResult
          (filter (fun item => lineMatches matchFrom re (snd item))
                  (scannedLines files))).
Proof.
  intros Hmono Hre Hiso. rewrite (grep_scan searchTerm re files Hre).
  f_equal.
  now rewrite (scan_isolated re (scannedLines files) [] 0 false Hmono).
Qed.

Lemma grep_readable_only searchTerm files :
  grep newRegExp matchFrom searchTerm (Ok files)
  = grep newRegExp matchFrom searchTerm (Ok (filter isReadable files)).
Proof.
  unfold grep. destruct (newRegExp searchTerm) as [re|e]; [|reflexivity].
  f_equal. f_equal. generalize (@nil SearchResult, 0) as acc.
  induction files as [|[path read] files IH]; intros acc; [reflexivity|].
  cbn [filter isReadable snd]. destruct read as [text|e].
  - cbn [fold_left snd fst]. apply IH.
  - cbn [fold_left snd]. apply IH.
Qed.

(** X15.  Only the compilation of the pattern can make [grep] fail once
    the files are enumerated: a file that cannot be read never does, and
    the result is the one [grep] gives on the readable files alone. *)
Theorem grep_fails_only_on_pattern searchTerm files :
  ((exists e, grep newRegExp matchFrom searchTerm (Ok files) = Throw e)
   <-> exists e, newRegExp searchTerm = Throw e)
  /\ grep newRegExp matchFrom searchTerm (Ok files)
     = grep newRegExp matchFrom searchTerm (Ok (filter isReadable files)).
Proof.
  split; [|apply grep_readable_only].
  unfold grep. destruct (newRegExp searchTerm) as [re|e].
  - split; intros [e H]; discriminate.
  - split; intros _; eauto.
Qed.

End GrepResults.

Lemma grep_reports_only_matching_lines_witness :
  exists text l,
    In (str "a.ts", Ok text) [(str "a.ts", Ok (str "TODO a"))]
    /\ 1 <= 1
    /\ nth_error (split LF text) (1 - 1) = Some l
    /\ trim (str "TODO a") = trim l
    /\ @None num = None
    /\ lineMatches literalMatchFrom (str "todo") l = true.
Proof.
  apply (grep_reports_only_matching_lines jsstring literalRegExp
           literalMatchFrom (str "todo") (str "todo")
           [(str "a.ts", Ok (str "TODO a"))]
           [mkResult (str "a.ts") 1 (trim (str "TODO a")) None]
           (fun s from e => literal_engine_monotone (str "todo") s from e)
           eq_refl eq_refl
           (mkResult (str "a.ts") 1 (trim (str "TODO a")) None)
           (or_introl eq_refl)).
Defined.

Lemma grep_complete_on_isolated_matches_witness :
  grep literalRegExp literalMatchFrom (str "todo")
       (Ok [(str "a.ts", Ok (str "TODO a" ++ [LF] ++ str "x" ++ [LF]
                              ++ str "todo b"));
            (str "b.ts", Throw Thrown)])
  = Ok (map lineResult
          (filter (fun item =>
                     lineMatches literalMatchFrom (str "todo") (snd item))
             (scannedLines
                [(str "a.ts", Ok (str "TODO a" ++ [LF] ++ str "x" ++ [LF]
                                   ++ str "todo b"));
                 (str "b.ts", Throw Thrown)]))).
Proof.
  apply (grep_complete_on_isolated_matches jsstring literalRegExp
           literalMatchFrom (str "todo") (str "todo")).
  - intros s from e. apply literal_engine_monotone.
  - reflexivity.
  - vm_compute. repeat split; intros; congruence.
Defined.


(** ** The dispatch loop: totality and failures *)

Section LoopProperties.

Variables args value : Type.
Variable generateContent :
  list (Content args value) -> outcome (option (Content args value)).
Variable invoke : jsstring -> args -> outcome value.

(** The shape of every run of the loop. *)
Lemma loop_run_shape st :
  exists text suffix newRequests,
    generateResponseWithTools generateContent invoke st
    = (Ok text, mkAgent (history st ++ suffix) (requests st ++ newRequests))
    /\ length suffix <= 3
    /\ 1 <= length newRequests <= 2
    /\ hd_error newRequests = Some (history st)
    /\ (forall r, In r newRequests -> exists s, r = history st ++ s).
Proof.
  unfold generateResponseWithTools, tryCatch, bind, query, push, modify, ret.
  cbn [history requests].
  destruct (generateContent (history st)) as [[c|]|e].
  - destruct (functionCallsOf c) as [|fc fcs] eqn:Ecalls.
    + cbn [length Nat.eqb]. eexists. exists [c], [history st].
      split; [reflexivity|]. cbn [length hd_error]. repeat split; try lia.
      intros r [<-|[]]. exists []. now rewrite app_nil_r.
    + cbn [length Nat.eqb history requests].
      set (turn := mkContent (str "user") (map (respond invoke) (fc :: fcs))).
      assert (Hreq : forall r,
                 In r [history st; (history st ++ [c]) ++ [turn]] ->
                 exists s, r = history st ++ s).
      { intros r [<-|[<-|[]]].
        - exists []. now rewrite app_nil_r.
        - exists [c; turn]. now rewrite <- app_assoc. }
      destruct (generateContent ((history st ++ [c]) ++ [turn]))
        as [[f|]|e].
      * eexists. exists [c; turn; f],
          [history st; (history st ++ [c]) ++ [turn]].
        split; [cbv beta iota; cbn [history requests];
                rewrite <- !app_assoc; reflexivity|].
        cbn [length hd_error]. repeat split; try lia. exact Hreq.
      * eexists. exists [c; turn],
          [history st; (history st ++ [c]) ++ [turn]].
        split; [cbv beta iota; cbn [history requests];
                rewrite <- !app_assoc; reflexivity|].
        cbn [length hd_error]. repeat split; try lia. exact Hreq.
      * eexists. exists [c; turn],
          [history st; (history st ++ [c]) ++ [turn]].
        split; [cbv beta iota; cbn [history requests];
                rewrite <- !app_assoc; reflexivity|].
        cbn [length hd_error]. repeat split; try lia. exact Hreq.
  - eexists. exists [], [history st].
    split; [rewrite app_nil_r; cbv beta iota; reflexivity|].
    cbn [length hd_error]. repeat split; try lia.
    intros r [<-|[]]. exists []. now rewrite app_nil_r.
  - eexists. exists [], [history st].
    split; [rewrite app_nil_r; cbv beta iota; reflexivity|].
    cbn [length hd_error]. repeat split; try lia.
    intros r [<-|[]]. exists []. now rewrite app_nil_r.
Qed.


(** X16.  [generateResponseWithTools] never throws: it always returns a
    text.  It only appends to the history, at most three turns (the reply,
    the turn of tool responses, the final reply), and it queries the model
    once or twice: first with the history as it was, and every request is
    an extension of that history. *)
Theorem dispatch_loop_total st :
  exists text suffix newRequests,
    generateResponseWithTools generateContent invoke st
    = (Ok text, mkAgent (history st ++ suffix) (requests st ++ newRequests))
    /\ length suffix <= 3
    /\ 1 <= length newRequests <= 2
    /\ hd_error newRequests = Some (history st)
    /\ (forall r, In r newRequests -> exists s, r = history st ++ s).
Proof. apply loop_run_shape. Qed.

(** X17.  A failure of the model service is reported in the returned text
    and rolls nothing back.  When the first query fails with an error
    message, the loop returns "I encountered an error: " followed by the
    message and the history is as before; when there is no candidate it
    returns its apology and the history is as before; when the query after
    the tool calls fails, the reply and the turn of tool responses stay in
    the history. *)
Theorem model_failure_is_reported st message :
  (generateContent (history st) = Throw (JsError message) ->
   generateResponseWithTools generateContent invoke st
   = (Ok (str "I encountered an error: " ++ message),
      mkAgent (history st) (requests st ++ [history st])))
  /\ (generateContent (history st) = Ok None ->
      generateResponseWithTools generateContent invoke st
      = (Ok (str "I am sorry, but I could not process your request."),
         mkAgent (history st) (requests st ++ [history st])))
  /\ (forall c,
        generateContent (history st) = Ok (Some c) ->
        functionCallsOf c <> [] ->
        let turn :=
          mkContent (str "user") (map (respond invoke) (functionCallsOf c)) in
        generateContent (history st ++ [c; turn])
        = Throw (JsError message) ->
        generateResponseWithTools generateContent invoke st
        = (Ok (str "I encountered an error: " ++ message),
           mkAgent (history st ++ [c; turn])
                   (requests st ++ [history st; history st ++ [c; turn]]))).
Proof.
  split; [|split].
  - intros H.
    unfold generateResponseWithTools, tryCatch, bind, query, push, modify, ret.
    now rewrite H.
  - intros H.
    unfold generateResponseWithTools, tryCatch, bind, query, push, modify, ret.
    now rewrite H.
  - intros c H Hcalls turn Hfail.
    unfold generateResponseWithTools, tryCatch, bind, query, push, modify, ret.
    cbn [history requests]. rewrite H.
    destruct (functionCallsOf c) as [|fc fcs] eqn:Ecalls; [congruence|].
    cbn [length Nat.eqb history requests].
    rewrite <- !app_assoc. cbn [app]. fold turn. rewrite Hfail.
    reflexivity.
Qed.

End LoopProperties.

Lemma model_failure_is_reported_witness :
  generateResponseWithTools failingModel emptyTool freshAgent
  = (Ok (str "I encountered an error: " ++ str "quota"),
     mkAgent (history freshAgent)
             (requests freshAgent ++ [history freshAgent]))
  /\ history (snd (generateResponseWithTools failingLaterModel emptyTool
                     freshAgent))
     = history freshAgent
       ++ [callsReply;
           mkContent (str "user")
             (map (respond emptyTool) (functionCallsOf callsReply))].
Proof.
  split.
  - apply (model_failure_is_reported unit (list jsstring) failingModel
             emptyTool freshAgent (str "quota")).
    reflexivity.
  - destruct (model_failure_is_reported unit (list jsstring)
                failingLaterModel emptyTool freshAgent (str "quota"))
      as (_ & _ & H).
    rewrite (H callsReply); [reflexivity | reflexivity | discriminate
                             | reflexivity].
Defined.


(** ** The context expander *)

Lemma scanMentions_spec s : forall state m,
  In m (scanMentions state s) ->
  match state with
  | Searching =>
      exists pre post, s = pre ++ AT :: m ++ post /\ wellFormedMention m
  | AfterAt =>
      (exists post, s = m ++ post /\ wellFormedMention m)
      \/ (exists pre post, s = pre ++ AT :: m ++ post /\ wellFormedMention m)
  | InMention capture =>
      (exists m' post, m = capture ++ m' /\ s = m' ++ post
                       /\ forallb isMentionChar m' = true)
      \/ (exists pre post, s = pre ++ AT :: m ++ post /\ wellFormedMention m)
  end.
Proof.
  induction s as [|c rest IH]; intros state m Hin.
  - destruct state as [| |capture]; cbn [scanMentions] in Hin;
      [contradiction | contradiction |].
    destruct Hin as [<-|[]]. left. exists [], [].
    now rewrite app_nil_r.
  - destruct state as [| |capture]; cbn [scanMentions] in Hin.
    + destruct (N.eqb_spec c AT) as [->|Hne].
      * destruct (IH AfterAt m Hin) as [(post & -> & Hm)
                                       |(pre & post & -> & Hm)].
        -- exists [], post. now split.
        -- exists (AT :: pre), post. now split.
      * destruct (IH Searching m Hin) as (pre & post & -> & Hm).
        exists (c :: pre), post. now split.
    + destruct (isMentionChar c) eqn:Ec.
      * destruct (IH (InMention [c]) m Hin)
          as [(m' & post & -> & -> & Hm')|(pre & post & -> & Hm)].
        -- left. exists post. split; [reflexivity|].
           split; [discriminate|]. cbn [app forallb]. now rewrite Ec.
        -- right. exists (c :: pre), post. now split.
      * destruct (IH Searching m Hin) as (pre & post & -> & Hm).
        right. exists (c :: pre), post. now split.
    + destruct (isMentionChar c) eqn:Ec.
      * destruct (IH (InMention (capture ++ [c])) m Hin)
          as [(m' & post & -> & -> & Hm')|(pre & post & -> & Hm)].
        -- left. exists (c :: m'), post. rewrite <- app_assoc.
           split; [reflexivity|]. split; [reflexivity|].
           cbn [forallb]. now rewrite Ec.
        -- right. exists (c :: pre), post. now split.
      * destruct Hin as [<-|Hin].
        -- left. exists [], (c :: rest). now rewrite app_nil_r.
        -- destruct (IH Searching m Hin) as (pre & post & -> & Hm).
           right. exists (c :: pre), post. now split.
Qed.

(** X18.  Every file reference that [resolveContextFiles] tries to read is
    well formed and comes from the input: it is not empty, holds no white
    space and no quote, and stands in the input right after an [@]. *)
Theorem mentions_come_from_input input m :
  In m (scanMentions Searching input) ->
  wellFormedMention m
  /\ exists pre post, input = pre ++ AT :: m ++ post.
Proof.
  intros Hin.
  destruct (scanMentions_spec input Searching m Hin)
    as (pre & post & Hs & Hm).
  split; [assumption | eauto].
Qed.

Lemma mentions_come_from_input_witness :
  wellFormedMention (str "src/a.ts")
  /\ exists pre post,
       str "explain @src/a.ts now" = pre ++ AT :: str "src/a.ts" ++ post.
Proof.
  apply (mentions_come_from_input (str "explain @src/a.ts now")
           (str "src/a.ts")).
  vm_compute. now left.
Defined.

Lemma scanMentions_no_at s :
  ~ In AT s -> scanMentions Searching s = [].
Proof.
  induction s as [|c rest IH]; intros Hno; [reflexivity|].
  cbn [scanMentions]. destruct (N.eqb_spec c AT) as [->|Hne].
  - exfalso. apply Hno. now left.
  - apply IH. intros H. apply Hno. now right.
Qed.

Lemma expand_fold readFile matches : forall expanded,
  fold_left
    (fun expandedInput path =>
       match readFile path with
       | Ok text => expandedInput ++ contextBlock path text
       | Throw _ => expandedInput
       end) matches expanded
  = expanded
    ++ flat_map (fun path => match readFile path with
                             | Ok text => contextBlock path text
                             | Throw _ => []
                             end) matches.
Proof.
  induction matches as [|p matches IH]; intros expanded;
    cbn [fold_left flat_map]; [now rewrite app_nil_r|].
  rewrite IH. destruct (readFile p); [now rewrite <- app_assoc|].
  reflexivity.
Qed.

Lemma resolveContextFiles_run readFile input :
  resolveContextFiles readFile input
  = input
    ++ flat_map (fun path => match readFile path with
                             | Ok text => contextBlock path text
                             | Throw _ => []
                             end) (scanMentions Searching input).
Proof.
  unfold resolveContextFiles. cbv zeta.
  destruct (scanMentions Searching input) as [|p matches] eqn:E.
  - cbn. now rewrite app_nil_r.
  - cbn [length Nat.eqb]. apply expand_fold.
Qed.

(** X19.  [resolveContextFiles] never alters what the user typed: its
    result is the input followed by one block per file reference that
    could be read, in the order of the references, each block holding the
    path and the content of the file.  With no [@] in the input, or when
    no reference can be read, the result is the input itself. *)
Theorem context_expansion_only_appends readFile input :
  resolveContextFiles readFile input
  = input
    ++ flat_map (fun path => match readFile path with
                             | Ok text => contextBlock path text
                             | Throw _ => []
                             end) (scanMentions Searching input)
  /\ (~ In AT input -> resolveContextFiles readFile input = input)
  /\ ((forall path, In path (scanMentions Searching input) ->
         exists e, readFile path = Throw e) ->
      resolveContextFiles readFile input = input).
Proof.
  split; [apply resolveContextFiles_run|]. split.
  - intros Hno. rewrite resolveContextFiles_run.
    rewrite scanMentions_no_at by assumption. cbn. apply app_nil_r.
  - intros Hfail. rewrite resolveContextFiles_run.
    induction (scanMentions Searching input) as [|p matches IH];
      [cbn; apply app_nil_r|].
    cbn [flat_map]. destruct (Hfail p (or_introl eq_refl)) as [e ->].
    cbn [app]. apply IH. intros path Hp. apply Hfail. now right.
Qed.

Lemma context_expansion_only_appends_witness :
  resolveContextFiles oneFile (str "no reference here")
  = str "no reference here"
  /\ resolveContextFiles oneFile (str "mail me @home")
     = str "mail me @home".
Proof.
  destruct (context_expansion_only_appends oneFile
              (str "no reference here")) as (_ & Hno & _).
  destruct (context_expansion_only_appends oneFile
              (str "mail me @home")) as (_ & _ & Hfail).
  split.
  - apply Hno. vm_compute.
    intros H; repeat (destruct H as [H|H]; [discriminate|]); exact H.
  - apply Hfail. vm_compute. intros path [<-|[]].
    eexists. reflexivity.
Defined.


(** ** The agent: chat, index and history *)

Section SessionProperties.

Variables args value : Type.
Variable toLowerCase : jsstring -> jsstring.
Variable fuseSearch : list CodeChunk -> jsstring -> outcome (list FuseResult).
Variable readFile : jsstring -> outcome jsstring.
Variable codeFiles : outcome (list (jsstring * outcome jsstring)).
Variable generateContent :
  list (Content args value) -> outcome (option (Content args value)).
Variable invoke : FileSystemTools -> jsstring -> args -> outcome value.

(** [FileSystemTools.indexCodebase] with its glob: the index is rebuilt
    when the glob succeeds and untouched when it fails. *)
Lemma toolsIndexCodebase_run t :
  toolsIndexCodebase toLowerCase codeFiles t
  = match codeFiles with
    | Ok files => (Ok tt, snd (indexCodebase toLowerCase files t))
    | Throw e => (Throw e, t)
    end.
Proof.
  unfold toolsIndexCodebase, tryCatch. destruct codeFiles as [files|e].
  - rewrite bind_lift_Ok. now rewrite (indexCodebase_run toLowerCase files t).
  - reflexivity.
Qed.

(** The auto-index step of [chat]. *)
Lemma chat_index_step (s : Session args value) :
  (if negb (isIndexed s)
   then tryCatch
          (_ <- onTools args value (toolsIndexCodebase toLowerCase codeFiles) ;;
           setIndexed args value)%js
          (fun error => ret tt)
   else ret tt) s
  = (Ok tt,
     if isIndexed s then s
     else match codeFiles with
          | Ok files =>
              mkSession (agent s) true
                (snd (indexCodebase toLowerCase files (toolsState s)))
          | Throw _ => mkSession (agent s) false (toolsState s)
          end).
Proof.
  destruct (isIndexed s) eqn:Ei; cbn [negb]; [reflexivity|].
  unfold tryCatch, bind, onTools, setIndexed, modify, ret.
  rewrite toolsIndexCodebase_run.
  destruct codeFiles as [files|e]; cbn [snd]; [|now rewrite Ei].
  reflexivity.
Qed.

(** The shape of every run of [chat]. *)
Lemma chat_run_shape userInput (s : Session args value) :
  let turn :=
    mkContent (str "user")
      [TextPart (resolveContextFiles readFile userInput)] in
  let indexed :=
    if isIndexed s then s
    else match codeFiles with
         | Ok files =>
             mkSession (agent s) true
               (snd (indexCodebase toLowerCase files (toolsState s)))
         | Throw _ => mkSession (agent s) false (toolsState s)
         end in
  exists text suffix newRequests,
    chat toLowerCase readFile codeFiles generateContent invoke userInput s
    = (Ok text,
       mkSession
         (mkAgent (history (agent s) ++ turn :: suffix)
                  (requests (agent s)
                   ++ (history (agent s) ++ [turn]) :: newRequests))
         (isIndexed indexed) (toolsState indexed))
    /\ length suffix <= 3 /\ length newRequests <= 1.
Proof.
  intros turn indexed. unfold chat. cbv zeta. fold turn.
  unfold bind at 1. unfold onAgent at 1, push, modify.
  cbn [agent isIndexed toolsState].
  set (s1 := mkSession (mkAgent (history (agent s) ++ [turn])
                                (requests (agent s)))
                       (isIndexed s) (toolsState s)).
  unfold bind at 1. unfold gets at 1. unfold bind at 1.
  pose proof (chat_index_step s1) as Hstep.
  cbn [isIndexed] in Hstep. rewrite Hstep. clear Hstep.
  match goal with
  | |- context [onAgent _ _ _ ?x] => set (s2 := x)
  end.
  assert (Hs2 : agent s2 = agent s1
                /\ isIndexed s2 = isIndexed indexed
                /\ toolsState s2 = toolsState indexed).
  { unfold s2, indexed. cbn [isIndexed s1 agent toolsState].
    destruct (isIndexed s) eqn:Ei;
      [cbn; now rewrite Ei|].
    destruct codeFiles; cbn; repeat split. }
  destruct Hs2 as (Ha & Hi & Ht).
  unfold onAgent.
  destruct (loop_run_shape args value generateContent
              (invoke (toolsState s2)) (agent s2))
    as (text & suffix & newRequests & Hrun & Hlen & Hreq & Hhd & _).
  rewrite Hrun, Ha, Hi, Ht. cbn [agent history requests s1].
  destruct newRequests as [|r0 more]; [cbn in Hreq; lia|].
  cbn [hd_error] in Hhd. injection Hhd as ->. rewrite Ha.
  cbn [agent history s1].
  exists text, suffix, more. split.
  - rewrite <- !app_assoc. reflexivity.
  - cbn [length] in Hreq. split; lia.
Qed.

(** X20.  [chat] never throws and always returns a text.  It appends the
    user turn (the input with the contents of the files it refers to) and
    then only what the dispatch loop appends; the first request to the
    model is the history with that user turn last.  The index is built at
    most once: when the agent is marked indexed the tools are left as they
    are; otherwise the index is rebuilt and the agent marked indexed if the
    enumeration of the files succeeds, and if it fails the tools are left
    as they are and the agent stays unmarked, so that the next chat tries
    again. *)
Theorem chat_always_answers userInput (s : Session args value) :
  let turn :=
    mkContent (str "user")
      [TextPart (resolveContextFiles readFile userInput)] in
  exists text suffix newRequests st',
    chat toLowerCase readFile codeFiles generateContent invoke userInput s
    = (Ok text, st')
    /\ history (agent st') = history (agent s) ++ turn :: suffix
    /\ requests (agent st')
       = requests (agent s) ++ (history (agent s) ++ [turn]) :: newRequests
    /\ length suffix <= 3 /\ length newRequests <= 1
    /\ (isIndexed s = true ->
        isIndexed st' = true /\ toolsState st' = toolsState s)
    /\ (isIndexed s = false -> forall files, codeFiles = Ok files ->
        isIndexed st' = true
        /\ toolsState st'
           = snd (indexCodebase toLowerCase files (toolsState s)))
    /\ (isIndexed s = false -> forall e, codeFiles = Throw e ->
        isIndexed st' = false /\ toolsState st' = toolsState s).
Proof.
  intros turn.
  destruct (chat_run_shape userInput s)
    as (text & suffix & newRequests & Hrun & Hlen & Hreq).
  fold turn in Hrun. exists text, suffix, newRequests. eexists.
  split; [exact Hrun|]. cbn [agent history requests isIndexed toolsState].
  split; [reflexivity|]. split; [reflexivity|].
  split; [assumption|]. split; [assumption|].
  split; [|split].
  - intros Hi. rewrite Hi. now split.
  - intros Hi files Hf. rewrite Hi, Hf. now split.
  - intros Hi e Hf. rewrite Hi, Hf. now split.
Qed.

(** X21.  The first turn of the history, the system instruction, is never
    lost: [clearHistory] after any chat leaves exactly that turn, and
    clearing twice is clearing once. *)
Theorem clearHistory_keeps_system_turn userInput (s : Session args value)
    systemTurn rest :
  history (agent s) = systemTurn :: rest ->
  let afterChat :=
    snd (chat toLowerCase readFile codeFiles generateContent invoke
           userInput s) in
  hd_error (history (agent afterChat)) = Some systemTurn
  /\ history (agent (snd (clearHistory afterChat))) = [systemTurn]
  /\ snd (clearHistory (snd (clearHistory afterChat)))
     = snd (clearHistory afterChat).
Proof.
  intros Hh afterChat.
  destruct (chat_run_shape userInput s)
    as (text & suffix & newRequests & Hrun & _).
  assert (Ha : history (agent afterChat)
               = systemTurn :: rest
                 ++ mkContent (str "user")
                      [TextPart (resolveContextFiles readFile userInput)]
                 :: suffix).
  { unfold afterChat. rewrite Hrun. cbn [snd agent history].
    now rewrite Hh. }
  split; [now rewrite Ha|].
  unfold clearHistory, onAgent, modify.
  cbn [snd agent history requests isIndexed toolsState].
  rewrite Ha. cbn [firstn]. split; reflexivity.
Qed.

(** X22.  [searchCode] never searches an index it has not built: when the
    agent is marked indexed it searches the index as it is; otherwise it
    first rebuilds the index, marks the agent and searches the new index;
    and when the enumeration of the files fails, the failure is thrown to
    the caller and nothing has changed. *)
Theorem searchCode_indexes_first query limit (s : Session args value) :
  (isIndexed s = true ->
   searchCode toLowerCase fuseSearch codeFiles query limit s
   = (fst (searchCodebase toLowerCase fuseSearch query limit (toolsState s)),
      s))
  /\ (isIndexed s = false -> forall files, codeFiles = Ok files ->
      let built := snd (indexCodebase toLowerCase files (toolsState s)) in
      searchCode toLowerCase fuseSearch codeFiles query limit s
      = (fst (searchCodebase toLowerCase fuseSearch query limit built),
         mkSession (agent s) true built))
  /\ (isIndexed s = false -> forall e, codeFiles = Throw e ->
      searchCode toLowerCase fuseSearch codeFiles query limit s
      = (Throw e, s)).
Proof.
  assert (Hsearch : forall s0 : Session args value,
             onTools args value
               (searchCodebase toLowerCase fuseSearch query limit) s0
             = (fst (searchCodebase toLowerCase fuseSearch query limit
                       (toolsState s0)), s0)).
  { intros s0. unfold onTools.
    pose proof (searchCodebase_state toLowerCase fuseSearch query limit
                  (toolsState s0)) as Hst.
    destruct (searchCodebase toLowerCase fuseSearch query limit
                (toolsState s0)) as [r t]. cbn [fst snd] in *. subst t.
    now destruct s0. }
  split; [|split].
  - intros Hi. unfold searchCode, bind, gets, ret. rewrite Hi. cbn [negb].
    apply Hsearch.
  - intros Hi files Hf built.
    unfold searchCode, agentIndexCodebase, bind, gets, setIndexed, modify.
    rewrite Hi. cbn [negb]. unfold onTools at 1.
    rewrite toolsIndexCodebase_run, Hf. cbn [agent isIndexed toolsState].
    fold built. rewrite Hsearch. reflexivity.
  - intros Hi e Hf.
    unfold searchCode, agentIndexCodebase, bind, gets, setIndexed, modify.
    rewrite Hi. cbn [negb]. unfold onTools at 1.
    rewrite toolsIndexCodebase_run, Hf. now destruct s.
Qed.

End SessionProperties.

Lemma clearHistory_keeps_system_turn_witness :
  let afterChat :=
    snd (chat asciiLower oneFile oneFileGlob textModel toolOf
           (str "see @a.ts") freshSession) in
  hd_error (history (agent afterChat)) = Some systemTurn
  /\ history (agent (snd (clearHistory afterChat))) = [systemTurn]
  /\ snd (clearHistory (snd (clearHistory afterChat)))
     = snd (clearHistory afterChat).
Proof.
  exact (clearHistory_keeps_system_turn unit (list jsstring) asciiLower
           oneFile oneFileGlob textModel toolOf (str "see @a.ts")
           freshSession systemTurn [] eq_refl).
Defined.
